(** * polymorphic_value: a shallow embedding of polymorphic_value.h

    The header implements a value-semantic container for objects of classes
    derived from a polymorphic base.  Small, nothrow-movable objects live in
    an inline buffer; the others live on the heap.  The special member
    functions of the erased class are reached through a hand-written table of
    nine function pointers, and the address of that table also encodes the
    storage kind.

    The development follows the header top-down: the storage-kind decision
    ([store_in_heap]), the placement of the static tables ([get_vtable]),
    the abstract machine on which the member functions run, the table entries
    of [local_storage] and [heap_storage], and finally the members of
    [polymorphic_value_impl]. *)

From Stdlib Require Import ZArith Lia.
From stdpp Require Import base decidable gmap strings list.

Local Open Scope Z_scope.

(** ** Concrete classes *)

(** What a special member function of a user class does when it is called:
    it is declared [noexcept] (and so cannot raise), or it is potentially
    throwing and returns normally, or it is potentially throwing and raises. *)
Inductive member_behaviour := Noexcept | Returns | Throws.

#[global] Instance member_behaviour_eq_dec : EqDecision member_behaviour.
Proof. solve_decision. Defined.

(** A concrete class [Derived] as the templates see it: its identity (what
    [typeid] compares), [sizeof], [alignof], its special members, and the
    offset of its [Base] subobject, which is what the conversion from
    [Derived*] to [Base*] adds to the address.  [constructor] stands for the
    constructor selected by in-place arguments.  The classes of the model
    are derived from [Base] and have the special members the nine table
    entries call: [std::is_base_of] holds of them and the initialisers of
    their tables compile. *)
Record class := Class {
  type_name : string;
  sizeof : Z;
  alignof : Z;
  constructor : member_behaviour;
  copy_constructor : member_behaviour;
  move_constructor : member_behaviour;
  copy_assignment : member_behaviour;
  move_assignment : member_behaviour;
  base_offset : Z;
}.

#[global] Instance class_eq_dec : EqDecision class.
Proof. solve_decision. Defined.

(** [std::is_nothrow_move_constructible<std::decay_t<Derived>>::value] *)
Definition is_nothrow_move_constructible (Derived : class) : bool :=
  bool_decide (move_constructor Derived = Noexcept).

(** [store_in_heap<Derived, SboSize, SboAlignment>] *)
Definition store_in_heap (Derived : class) (SboSize SboAlignment : Z) : bool :=
  negb (is_nothrow_move_constructible Derived)
  || (SboSize <? sizeof Derived)
  || (SboAlignment <? alignof Derived).

(** The [polymorphic_value] alias clamps both parameters before they reach
    [polymorphic_value_impl]. *)
Definition polymorphic_value_SboSize (SboSize sizeof_voidp : Z) : Z :=
  Z.max SboSize sizeof_voidp.

Definition polymorphic_value_SboAlignment (SboAlignment alignof_voidp : Z) : Z :=
  Z.max SboAlignment alignof_voidp.

(** ** Build-time checks *)

(** The result of instantiating a template: either the instantiated entity or
    the message of the [static_assert] that rejected it. *)
Inductive instantiation (A : Type) :=
  | Instantiated (a : A)
  | static_assert_failed (msg : string).
Arguments Instantiated {A} a.
Arguments static_assert_failed {A} msg.

Definition static_assert (b : bool) (msg : string) : instantiation unit :=
  if b then Instantiated tt else static_assert_failed msg.

Definition instantiation_bind {A B} (x : instantiation A) (k : A -> instantiation B) : instantiation B :=
  match x with
  | Instantiated a => k a
  | static_assert_failed msg => static_assert_failed msg
  end.

(** ** Objects, storage cells and the machine *)

(** An object of a user class: its dynamic type and its payload (the [value]
    member of the classes in main.cpp). *)
Record object := Object { dyn : class; value : Z }.

(** [sbo_storage]: a union of [void* heap_buffer] and the inline
    [local_buffer].  Which member is live is not recorded in the C++ union;
    the model reads a member that is not the live one as undefined behaviour. *)
Inductive sbo_storage :=
  | uninitialised
  | local_buffer (o : object)
  | heap_buffer (p : Z).

(** The data members of [polymorphic_value_impl]; [m_vtable] is the address
    of a static table. *)
Record polymorphic_value_impl := Container {
  m_storage : sbo_storage;
  m_vtable : Z;
}.

(** What the tests in main.cpp count: calls of the special members of the
    user classes and of the allocation functions. *)
Inductive event :=
  | ev_new
  | ev_delete
  | ev_ctor (Derived : class)
  | ev_copy_ctor (Derived : class)
  | ev_move_ctor (Derived : class)
  | ev_copy_assign (Derived : class)
  | ev_move_assign (Derived : class)
  | ev_dtor (Derived : class).

Inductive exception :=
  | bad_alloc
  | bad_polymorphic_value (what : string)
  | user_exception (Derived : class).

(** The machine: the live containers by address, the objects that live
    outside containers (automatic objects of the caller and heap blocks) by
    address, the allocator (next block and how many allocations still
    succeed) and the trace of events. *)
Record machine := Machine {
  containers : gmap Z polymorphic_value_impl;
  objects : gmap Z object;
  next_block : Z;
  free_store : nat;
  trace : list event;
}.

Definition nullptr : Z := 0.

(** A [void*] argument of a table entry points either at the [m_storage] of
    the container at an address or at an object outside any container. *)
Inductive void_ptr :=
  | storage_of (this : Z)
  | object_at (a : Z).

(** ** The monad of member functions *)

Inductive outcome (A : Type) :=
  | Ok (a : A) (m : machine)
  | Throw (e : exception) (m : machine)
  | Terminate
  | Undefined.
Arguments Ok {A} a m.
Arguments Throw {A} e m.
Arguments Terminate {A}.
Arguments Undefined {A}.

Definition M (A : Type) : Type := machine -> outcome A.

Definition ret {A} (a : A) : M A := fun m => Ok a m.

Definition bind {A B} (f : M A) (k : A -> M B) : M B :=
  fun m =>
    match f m with
    | Ok a m' => k a m'
    | Throw e m' => Throw e m'
    | Terminate => Terminate
    | Undefined => Undefined
    end.

Notation "'let!' x ':=' f 'in' k" := (bind f (fun x => k))
  (at level 10, x name, f at level 200, k at level 200,
   format "'[v' 'let!'  x  ':='  f  'in' '/' k ']'").

Definition throw {A} (e : exception) : M A := fun m => Throw e m.

Definition undefined {A} : M A := fun _ => Undefined.

(** A function declared [noexcept]: an exception that reaches its boundary
    calls [std::terminate]. *)
Definition noexcept {A} (f : M A) : M A :=
  fun m =>
    match f m with
    | Throw _ _ => Terminate
    | r => r
    end.

(** Run [cleanup] while an exception raised by [f] unwinds, then let the
    exception go on. *)
Definition on_unwind {A} (f : M A) (cleanup : M unit) : M A :=
  fun m =>
    match f m with
    | Throw e m' =>
        match cleanup m' with
        | Ok _ m'' => Throw e m''
        | Throw _ _ => Terminate
        | Terminate => Terminate
        | Undefined => Undefined
        end
    | r => r
    end.

(** Updates of one component of the machine. *)
Definition with_containers
    (f : gmap Z polymorphic_value_impl -> gmap Z polymorphic_value_impl)
    (m : machine) : machine :=
  Machine (f (containers m)) (objects m) (next_block m) (free_store m) (trace m).

Definition with_objects (f : gmap Z object -> gmap Z object) (m : machine) : machine :=
  Machine (containers m) (f (objects m)) (next_block m) (free_store m) (trace m).

Definition with_event (e : event) (m : machine) : machine :=
  Machine (containers m) (objects m) (next_block m) (free_store m) (trace m ++ [e]).

Definition log (e : event) : M unit :=
  fun m => Ok tt (with_event e m).

Definition set_containers
    (f : gmap Z polymorphic_value_impl -> gmap Z polymorphic_value_impl) : M unit :=
  fun m => Ok tt (with_containers f m).

Definition set_objects (f : gmap Z object -> gmap Z object) : M unit :=
  fun m => Ok tt (with_objects f m).

(** *** Special members of the user class *)

(** Calling a special member of [Derived]: it raises, or it runs and is
    counted. *)
Definition call (b : member_behaviour) (Derived : class) (e : event) : M unit :=
  match b with
  | Throws => throw (user_exception Derived)
  | _ => log e
  end.

(** [Derived{args...}] for in-place arguments; the argument is the payload,
    which the header only forwards and never computes with. *)
Definition construct (Derived : class) (v : Z) : M object :=
  let! _ := call (constructor Derived) Derived (ev_ctor Derived) in
  ret (Object Derived v).

(** [Derived{src}] *)
Definition copy_construct (Derived : class) (src : object) : M object :=
  let! _ := call (copy_constructor Derived) Derived (ev_copy_ctor Derived) in
  ret (Object Derived (value src)).

(** [Derived{std::move(src)}]; as in main.cpp the source keeps its payload. *)
Definition move_construct (Derived : class) (src : object) : M object :=
  let! _ := call (move_constructor Derived) Derived (ev_move_ctor Derived) in
  ret (Object Derived (value src)).

(** [dst = src] through [Derived::operator=(Derived const&)] *)
Definition assign_copy (Derived : class) (dst src : object) : M object :=
  let! _ := call (copy_assignment Derived) Derived (ev_copy_assign Derived) in
  ret (Object (dyn dst) (value src)).

(** [dst = std::move(src)] through [Derived::operator=(Derived&&)] *)
Definition assign_move (Derived : class) (dst src : object) : M object :=
  let! _ := call (move_assignment Derived) Derived (ev_move_assign Derived) in
  ret (Object (dyn dst) (value src)).

(** *** The free store *)

(** [operator new]: raises [std::bad_alloc] when the free store is used up. *)
Definition operator_new : M Z :=
  fun m =>
    match free_store m with
    | O => Throw bad_alloc m
    | S n => Ok (next_block m)
                (Machine (containers m) (objects m) (next_block m + 1) n
                         (trace m ++ [ev_new]))
    end.

Definition operator_delete (p : Z) : M unit :=
  let! _ := log ev_delete in
  set_objects (delete p).

(** The expression [new Derived{...}]: allocate, run the initialiser, and
    give the block back when the initialiser raises. *)
Definition new_expression (init : M object) : M Z :=
  let! p := operator_new in
  let! o := on_unwind init (operator_delete p) in
  let! _ := set_objects (<[p := o]>) in
  ret p.

(** The pointee of a pointer to [Derived]. *)
Definition deref (p : Z) : M object :=
  fun m =>
    match objects m !! p with
    | Some o => Ok o m
    | None => Undefined
    end.

(** The expression [delete p] for [p] of type [Derived*]: nothing for a null
    pointer, else the destructor and [operator delete]. *)
Definition delete_expression (Derived : class) (p : Z) : M unit :=
  if p =? nullptr then ret tt
  else
    let! _ := deref p in
    let! _ := log (ev_dtor Derived) in
    operator_delete p.

(** *** Access through [void*] *)

Definition load_container (this : Z) : M polymorphic_value_impl :=
  fun m =>
    match containers m !! this with
    | Some c => Ok c m
    | None => Undefined
    end.

Definition load_storage (ptr : void_ptr) : M sbo_storage :=
  match ptr with
  | storage_of this => let! c := load_container this in ret (m_storage c)
  | object_at _ => undefined
  end.

Definition store_storage (ptr : void_ptr) (s : sbo_storage) : M unit :=
  match ptr with
  | storage_of this =>
      let! c := load_container this in
      set_containers (<[this := Container s (m_vtable c)]>)
  | object_at _ => undefined
  end.

(** [*static_cast<Derived*>(ptr)] *)
Definition load_object (ptr : void_ptr) : M object :=
  match ptr with
  | storage_of this =>
      let! s := load_storage ptr in
      match s with
      | local_buffer o => ret o
      | _ => undefined
      end
  | object_at a => deref a
  end.

(** Write the object [ptr] points at. *)
Definition store_object (ptr : void_ptr) (o : object) : M unit :=
  match ptr with
  | storage_of this => store_storage ptr (local_buffer o)
  | object_at a => set_objects (<[a := o]>)
  end.

(** [*static_cast<Derived**>(ptr)] *)
Definition load_pointer (ptr : void_ptr) : M Z :=
  let! s := load_storage ptr in
  match s with
  | heap_buffer p => ret p
  | _ => undefined
  end.

(** ** The table entries *)

(** namespace [local_storage] *)
Module local_storage.

Definition destroy (Derived : class) (ptr : void_ptr) : M unit :=
  let! _ := load_object ptr in
  let! _ := log (ev_dtor Derived) in
  store_storage ptr uninitialised.

Definition copy (Derived : class) (src dst : void_ptr) : M unit :=
  let! s := load_object src in
  let! o := copy_construct Derived s in
  store_storage dst (local_buffer o).

Definition move (Derived : class) (src dst : void_ptr) : M unit :=
  noexcept (
    let! s := load_object src in
    let! o := move_construct Derived s in
    store_storage dst (local_buffer o)).

Definition copy_assign (Derived : class) (src dst : void_ptr) : M unit :=
  let! s := load_object src in
  let! d := load_object dst in
  let! o := assign_copy Derived d s in
  store_object dst o.

Definition move_assign (Derived : class) (src dst : void_ptr) : M unit :=
  noexcept (
    let! s := load_object src in
    let! d := load_object dst in
    let! o := assign_move Derived d s in
    store_object dst o).

End local_storage.

(** namespace [heap_storage] *)
Module heap_storage.

Definition destroy (Derived : class) (ptr : void_ptr) : M unit :=
  let! p := load_pointer ptr in
  delete_expression Derived p.

Definition copy (Derived : class) (src dst : void_ptr) : M unit :=
  let! q := load_pointer src in
  let! p := new_expression (let! s := deref q in copy_construct Derived s) in
  store_storage dst (heap_buffer p).

Definition copy_raw (Derived : class) (src dst : void_ptr) : M unit :=
  let! p := new_expression (let! s := load_object src in copy_construct Derived s) in
  store_storage dst (heap_buffer p).

Definition move (src dst : void_ptr) : M unit :=
  noexcept (
    let! q := load_pointer src in
    let! _ := store_storage dst (heap_buffer q) in
    store_storage src (heap_buffer nullptr)).

Definition move_raw (Derived : class) (src dst : void_ptr) : M unit :=
  noexcept (
    let! p := new_expression (let! s := load_object src in move_construct Derived s) in
    store_storage dst (heap_buffer p)).

Definition copy_assign (Derived : class) (src dst : void_ptr) : M unit :=
  let! q := load_pointer src in
  let! s := deref q in
  let! p := load_pointer dst in
  let! d := deref p in
  let! o := assign_copy Derived d s in
  set_objects (<[p := o]>).

Definition copy_assign_raw (Derived : class) (src dst : void_ptr) : M unit :=
  let! s := load_object src in
  let! p := load_pointer dst in
  let! d := deref p in
  let! o := assign_copy Derived d s in
  set_objects (<[p := o]>).

Definition move_assign (src dst : void_ptr) : M unit :=
  noexcept (
    let! q := load_pointer src in
    let! p := load_pointer dst in
    let! _ := store_storage src (heap_buffer p) in
    store_storage dst (heap_buffer q)).

Definition move_assign_raw (Derived : class) (src dst : void_ptr) : M unit :=
  noexcept (
    let! s := load_object src in
    let! p := load_pointer dst in
    let! d := deref p in
    let! o := assign_move Derived d s in
    set_objects (<[p := o]>)).

End heap_storage.

(** [polymorphic_value_vtable] *)
Record polymorphic_value_vtable := Vtable {
  destroy : void_ptr -> M unit;
  copy : void_ptr -> void_ptr -> M unit;
  copy_raw : void_ptr -> void_ptr -> M unit;
  move : void_ptr -> void_ptr -> M unit;
  move_raw : void_ptr -> void_ptr -> M unit;
  copy_assign : void_ptr -> void_ptr -> M unit;
  copy_assign_raw : void_ptr -> void_ptr -> M unit;
  move_assign : void_ptr -> void_ptr -> M unit;
  move_assign_raw : void_ptr -> void_ptr -> M unit;
}.

(** The initialiser of [static_vtable] in [get_vtable<Derived, Storage, false>]. *)
Definition local_vtable (Derived : class) : polymorphic_value_vtable := {|
  destroy := local_storage.destroy Derived;
  copy := local_storage.copy Derived;
  copy_raw := local_storage.copy Derived;
  move := local_storage.move Derived;
  move_raw := local_storage.move Derived;
  copy_assign := local_storage.copy_assign Derived;
  copy_assign_raw := local_storage.copy_assign Derived;
  move_assign := local_storage.move_assign Derived;
  move_assign_raw := local_storage.move_assign Derived;
|}.

(** The initialiser of [static_vtable.vtable] in [get_vtable<Derived, Storage, true>]. *)
Definition heap_vtable (Derived : class) : polymorphic_value_vtable := {|
  destroy := heap_storage.destroy Derived;
  copy := heap_storage.copy Derived;
  copy_raw := heap_storage.copy_raw Derived;
  move := heap_storage.move;
  move_raw := heap_storage.move_raw Derived;
  copy_assign := heap_storage.copy_assign Derived;
  copy_assign_raw := heap_storage.copy_assign_raw Derived;
  move_assign := heap_storage.move_assign;
  move_assign_raw := heap_storage.move_assign_raw Derived;
|}.

(** An outcome that neither raises nor terminates. *)
Definition quiet {A} (r : outcome A) : Prop :=
  match r with
  | Ok _ _ | Undefined => True
  | Throw _ _ | Terminate => False
  end.

(** ** Programs *)

(** What the members of [polymorphic_value_impl] depend on besides their
    arguments: the target ([alignof(void* )], [sizeof(void* )] and the
    alignment of [polymorphic_value_vtable], a struct of nine function
    pointers), the template parameters of [polymorphic_value_impl], whether
    the translation unit has [__cpp_rtti], the classes for which the program
    instantiates [get_vtable], and the address the implementation gives to the
    function-local static [static_vtable] of each [get_vtable<Derived,
    storage_t>::get]. *)
Record program := Program {
  target_alignof_voidp : Z;
  target_sizeof_voidp : Z;
  target_alignof_vtable : Z;
  param_AllowAllocations : bool;
  param_SboSize : Z;
  param_SboAlignment : Z;
  macro_RTTI_SUPPORTED : bool;
  image_linked : list class;
  image_static_vtable : class -> Z;
}.

(** ** The classes of main.cpp, and two more, on a 64-bit target *)

(** The classes of main.cpp derive from [Base] alone, so their [Base]
    subobject lies at offset 0. *)
Module main_cpp.

(** [DerivedSpecialFunctions<1>]: a vtable pointer, an [int] and one [char]. *)
Definition DerivedSmallSpecialFunctions : class :=
  Class "DerivedSpecialFunctions<1>" 16 8 Noexcept Noexcept Noexcept Noexcept Noexcept 0.

(** [DerivedSpecialFunctions<sizeof(void* ) * 4>] *)
Definition DerivedBigSpecialFunctions : class :=
  Class "DerivedSpecialFunctions<32>" 48 8 Noexcept Noexcept Noexcept Noexcept Noexcept 0.

(** A small class whose move assignment operator raises; its move
    constructor is [noexcept]. *)
Definition ThrowingMoveAssignment : class :=
  Class "ThrowingMoveAssignment" 16 8 Noexcept Noexcept Noexcept Noexcept Throws 0.

(** A class derived from [DerivedSmallSpecialFunctions]. *)
Definition FurtherDerived : class :=
  Class "FurtherDerived" 24 8 Noexcept Noexcept Noexcept Noexcept Noexcept 0.

Definition linked : list class :=
  [DerivedSmallSpecialFunctions; DerivedBigSpecialFunctions; ThrowingMoveAssignment].

(** Where a linker may put the static tables: 16-byte aligned, 128 bytes
    apart. *)
Definition static_vtable (Derived : class) : Z :=
  if decide (Derived = DerivedSmallSpecialFunctions) then 4096
  else if decide (Derived = DerivedBigSpecialFunctions) then 4224
  else if decide (Derived = ThrowingMoveAssignment) then 4352
  else 8192.

(** [polymorphic_value<Base>] with its default parameters, compiled with
    run-time type identity; [polymorphic_value<Base, false>] likewise. *)
Definition default_program : program :=
  Program 8 8 8 true (polymorphic_value_SboSize (8 * 3) 8)
          (polymorphic_value_SboAlignment 8 8) true linked static_vtable.

Definition no_allocations_program : program :=
  Program 8 8 8 false (polymorphic_value_SboSize (8 * 3) 8)
          (polymorphic_value_SboAlignment 8 8) true linked static_vtable.

(** No container, no object, blocks from address 1000 on. *)
Definition start : machine := Machine ∅ ∅ 1000 8 [].

(** A container at address 1 holding a big object, in the heap block 1000. *)
Definition big_container : machine :=
  Machine {[1 := Container (heap_buffer 1000) 4232]}
          {[1000 := Object DerivedBigSpecialFunctions 7]} 1001 5 [].

(** The same after [polymorphic_value<Base> poly2{std::move(poly1)}], with
    [poly2] at address 2. *)
Definition big_container_moved : machine :=
  Machine (<[1 := Container (heap_buffer 0) 4232]>
             {[2 := Container (heap_buffer 1000) 4232]})
          {[1000 := Object DerivedBigSpecialFunctions 7]} 1001 5 [].


(** A container holding a small object, a big object of the caller at
    address 500, and a free store that is used up. *)
Definition small_container_big_value : machine :=
  Machine {[1 := Container (local_buffer (Object DerivedSmallSpecialFunctions 4)) 4096]}
          {[500 := Object DerivedBigSpecialFunctions 35]} 1000 0 [].

(** A container holding a small object and an object of the caller whose
    dynamic class is further derived. *)
Definition small_container_further_derived_value : machine :=
  Machine {[1 := Container (local_buffer (Object DerivedSmallSpecialFunctions 4)) 4096]}
          {[500 := Object FurtherDerived 9]} 1000 5 [].

(** The same when the free store is used up. *)
Definition further_derived_value_no_free_store : machine :=
  Machine {[1 := Container (local_buffer (Object DerivedSmallSpecialFunctions 4)) 4096]}
          {[500 := Object FurtherDerived 9]} 1000 0 [].

(** Two containers holding objects of the class whose move assignment
    raises. *)
Definition two_throwing_containers : machine :=
  Machine (<[1 := Container (local_buffer (Object ThrowingMoveAssignment 1)) 4352]>
             {[2 := Container (local_buffer (Object ThrowingMoveAssignment 2)) 4352]})
          ∅ 1000 5 [].

End main_cpp.

(** ** Further programs and machines *)

Module scenarios.

(** The translation unit of main.cpp compiled without run-time type
    identity. *)
Definition no_rtti_program : program :=
  Program 8 8 8 true (polymorphic_value_SboSize (8 * 3) 8)
          (polymorphic_value_SboAlignment 8 8) false
          main_cpp.linked main_cpp.static_vtable.

(** A program all of whose classes are stored inline. *)
Definition inline_program : program :=
  Program 8 8 8 true (polymorphic_value_SboSize (8 * 3) 8)
          (polymorphic_value_SboAlignment 8 8) true
          [main_cpp.DerivedSmallSpecialFunctions; main_cpp.ThrowingMoveAssignment]
          main_cpp.static_vtable.

(** A target whose pointers are four bytes wide and aligned to two, as on
    the m68k, and [DerivedSpecialFunctions<sizeof(void* ) * 4>] there. *)
Definition DerivedBig_m68k : class :=
  Class "DerivedSpecialFunctions<16>" 24 2 Noexcept Noexcept Noexcept Noexcept Noexcept 0.

Definition m68k_program : program :=
  Program 2 4 2 true (polymorphic_value_SboSize (4 * 3) 4)
          (polymorphic_value_SboAlignment 2 2) true
          [DerivedBig_m68k] (fun _ => 4096).

(** The program of the tests of main.cpp proper: the two instances of
    [DerivedSpecialFunctions]. *)
Definition tested_program : program :=
  Program 8 8 8 true (polymorphic_value_SboSize (8 * 3) 8)
          (polymorphic_value_SboAlignment 8 8) true
          [main_cpp.DerivedSmallSpecialFunctions; main_cpp.DerivedBigSpecialFunctions]
          main_cpp.static_vtable.

(** [DerivedSmall] of main.cpp: nothing but the vtable pointer. *)
Definition DerivedSmall : class :=
  Class "DerivedSmall" 8 8 Noexcept Noexcept Noexcept Noexcept Noexcept 0.

(** A big class whose constructor raises. *)
Definition ThrowingConstructor : class :=
  Class "ThrowingConstructor" 48 8 Throws Returns Noexcept Returns Noexcept 0.

(** [struct SecondBase : Other, Base] for a polymorphic [Other]: a class
    that fits the inline buffer and whose [Base] subobject follows that of
    [Other], eight bytes into the object. *)
Definition SecondBase : class :=
  Class "SecondBase" 24 8 Noexcept Noexcept Noexcept Noexcept Noexcept 8.

(** A program that stores objects of [SecondBase], and a container holding
    one. *)
Definition second_base_program : program :=
  Program 8 8 8 true (polymorphic_value_SboSize (8 * 3) 8)
          (polymorphic_value_SboAlignment 8 8) true
          [SecondBase] main_cpp.static_vtable.

Definition second_base_container : machine :=
  Machine {[1 := Container (local_buffer (Object SecondBase 3)) 8192]}
          ∅ 1000 5 [].

(** A container at address 1 holding a small object and a container at
    address 2 holding a big one, in the heap block 1000. *)
Definition small_and_big_containers : machine :=
  Machine (<[1 := Container (local_buffer
                               (Object main_cpp.DerivedSmallSpecialFunctions 4)) 4096]>
             {[2 := Container (heap_buffer 1000) 4232]})
          {[1000 := Object main_cpp.DerivedBigSpecialFunctions 35]} 1001 5 [].

(** Two containers holding small objects. *)
Definition two_small_containers : machine :=
  Machine (<[1 := Container (local_buffer
                               (Object main_cpp.DerivedSmallSpecialFunctions 1)) 4096]>
             {[2 := Container (local_buffer
                                 (Object main_cpp.DerivedSmallSpecialFunctions 2)) 4096]})
          ∅ 1000 5 [].


(** [small_and_big_containers] after the first container was assigned the
    second by copy. *)
Definition small_and_big_after_copy : machine :=
  Machine (<[1 := Container (heap_buffer 1001) 4232]>
             {[2 := Container (heap_buffer 1000) 4232]})
          (<[1000 := Object main_cpp.DerivedBigSpecialFunctions 35]>
             {[1001 := Object main_cpp.DerivedBigSpecialFunctions 35]})
          1002 4
          [ev_dtor main_cpp.DerivedSmallSpecialFunctions; ev_new;
           ev_copy_ctor main_cpp.DerivedBigSpecialFunctions].

(** [main_cpp.small_container_big_value] after the copy assignment of the
    big value failed to allocate. *)
Definition small_container_destroyed : machine :=
  Machine {[1 := Container uninitialised 4232]}
          {[500 := Object main_cpp.DerivedBigSpecialFunctions 35]} 1000 0
          [ev_dtor main_cpp.DerivedSmallSpecialFunctions].

(** [main_cpp.start] after a big object was constructed in place at address
    1 and the container moved to address 2. *)
Definition big_constructed_and_moved : machine :=
  Machine (<[1 := Container (heap_buffer 0) 4232]>
             {[2 := Container (heap_buffer 1000) 4232]})
          {[1000 := Object main_cpp.DerivedBigSpecialFunctions 7]} 1001 7
          [ev_new; ev_ctor main_cpp.DerivedBigSpecialFunctions].

(** The same with the container copied instead. *)
Definition big_constructed_and_copied : machine :=
  Machine (<[1 := Container (heap_buffer 1000) 4232]>
             {[2 := Container (heap_buffer 1001) 4232]})
          (<[1000 := Object main_cpp.DerivedBigSpecialFunctions 7]>
             {[1001 := Object main_cpp.DerivedBigSpecialFunctions 7]})
          1002 6
          [ev_new; ev_ctor main_cpp.DerivedBigSpecialFunctions;
           ev_new; ev_copy_ctor main_cpp.DerivedBigSpecialFunctions].

(** [main_cpp.start] after a small object was constructed in place at
    address 1 and the container moved to address 2. *)
Definition small_constructed_and_moved : machine :=
  Machine (<[1 := Container (local_buffer
                               (Object main_cpp.DerivedSmallSpecialFunctions 7)) 4096]>
             {[2 := Container (local_buffer
                                 (Object main_cpp.DerivedSmallSpecialFunctions 7)) 4096]})
          ∅ 1000 8
          [ev_ctor main_cpp.DerivedSmallSpecialFunctions;
           ev_move_ctor main_cpp.DerivedSmallSpecialFunctions].

End scenarios.

(** ** Placement of the operation tables *)

Section polymorphic_value.

(** The program under consideration. *)
Variable prog : program.

Local Abbreviation alignof_voidp := (target_alignof_voidp prog).
Local Abbreviation sizeof_voidp := (target_sizeof_voidp prog).
Local Abbreviation alignof_vtable := (target_alignof_vtable prog).
Local Abbreviation AllowAllocations := (param_AllowAllocations prog).
Local Abbreviation SboSize := (param_SboSize prog).
Local Abbreviation SboAlignment := (param_SboAlignment prog).
Local Abbreviation POLYMORPHIC_VALUE_RTTI_SUPPORTED := (macro_RTTI_SUPPORTED prog).
Local Abbreviation linked := (image_linked prog).
Local Abbreviation static_vtable := (image_static_vtable prog).

(** Offset of the second member of a struct whose first member ends at
    [end_of_first]: the next multiple of the member's alignment. *)
Definition member_offset (end_of_first align : Z) : Z :=
  ((end_of_first + align - 1) / align) * align.

(** [offsetof(odd_aligned_vtable, vtable)]: [vtable] follows the [void* dummy]. *)
Definition offsetof_odd_aligned_vtable_vtable : Z :=
  member_offset sizeof_voidp alignof_vtable.

Definition in_heap (Derived : class) : bool :=
  store_in_heap Derived SboSize SboAlignment.

(** The pointer [get] returns: [&static_vtable] for the local table,
    [&static_vtable.vtable] for the heap one. *)
Definition vtable_address (Derived : class) : Z :=
  if in_heap Derived
  then static_vtable Derived + offsetof_odd_aligned_vtable_vtable
  else static_vtable Derived.

(** [get_vtable<Derived, Storage>::get], with the [static_assert] of the
    heap specialisation. *)
Definition get_vtable (Derived : class) : instantiation Z :=
  if in_heap Derived
  then instantiation_bind
         (static_assert (offsetof_odd_aligned_vtable_vtable =? alignof_voidp)
                        "Bug: misaligned vtable")
         (fun _ => Instantiated (vtable_address Derived))
  else Instantiated (vtable_address Derived).

(** [polymorphic_value_impl::storage_is_local] on the value of [m_vtable]. *)
Definition storage_is_local (m_vtable : Z) : bool :=
  m_vtable mod (alignof_voidp * 2) =? 0.

(** ** [sbo_storage::build] *)

(** [build<Derived>(args...)] on the storage [storage] points at; [init]
    is the initialiser [Derived{args...}].  The conditional [noexcept] of
    the C++ member is true only when nothing in the body can raise. *)
Definition build (Derived : class) (init : M object) (storage : void_ptr) : M unit :=
  if in_heap Derived then
    let! p := new_expression init in
    store_storage storage (heap_buffer p)
  else
    let! o := init in
    store_storage storage (local_buffer o).

(** ** Dispatch through [m_vtable] *)

Definition table_of (Derived : class) : polymorphic_value_vtable :=
  if in_heap Derived then heap_vtable Derived else local_vtable Derived.

(** Reading the table at an address: the table of the linked class whose
    [get] returns that address. *)
Definition load_vtable (a : Z) : M polymorphic_value_vtable :=
  match find (fun Derived => vtable_address Derived =? a) linked with
  | Some Derived => ret (table_of Derived)
  | None => undefined
  end.

(** [m_vtable->] inside a member of the container at [this]. *)
Definition dispatch (this : Z) : M polymorphic_value_vtable :=
  let! c := load_container this in
  load_vtable (m_vtable c).

(** [m_vtable = a] *)
Definition store_vtable (this a : Z) : M unit :=
  let! c := load_container this in
  set_containers (<[this := Container (m_storage c) a]>).

(** The container at [this] comes to life with its members uninitialised
    except for [m_vtable]; constructing over a live container is undefined. *)
Definition begin_lifetime (this a : Z) : M unit :=
  fun m =>
    match containers m !! this with
    | Some _ => Undefined
    | None => set_containers (<[this := Container uninitialised a]>) m
    end.

Definition end_lifetime (this : Z) : M unit :=
  set_containers (delete this).

(** ** Members of [polymorphic_value_impl] *)

(** Whether [Derived&&] was deduced from an lvalue or an rvalue argument. *)
Inductive value_category := lvalue | rvalue.

(** [Derived{std::forward<Derived>(d)}] *)
Definition forward_construct (Derived : class) (cat : value_category) (d : object) : M object :=
  match cat with
  | lvalue => copy_construct Derived d
  | rvalue => move_construct Derived d
  end.

(** [throw bad_polymorphic_value{what}]: the exception is a
    [std::logic_error], whose constructor copies the message into storage
    it takes from [operator new], so building the exception is an allocation
    and raises [std::bad_alloc] instead when that fails.  The block belongs
    to the exception object, is no object of a user class, and is given
    back when the handler is done with the exception. *)
Definition throw_bad_polymorphic_value {A} (what : string) : M A :=
  let! _ := operator_new in
  throw (bad_polymorphic_value what).

(** The slicing check [typeid(std::decay_t<Derived>) != typeid(d)]. *)
Definition check_typeid (Derived : class) (d : Z) : M unit :=
  if POLYMORPHIC_VALUE_RTTI_SUPPORTED then
    let! o := deref d in
    if bool_decide (Derived <> dyn o)
    then throw_bad_polymorphic_value "Value would slice"
    else ret tt
  else ret tt.

(** How a value that fails the slicing check is turned away on the machine
    [m]: with [bad_polymorphic_value] and its message, one block of the free
    store taken for the message and nothing else changed; or, when the free
    store has no block left, with [std::bad_alloc] and nothing changed. *)
Definition rejected (m : machine) (r : outcome unit) : Prop :=
  match free_store m with
  | O => r = Throw bad_alloc m
  | S n =>
      r = Throw (bad_polymorphic_value "Value would slice")
                (Machine (containers m) (objects m) (next_block m + 1) n
                         (trace m ++ [ev_new]))
  end.

(** [polymorphic_value_impl(Derived&& d)] *)
Definition polymorphic_value_impl_value (Derived : class) (cat : value_category)
    (this d : Z) : M unit :=
  let! _ := check_typeid Derived d in
  let! _ := begin_lifetime this (vtable_address Derived) in
  on_unwind
    (build Derived (let! o := deref d in forward_construct Derived cat o)
           (storage_of this))
    (end_lifetime this).

(** [polymorphic_value_impl(in_place_type_t<Derived>, Args&&... args)] *)
Definition polymorphic_value_impl_in_place (Derived : class) (this args : Z) : M unit :=
  let! _ := begin_lifetime this (vtable_address Derived) in
  on_unwind
    (build Derived (construct Derived args) (storage_of this))
    (end_lifetime this).

(** [polymorphic_value_impl(polymorphic_value_impl const& src)] *)
Definition polymorphic_value_impl_copy (this src : Z) : M unit :=
  let! s := load_container src in
  let! _ := begin_lifetime this (m_vtable s) in
  on_unwind
    (let! vt := dispatch this in
     copy vt (storage_of src) (storage_of this))
    (end_lifetime this).

(** [polymorphic_value_impl(polymorphic_value_impl&& src) noexcept] *)
Definition polymorphic_value_impl_move (this src : Z) : M unit :=
  noexcept (
    let! s := load_container src in
    let! _ := begin_lifetime this (m_vtable s) in
    let! vt := dispatch this in
    move vt (storage_of src) (storage_of this)).

(** [operator=(polymorphic_value_impl const& src)] *)
Definition operator_assign_copy (this src : Z) : M unit :=
  if src =? this then ret tt
  else
    let! c := load_container this in
    let! s := load_container src in
    if m_vtable c =? m_vtable s then
      let! vt := dispatch this in
      copy_assign vt (storage_of src) (storage_of this)
    else
      let! vt := dispatch this in
      let! _ := destroy vt (storage_of this) in
      let! _ := store_vtable this (m_vtable s) in
      let! vt := dispatch this in
      copy vt (storage_of src) (storage_of this).

(** [operator=(polymorphic_value_impl&& src) noexcept] *)
Definition operator_assign_move (this src : Z) : M unit :=
  noexcept (
    if src =? this then ret tt
    else
      let! c := load_container this in
      let! s := load_container src in
      if m_vtable c =? m_vtable s then
        let! vt := dispatch this in
        move_assign vt (storage_of src) (storage_of this)
      else
        let! vt := dispatch this in
        let! _ := destroy vt (storage_of this) in
        let! _ := store_vtable this (m_vtable s) in
        let! vt := dispatch this in
        move vt (storage_of src) (storage_of this)).

(** [operator=(Derived const& src)] *)
Definition operator_assign_value_copy (Derived : class) (this src : Z) : M unit :=
  let! _ := check_typeid Derived src in
  let new_vtable := vtable_address Derived in
  let! c := load_container this in
  if m_vtable c =? new_vtable then
    let! vt := dispatch this in
    copy_assign_raw vt (object_at src) (storage_of this)
  else
    let! vt := dispatch this in
    let! _ := destroy vt (storage_of this) in
    let! _ := store_vtable this new_vtable in
    let! vt := dispatch this in
    copy_raw vt (object_at src) (storage_of this).

(** [operator=(Derived&& src)] *)
Definition operator_assign_value_move (Derived : class) (this src : Z) : M unit :=
  let! _ := check_typeid Derived src in
  let new_vtable := vtable_address Derived in
  let! c := load_container this in
  if m_vtable c =? new_vtable then
    let! vt := dispatch this in
    move_assign_raw vt (object_at src) (storage_of this)
  else
    let! vt := dispatch this in
    let! _ := destroy vt (storage_of this) in
    let! _ := store_vtable this new_vtable in
    let! vt := dispatch this in
    move_raw vt (object_at src) (storage_of this).

(** [emplace<Derived>(Args&&... args)] *)
Definition emplace (Derived : class) (this args : Z) : M unit :=
  let! vt := dispatch this in
  let! _ := destroy vt (storage_of this) in
  let! _ := store_vtable this (vtable_address Derived) in
  build Derived (construct Derived args) (storage_of this).

(** [~polymorphic_value_impl()] *)
Definition destructor (this : Z) : M unit :=
  let! vt := dispatch this in
  let! _ := destroy vt (storage_of this) in
  end_lifetime this.

(** [get()]: the address of the inline buffer, or the stored pointer,
    converted to [Base*].  Both are addresses of the [Derived] object, and
    neither [reinterpret_cast<Base*>] nor [static_cast<Base*>] from [void*]
    adjusts them to the [Base] subobject: the result is the address of the
    object itself. *)
Definition get (this : Z) : M void_ptr :=
  let! c := load_container this in
  if storage_is_local (m_vtable c) then ret (storage_of this)
  else
    let! p := load_pointer (storage_of this) in
    ret (object_at p).

(** [*p] for the [Base*] that [get] returned: there is a [Base] subobject at
    the address of the object only when the class of the object has it at
    offset 0; using the pointer is undefined otherwise. *)
Definition load_base (p : void_ptr) : M object :=
  let! o := load_object p in
  if base_offset (dyn o) =? 0 then ret o else undefined.

(** [operator*()] *)
Definition operator_star (this : Z) : M object :=
  let! p := get this in
  load_base p.

(** ** Instantiation of the member templates *)

(** [static_assert(AllowAllocations || !store_in_heap<Derived, ...>, ...)] *)
Definition allocations_allowed (Derived : class) : instantiation unit :=
  static_assert (AllowAllocations || negb (in_heap Derived))
                "Allocations are not allowed".

(** A member template instantiated for [Derived]: its own [static_assert]
    and the instantiation of [get_vtable<Derived, storage_t>::get].  For
    the classes of the model, which derive from [Base] and have every
    special member the table entries call, the [std::enable_if_t] conditions
    hold and the initialisers of the tables compile, so that these two
    assertions are all that can reject the instantiation. *)
Definition instantiate {A} (Derived : class) (member : A) : instantiation A :=
  instantiation_bind (allocations_allowed Derived) (fun _ =>
  instantiation_bind (get_vtable Derived) (fun _ =>
  Instantiated member)).

(** The statements a client can write on containers. *)
Inductive statement :=
  | construct_value (Derived : class) (cat : value_category) (this d : Z)
  | construct_in_place (Derived : class) (this args : Z)
  | construct_copy (this src : Z)
  | construct_move (this src : Z)
  | assign_copy_from (this src : Z)
  | assign_move_from (this src : Z)
  | assign_value (Derived : class) (cat : value_category) (this d : Z)
  | emplace_with (Derived : class) (this args : Z)
  | destruct (this : Z).

(** What a statement compiles to. *)
Definition compile (st : statement) : instantiation (M unit) :=
  match st with
  | construct_value Derived cat this d =>
      instantiate Derived (polymorphic_value_impl_value Derived cat this d)
  | construct_in_place Derived this args =>
      instantiate Derived (polymorphic_value_impl_in_place Derived this args)
  | construct_copy this src => Instantiated (polymorphic_value_impl_copy this src)
  | construct_move this src => Instantiated (polymorphic_value_impl_move this src)
  | assign_copy_from this src => Instantiated (operator_assign_copy this src)
  | assign_move_from this src => Instantiated (operator_assign_move this src)
  | assign_value Derived lvalue this d =>
      instantiate Derived (operator_assign_value_copy Derived this d)
  | assign_value Derived rvalue this d =>
      instantiate Derived (operator_assign_value_move Derived this d)
  | emplace_with Derived this args =>
      instantiate Derived (emplace Derived this args)
  | destruct this => Instantiated (destructor this)
  end.

(** ** The four assignment operators, side by side *)

Inductive assignment :=
  | assign_container_copy
  | assign_container_move
  | assign_raw_copy
  | assign_raw_move.

(** The operator; [Incoming] is the template argument of the two operators
    that take a value. *)
Definition run_assignment (a : assignment) (Incoming : class) (this src : Z) : M unit :=
  match a with
  | assign_container_copy => operator_assign_copy this src
  | assign_container_move => operator_assign_move this src
  | assign_raw_copy => operator_assign_value_copy Incoming this src
  | assign_raw_move => operator_assign_value_move Incoming this src
  end.

(** The source argument the operator passes to the table entries. *)
Definition source_of (a : assignment) (src : Z) : void_ptr :=
  match a with
  | assign_container_copy | assign_container_move => storage_of src
  | assign_raw_copy | assign_raw_move => object_at src
  end.

(** The entry that assigns into a cell holding an object. *)
Definition assign_entry (a : assignment) (vt : polymorphic_value_vtable) :
    void_ptr -> void_ptr -> M unit :=
  match a with
  | assign_container_copy => copy_assign vt
  | assign_container_move => move_assign vt
  | assign_raw_copy => copy_assign_raw vt
  | assign_raw_move => move_assign_raw vt
  end.

(** The entry that builds into an empty cell. *)
Definition build_entry (a : assignment) (vt : polymorphic_value_vtable) :
    void_ptr -> void_ptr -> M unit :=
  match a with
  | assign_container_copy => copy vt
  | assign_container_move => move vt
  | assign_raw_copy => copy_raw vt
  | assign_raw_move => move_raw vt
  end.

(** The exception specification of the operator. *)
Definition operator_noexcept (a : assignment) (f : M unit) : M unit :=
  match a with
  | assign_container_move => noexcept f
  | _ => f
  end.

(** The operand is fit for the operator: another live container whose table
    is that of [Incoming], or a value that passes the slicing check. *)
Definition incoming (a : assignment) (Incoming : class) (this src : Z) (m : machine) : Prop :=
  match a with
  | assign_container_copy | assign_container_move =>
      src <> this /\
      exists s, containers m !! src = Some s /\ m_vtable s = vtable_address Incoming
  | assign_raw_copy | assign_raw_move =>
      check_typeid Incoming src m = Ok tt m
  end.

(** The events of destroying the object a container of [Derived] holds. *)
Definition destroy_trace (Derived : class) : list event :=
  ev_dtor Derived :: if in_heap Derived then [ev_delete] else [].

(** ** Programs without allocation *)

(** Every live container holds its object inline. *)
Definition all_inline (m : machine) : Prop :=
  forall this c, containers m !! this = Some c ->
    exists Derived o,
      Derived ∈ linked /\ in_heap Derived = false /\
      m_vtable c = vtable_address Derived /\ m_storage c = local_buffer o.

(** No block was allocated or freed. *)
Definition allocator_untouched (m m' : machine) : Prop :=
  objects m' = objects m /\ next_block m' = next_block m /\
  free_store m' = free_store m.

(** A step that, in a container at [this] whose table is that of [Derived],
    leaves an inline object and touches nothing else. *)
Definition builds_inline (this : Z) (Derived : class) (builder : M unit) : Prop :=
  forall m c m',
    containers m !! this = Some c -> m_vtable c = vtable_address Derived ->
    builder m = Ok tt m' ->
    allocator_untouched m m' /\
    exists o, containers m' =
      <[this := Container (local_buffer o) (vtable_address Derived)]> (containers m).

(** ** Well-formed containers *)

(** The container [c] holds exactly one live object of class [Derived], in
    the storage kind decided for [Derived], and [m_vtable] is the table of
    [Derived]. *)
Definition holds (m : machine) (c : polymorphic_value_impl) (Derived : class) : Prop :=
  Derived ∈ linked /\ m_vtable c = vtable_address Derived /\
  match m_storage c with
  | uninitialised => False
  | local_buffer o => in_heap Derived = false /\ dyn o = Derived
  | heap_buffer p =>
      in_heap Derived = true /\ p <> nullptr /\
      exists o, objects m !! p = Some o /\ dyn o = Derived
  end.

(** The state [heap_storage::move] leaves its source in: the table of a
    heap-stored class and a null pointer. *)
Definition moved_from (c : polymorphic_value_impl) (Derived : class) : Prop :=
  Derived ∈ linked /\ m_vtable c = vtable_address Derived /\
  in_heap Derived = true /\ m_storage c = heap_buffer nullptr.

(** Every live container holds a valid object that its table matches. *)
Definition never_empty (m : machine) : Prop :=
  forall this c, containers m !! this = Some c -> exists Derived, holds m c Derived.

(** The invariant of the machine.  Every live container holds an object, or
    was moved from and is one of the containers [N] allows to be; no two
    containers own the same block; the allocator hands out blocks beyond
    every object. *)
Record invariant (N : Z -> Prop) (m : machine) : Prop := Invariant {
  inv_containers : forall this c,
    containers m !! this = Some c ->
    exists Derived, holds m c Derived \/ (moved_from c Derived /\ N this);
  inv_owned : forall this1 this2 c1 c2 p,
    containers m !! this1 = Some c1 -> containers m !! this2 = Some c2 ->
    m_storage c1 = heap_buffer p -> m_storage c2 = heap_buffer p ->
    p <> nullptr -> this1 = this2;
  inv_objects : forall p, is_Some (objects m !! p) -> 0 < p < next_block m;
  inv_next_block : 0 < next_block m;
}.

(** The invariant while a member function works on the container at [this]:
    nothing is asked of that container. *)
Record invariant_except (this : Z) (N : Z -> Prop) (m : machine) : Prop := InvariantExcept {
  exc_containers : forall l c,
    l <> this -> containers m !! l = Some c ->
    exists Derived, holds m c Derived \/ (moved_from c Derived /\ N l);
  exc_owned : forall l1 l2 c1 c2 p,
    l1 <> this -> l2 <> this ->
    containers m !! l1 = Some c1 -> containers m !! l2 = Some c2 ->
    m_storage c1 = heap_buffer p -> m_storage c2 = heap_buffer p ->
    p <> nullptr -> l1 = l2;
  exc_objects : forall p, is_Some (objects m !! p) -> 0 < p < next_block m;
  exc_next_block : 0 < next_block m;
}.

(** The block of the container at [this], if it has one, belongs to no other
    container. *)
Definition sole_owner (this : Z) (m : machine) : Prop :=
  forall c p l c2,
    containers m !! this = Some c -> m_storage c = heap_buffer p -> p <> nullptr ->
    l <> this -> containers m !! l = Some c2 -> m_storage c2 <> heap_buffer p.

(** The containers that may be in the moved-from state after a move from
    [src] to [this]: those that might before, the source, and the destination
    when the source might. *)
Definition after_move (this src : Z) (N : Z -> Prop) (l : Z) : Prop :=
  N l \/ l = src \/ (l = this /\ N src).

(** The containers that may be in the moved-from state after a statement. *)
Definition may_be_moved_from (st : statement) (N : Z -> Prop) : Z -> Prop :=
  match st with
  | construct_move this src | assign_move_from this src => after_move this src N
  | _ => N
  end.

(** An initialiser for a new object of [Derived]: when it returns, it
    returns an object of that class and has changed neither the containers
    nor the objects nor the allocator. *)
Definition initialises (Derived : class) (init : M object) : Prop :=
  forall m o m', init m = Ok o m' ->
    dyn o = Derived /\ containers m' = containers m /\
    objects m' = objects m /\ next_block m' = next_block m /\
    free_store m' = free_store m.

(** The class a statement instantiates a member template for. *)
Definition statement_class (st : statement) : option class :=
  match st with
  | construct_value Derived _ _ _ => Some Derived
  | construct_in_place Derived _ _ => Some Derived
  | assign_value Derived _ _ _ => Some Derived
  | emplace_with Derived _ _ => Some Derived
  | _ => None
  end.

(** The classes a statement names have their tables in the program. *)
Definition linked_statement (st : statement) : Prop :=
  forall Derived, statement_class st = Some Derived -> Derived ∈ linked.

(** A sequence of statements compiles when each does, to their sequence. *)
Fixpoint compile_all (sts : list statement) : instantiation (M unit) :=
  match sts with
  | [] => Instantiated (ret tt)
  | st :: rest =>
      instantiation_bind (compile st) (fun f =>
      instantiation_bind (compile_all rest) (fun g =>
      Instantiated (let! _ := f in g)))
  end.

(** Running a sequence of statements that compiles. *)
Definition execute (sts : list statement) : M unit :=
  match compile_all sts with
  | Instantiated f => f
  | static_assert_failed _ => undefined
  end.

(** ** What a cell designates *)

(** The object the cell of a container designates: the inline object, or
    the pointee of the pointer. *)
Definition held_object (m : machine) (c : polymorphic_value_impl) : option object :=
  match m_storage c with
  | uninitialised => None
  | local_buffer o => Some o
  | heap_buffer p => objects m !! p
  end.

(** The cell of [c] designates the object [o] in the storage kind decided
    for [Derived]. *)
Definition designates (Derived : class) (m : machine) (c : polymorphic_value_impl)
    (o : object) : Prop :=
  match m_storage c with
  | uninitialised => False
  | local_buffer o' => in_heap Derived = false /\ o' = o
  | heap_buffer p => in_heap Derived = true /\ objects m !! p = Some o
  end.

(** The object an assignment operator reads its value from: the one the
    source container designates, or the value passed by reference. *)
Definition source_object (a : assignment) (src : Z) (m : machine) : option object :=
  match a with
  | assign_container_copy | assign_container_move =>
      match containers m !! src with
      | Some s => held_object m s
      | None => None
      end
  | assign_raw_copy | assign_raw_move => objects m !! src
  end.

(** The events of building an object of [Derived] with the constructor that
    logs [e]: the allocation first when the class is heap-stored. *)
Definition build_trace (Derived : class) (e : event) : list event :=
  (if in_heap Derived then [ev_new] else []) ++ [e].

(** The containers that may be in the moved-from state after a sequence of
    statements. *)
Fixpoint may_be_moved_from_after (sts : list statement) (N : Z -> Prop) : Z -> Prop :=
  match sts with
  | [] => N
  | st :: rest => may_be_moved_from_after rest (may_be_moved_from st N)
  end.

(** A statement that moves a container. *)
Definition is_move (st : statement) : bool :=
  match st with
  | construct_move _ _ | assign_move_from _ _ => true
  | _ => false
  end.

(** ** Blocks and their owners *)

(** Some container among [L] owns the block [p]. *)
Definition owned_by (L : Z -> Prop) (m : machine) (p : Z) : Prop :=
  exists l c, L l /\ containers m !! l = Some c /\ m_storage c = heap_buffer p.

(** No block is leaked: every object at an address from [base] on, where
    the blocks of the allocator lie, is owned by a live container. *)
Definition no_leak (base : Z) (m : machine) : Prop :=
  forall p, base <= p -> is_Some (objects m !! p) -> owned_by (fun _ => True) m p.

(** The container at [this] owns no live block. *)
Definition vacant (base this : Z) (m : machine) : Prop :=
  forall p, base <= p -> is_Some (objects m !! p) ->
    ~ owned_by (fun l => l = this) m p.

(** ** Defined behaviour *)




(** ** The two paths of an assignment *)






(** ** Assumptions on the target *)

(** Alignments are positive. *)
Hypothesis alignof_voidp_pos : 0 < alignof_voidp.

(** [alignas(alignof(void* ) * 2)] on both [static_vtable] objects. *)
Hypothesis static_vtable_alignas :
  forall Derived, static_vtable Derived mod (alignof_voidp * 2) = 0.

(** Distinct static objects have distinct addresses. *)
Hypothesis distinct_tables :
  forall D1 D2, D1 ∈ linked -> D2 ∈ linked ->
    vtable_address D1 = vtable_address D2 -> D1 = D2.

(** ** The decision, unfolded *)

Lemma store_in_heap_false_iff Derived size align :
  store_in_heap Derived size align = false <->
  sizeof Derived <= size /\ alignof Derived <= align /\
  is_nothrow_move_constructible Derived = true.
Proof.
  unfold store_in_heap.
  rewrite !orb_false_iff, negb_false_iff, !Z.ltb_ge. tauto.
Qed.

(** ** Inversion of normal returns *)

Lemma bind_Ok {A B} (f : M A) (k : A -> M B) m b m' :
  bind f k m = Ok b m' -> exists a m1, f m = Ok a m1 /\ k a m1 = Ok b m'.
Proof. unfold bind. destruct (f m); try discriminate. eauto. Qed.

Lemma bind_assoc {A B C} (f : M A) (g : A -> M B) (h : B -> M C) m :
  bind (bind f g) h m = bind f (fun a => bind (g a) h) m.
Proof. unfold bind. by destruct (f m). Qed.

Lemma noexcept_Ok {A} (f : M A) m a m' :
  noexcept f m = Ok a m' -> f m = Ok a m'.
Proof. unfold noexcept. by destruct (f m). Qed.

Lemma on_unwind_Ok {A} (f : M A) cleanup m a m' :
  on_unwind f cleanup m = Ok a m' -> f m = Ok a m'.
Proof.
  unfold on_unwind. destruct (f m); try done.
  destruct (cleanup _); discriminate.
Qed.

Lemma ret_Ok {A} (a b : A) m m' : ret a m = Ok b m' -> a = b /\ m = m'.
Proof. by intros [= -> ->]. Qed.

Lemma load_container_Ok this m c m' :
  load_container this m = Ok c m' -> m' = m /\ containers m !! this = Some c.
Proof.
  unfold load_container. destruct (containers m !! this); [|discriminate].
  by intros [= -> ->].
Qed.

Lemma deref_Ok p m o m' :
  deref p m = Ok o m' -> m' = m /\ objects m !! p = Some o.
Proof.
  unfold deref. destruct (objects m !! p); [|discriminate].
  by intros [= -> ->].
Qed.

Lemma log_Ok e m u m' : log e m = Ok u m' -> m' = with_event e m.
Proof. by intros [= <-]. Qed.

Lemma set_containers_Ok f m u m' :
  set_containers f m = Ok u m' -> m' = with_containers f m.
Proof. by intros [= <-]. Qed.

Lemma set_objects_Ok f m u m' :
  set_objects f m = Ok u m' -> m' = with_objects f m.
Proof. by intros [= <-]. Qed.

(** Break a normal return of a composed member function into the normal
    returns of its steps. *)
Ltac invert_ok :=
  repeat match goal with
  | H : bind _ _ _ = Ok _ _ |- _ =>
      let a := fresh "a" in let m1 := fresh "m" in let H1 := fresh "Hstep" in
      apply bind_Ok in H; destruct H as (a & m1 & H1 & H)
  | H : noexcept _ _ = Ok _ _ |- _ => apply noexcept_Ok in H
  | H : on_unwind _ _ _ = Ok _ _ |- _ => apply on_unwind_Ok in H
  | H : ret _ _ = Ok _ _ |- _ => apply ret_Ok in H; destruct H as [? ?]; subst
  | H : load_container _ _ = Ok _ _ |- _ =>
      apply load_container_Ok in H; destruct H as [? H]; subst
  | H : deref _ _ = Ok _ _ |- _ =>
      apply deref_Ok in H; destruct H as [? H]; subst
  | H : log _ _ = Ok _ _ |- _ => apply log_Ok in H; subst
  | H : set_containers _ _ = Ok _ _ |- _ => apply set_containers_Ok in H; subst
  | H : set_objects _ _ = Ok _ _ |- _ => apply set_objects_Ok in H; subst
  | H : undefined _ = Ok _ _ |- _ => discriminate H
  | H : throw _ _ = Ok _ _ |- _ => discriminate H
  end.

Lemma call_Ok b Derived e m u m' :
  call b Derived e m = Ok u m' -> b <> Throws /\ m' = with_event e m.
Proof. destruct b; simpl; intros H; invert_ok; done. Qed.

Lemma construct_Ok Derived v m o m' :
  construct Derived v m = Ok o m' ->
  o = Object Derived v /\ m' = with_event (ev_ctor Derived) m.
Proof.
  unfold construct. intros H. invert_ok.
  apply call_Ok in Hstep as [_ ->]. done.
Qed.

Lemma copy_construct_Ok Derived s m o m' :
  copy_construct Derived s m = Ok o m' ->
  o = Object Derived (value s) /\ m' = with_event (ev_copy_ctor Derived) m.
Proof.
  unfold copy_construct. intros H. invert_ok.
  apply call_Ok in Hstep as [_ ->]. done.
Qed.

Lemma move_construct_Ok Derived s m o m' :
  move_construct Derived s m = Ok o m' ->
  o = Object Derived (value s) /\ m' = with_event (ev_move_ctor Derived) m.
Proof.
  unfold move_construct. intros H. invert_ok.
  apply call_Ok in Hstep as [_ ->]. done.
Qed.

Lemma assign_copy_Ok Derived d s m o m' :
  assign_copy Derived d s m = Ok o m' ->
  o = Object (dyn d) (value s) /\ m' = with_event (ev_copy_assign Derived) m.
Proof.
  unfold assign_copy. intros H. invert_ok.
  apply call_Ok in Hstep as [_ ->]. done.
Qed.

Lemma assign_move_Ok Derived d s m o m' :
  assign_move Derived d s m = Ok o m' ->
  o = Object (dyn d) (value s) /\ m' = with_event (ev_move_assign Derived) m.
Proof.
  unfold assign_move. intros H. invert_ok.
  apply call_Ok in Hstep as [_ ->]. done.
Qed.


Lemma load_storage_Ok this m s m' :
  load_storage (storage_of this) m = Ok s m' ->
  m' = m /\ exists c, containers m !! this = Some c /\ m_storage c = s.
Proof. simpl. intros H. invert_ok. eauto. Qed.

Lemma store_storage_Ok this s m u m' :
  store_storage (storage_of this) s m = Ok u m' ->
  exists c, containers m !! this = Some c /\
    m' = with_containers (<[this := Container s (m_vtable c)]>) m.
Proof. simpl. intros H. invert_ok. eauto. Qed.

Lemma load_pointer_Ok this m p m' :
  load_pointer (storage_of this) m = Ok p m' ->
  m' = m /\ exists c, containers m !! this = Some c /\ m_storage c = heap_buffer p.
Proof.
  unfold load_pointer. intros H. invert_ok.
  apply load_storage_Ok in Hstep as (-> & c & Hc & Hs).
  destruct a; invert_ok. eauto.
Qed.

Lemma load_object_storage_Ok this m o m' :
  load_object (storage_of this) m = Ok o m' ->
  m' = m /\ exists c, containers m !! this = Some c /\ m_storage c = local_buffer o.
Proof.
  unfold load_object. intros H. invert_ok.
  apply load_storage_Ok in Hstep as (-> & c & Hc & Hs).
  destruct a; invert_ok. eauto.
Qed.

Lemma load_object_Ok ptr m o m' :
  load_object ptr m = Ok o m' -> m' = m.
Proof.
  destruct ptr; intros H.
  - by apply load_object_storage_Ok in H as [-> _].
  - simpl in H. by invert_ok.
Qed.

Lemma operator_new_Ok m p m' :
  operator_new m = Ok p m' ->
  p = next_block m /\ exists n, free_store m = S n /\
    m' = Machine (containers m) (objects m) (next_block m + 1) n (trace m ++ [ev_new]).
Proof.
  unfold operator_new. destruct (free_store m); [discriminate|].
  intros [= <- <-]. eauto.
Qed.

Lemma operator_delete_Ok p m u m' :
  operator_delete p m = Ok u m' ->
  m' = with_objects (delete p) (with_event ev_delete m).
Proof. unfold operator_delete. intros H. by invert_ok. Qed.

Lemma new_expression_Ok init m p m' :
  new_expression init m = Ok p m' ->
  exists m0 o m1,
    operator_new m = Ok p m0 /\ init m0 = Ok o m1 /\
    m' = with_objects (<[p := o]>) m1.
Proof. unfold new_expression. intros H. invert_ok. eauto 10. Qed.

Lemma delete_expression_Ok Derived p m u m' :
  delete_expression Derived p m = Ok u m' ->
  (p = nullptr /\ m' = m) \/
  (p <> nullptr /\ is_Some (objects m !! p) /\
   m' = with_objects (delete p) (with_event ev_delete (with_event (ev_dtor Derived) m))).
Proof.
  unfold delete_expression. destruct (p =? nullptr) eqn:Hp; intros H.
  - apply Z.eqb_eq in Hp. invert_ok. by left.
  - apply Z.eqb_neq in Hp. invert_ok.
    apply operator_delete_Ok in H as ->. right. eauto.
Qed.

Lemma store_vtable_Ok this a m u m' :
  store_vtable this a m = Ok u m' ->
  exists c, containers m !! this = Some c /\
    m' = with_containers (<[this := Container (m_storage c) a]>) m.
Proof. unfold store_vtable. intros H. invert_ok. eauto. Qed.

Lemma begin_lifetime_Ok this a m u m' :
  begin_lifetime this a m = Ok u m' ->
  containers m !! this = None /\
  m' = with_containers (<[this := Container uninitialised a]>) m.
Proof.
  unfold begin_lifetime. destruct (containers m !! this); [discriminate|].
  intros H. by invert_ok.
Qed.

(** Reading the table of a linked class gives the table generated for it. *)
Lemma load_vtable_linked Derived m :
  Derived ∈ linked ->
  load_vtable (vtable_address Derived) m = Ok (table_of Derived) m.
Proof.
  intros Hin. unfold load_vtable.
  destruct (find _ linked) as [D|] eqn:Hfind.
  - apply find_some in Hfind as [HD Heq].
    apply Z.eqb_eq in Heq. apply list_elem_of_In in HD.
    by rewrite (distinct_tables D Derived HD Hin Heq).
  - apply list_elem_of_In in Hin.
    pose proof (find_none _ _ Hfind _ Hin) as Hne. simpl in Hne.
    by rewrite Z.eqb_refl in Hne.
Qed.

Lemma dispatch_Ok this m vt m' :
  dispatch this m = Ok vt m' ->
  m' = m /\ exists c, containers m !! this = Some c /\
    forall Derived, Derived ∈ linked -> m_vtable c = vtable_address Derived ->
      vt = table_of Derived.
Proof.
  unfold dispatch. intros H.
  apply bind_Ok in H as (c & m1 & Hc & H).
  apply load_container_Ok in Hc as [-> Hc].
  assert (m' = m) as ->.
  { unfold load_vtable in H. destruct (find _ _); by invert_ok. }
  split; [done|]. eexists; split; [done|].
  intros D HD Ha. rewrite Ha, load_vtable_linked in H by done. congruence.
Qed.


(** ** Maintaining the invariant *)

Lemma holds_frame m m' c Derived :
  holds m c Derived ->
  (forall p o, m_storage c = heap_buffer p -> p <> nullptr ->
     objects m !! p = Some o ->
     exists o', objects m' !! p = Some o' /\ dyn o' = dyn o) ->
  holds m' c Derived.
Proof.
  unfold holds. intros (Hin & Hvt & Hs) Hframe. repeat split; [done..|].
  destruct (m_storage c) as [|o|p]; [done..|].
  destruct Hs as (Hheap & Hp & o & Ho & Hdyn).
  destruct (Hframe p o eq_refl Hp Ho) as (o' & Ho' & Hdyn').
  repeat split; [done..|]. exists o'. split; congruence.
Qed.

Lemma invariant_except_of_invariant this N m :
  invariant N m -> invariant_except this N m.
Proof. intros [H1 H2 H3 H4]. split; eauto. Qed.

(** A step that leaves the other containers and the classes of their
    objects alone keeps the invariant of the other containers. *)
Lemma invariant_except_frame this N m m' :
  invariant_except this N m ->
  (forall l, l <> this -> containers m' !! l = containers m !! l) ->
  (forall l c p o, l <> this -> containers m !! l = Some c ->
     m_storage c = heap_buffer p -> p <> nullptr -> objects m !! p = Some o ->
     exists o', objects m' !! p = Some o' /\ dyn o' = dyn o) ->
  (forall p, is_Some (objects m' !! p) -> 0 < p < next_block m') ->
  0 < next_block m' ->
  invariant_except this N m'.
Proof.
  intros [Hcont Howned _ _] Hothers Hobjs Hfresh Hnext. split; [| |done..].
  - intros l c Hl Hc. rewrite Hothers in Hc by done.
    destruct (Hcont l c Hl Hc) as [D [Hholds|Hmoved]]; exists D; [left|by right].
    eapply holds_frame; [done|]. intros p o Hs Hp Ho. eauto.
  - intros l1 l2 c1 c2 p Hl1 Hl2 Hc1 Hc2.
    rewrite Hothers in Hc1, Hc2 by done. eauto.
Qed.

Lemma invariant_except_close this N m c :
  invariant_except this N m ->
  containers m !! this = Some c ->
  (exists Derived, holds m c Derived \/ (moved_from c Derived /\ N this)) ->
  sole_owner this m ->
  invariant N m.
Proof.
  intros [Hcont Howned Hobjs Hnext] Hthis Hok Hsole. split; [| |done..].
  - intros l c' Hc'. destruct (decide (l = this)) as [->|Hl]; [|eauto].
    by simplify_eq.
  - intros l1 l2 c1 c2 p Hc1 Hc2 Hs1 Hs2 Hp.
    destruct (decide (l1 = this)) as [->|Hl1], (decide (l2 = this)) as [->|Hl2];
      [done| | |eauto].
    + by destruct (Hsole c1 p l2 c2).
    + by destruct (Hsole c2 p l1 c1).
Qed.

Lemma invariant_except_absent this N m :
  invariant_except this N m -> containers m !! this = None -> invariant N m.
Proof.
  intros [Hcont Howned Hobjs Hnext] Hthis. split; [| |done..].
  - intros l c Hc. apply Hcont; [|done]. congruence.
  - intros l1 l2 c1 c2 p Hc1 Hc2. apply Howned; congruence.
Qed.

Lemma invariant_mono (N N' : Z -> Prop) m :
  (forall l, N l -> N' l) -> invariant N m -> invariant N' m.
Proof.
  intros HN [Hcont Howned Hobjs Hnext]. split; [|done..].
  intros l c Hc. destruct (Hcont l c Hc) as [D [?|[? ?]]]; exists D; auto.
Qed.


(** Putting an object of [Derived] in the inline buffer of [this]. *)
Lemma install_local this N Derived o a m m' :
  invariant_except this N m ->
  Derived ∈ linked -> in_heap Derived = false -> dyn o = Derived ->
  a = vtable_address Derived ->
  containers m' = <[this := Container (local_buffer o) a]> (containers m) ->
  objects m' = objects m -> next_block m' = next_block m ->
  invariant N m'.
Proof.
  intros Hinv Hin Hkind Hdyn -> Hc Ho Hn.
  eapply (invariant_except_close this).
  - eapply invariant_except_frame; [done|..].
    + intros l Hl. by rewrite Hc, lookup_insert_ne.
    + intros. rewrite Ho. eauto.
    + intros p. rewrite Ho, Hn. apply (exc_objects _ _ _ Hinv).
    + rewrite Hn. apply (exc_next_block _ _ _ Hinv).
  - rewrite Hc. apply lookup_insert_eq.
  - exists Derived. left. unfold holds. simpl. done.
  - intros c p l c2. rewrite Hc, lookup_insert_eq. by intros [= <-].
Qed.

(** Putting a pointer to a fresh block holding an object of [Derived] in
    [this]. *)
Lemma install_heap this N Derived o a m m' :
  invariant_except this N m ->
  Derived ∈ linked -> in_heap Derived = true -> dyn o = Derived ->
  a = vtable_address Derived ->
  containers m' = <[this := Container (heap_buffer (next_block m)) a]> (containers m) ->
  objects m' = <[next_block m := o]> (objects m) ->
  next_block m' = next_block m + 1 ->
  invariant N m'.
Proof.
  intros Hinv Hin Hkind Hdyn -> Hc Ho Hn.
  pose proof (exc_next_block _ _ _ Hinv) as Hpos.
  pose proof (exc_objects _ _ _ Hinv) as Hfresh.
  eapply (invariant_except_close this).
  - eapply invariant_except_frame; [done|..].
    + intros l Hl. by rewrite Hc, lookup_insert_ne.
    + intros l c p o0 Hl Hcl Hs Hp Hobj. exists o0. split; [|done].
      rewrite Ho, lookup_insert_ne; [done|].
      intros <-. assert (is_Some (objects m !! next_block m)) as Hsome by eauto.
      apply Hfresh in Hsome. lia.
    + intros p. rewrite Ho, Hn, lookup_insert_is_Some.
      intros [<-|[_ Hsome]]; [lia|]. apply Hfresh in Hsome. lia.
    + lia.
  - rewrite Hc. apply lookup_insert_eq.
  - exists Derived. left. unfold holds. simpl.
    do 3 (split; [done|]). split; [unfold nullptr; lia|].
    exists o. rewrite Ho, lookup_insert_eq. done.
  - intros c p l c2. rewrite Hc, lookup_insert_eq. intros [= <-]. simpl.
    intros [= <-] _ Hl. rewrite lookup_insert_ne by done. intros Hc2 Hs2.
    destruct (exc_containers _ _ _ Hinv l c2 Hl Hc2) as [D [Hh|[Hm _]]].
    + destruct Hh as (_ & _ & Hh). rewrite Hs2 in Hh.
      destruct Hh as (_ & _ & o0 & Ho0 & _).
      assert (is_Some (objects m !! next_block m)) as Hsome by eauto.
      apply Hfresh in Hsome. lia.
    + destruct Hm as (_ & _ & _ & Hm). rewrite Hs2 in Hm.
      injection Hm. unfold nullptr. lia.
Qed.


(** ** What the table entries do to the invariant *)

Ltac invert_entry :=
  repeat first [progress invert_ok | match goal with
  | H : load_object (storage_of _) _ = Ok _ _ |- _ =>
      apply load_object_storage_Ok in H as (-> & ? & ? & ?)
  | H : load_object _ _ = Ok _ _ |- _ => apply load_object_Ok in H as ->
  | H : load_pointer (storage_of _) _ = Ok _ _ |- _ =>
      apply load_pointer_Ok in H as (-> & ? & ? & ?)
  | H : store_storage (storage_of _) _ _ = Ok _ _ |- _ =>
      apply store_storage_Ok in H as (? & ? & ->)
  | H : store_object (storage_of _) _ _ = Ok _ _ |- _ =>
      apply store_storage_Ok in H as (? & ? & ->)
  | H : store_vtable _ _ _ = Ok _ _ |- _ =>
      apply store_vtable_Ok in H as (? & ? & ->)
  | H : new_expression _ _ = Ok _ _ |- _ =>
      apply new_expression_Ok in H as (? & ? & ? & ? & ? & ->)
  | H : operator_new _ = Ok _ _ |- _ =>
      apply operator_new_Ok in H as (-> & ? & ? & ->)
  | H : construct _ _ _ = Ok _ _ |- _ => apply construct_Ok in H as [-> ->]
  | H : copy_construct _ _ _ = Ok _ _ |- _ => apply copy_construct_Ok in H as [-> ->]
  | H : move_construct _ _ _ = Ok _ _ |- _ => apply move_construct_Ok in H as [-> ->]
  | H : assign_copy _ _ _ _ = Ok _ _ |- _ => apply assign_copy_Ok in H as [-> ->]
  | H : assign_move _ _ _ _ = Ok _ _ |- _ => apply assign_move_Ok in H as [-> ->]
  end]; simpl in *; simplify_eq.

Lemma destroy_spec N Derived this c m m' :
  invariant N m -> containers m !! this = Some c ->
  holds m c Derived \/ moved_from c Derived ->
  destroy (table_of Derived) (storage_of this) m = Ok tt m' ->
  invariant_except this N m' /\
  (forall l, l <> this -> containers m' !! l = containers m !! l) /\
  exists c', containers m' !! this = Some c' /\ m_vtable c' = m_vtable c.
Proof.
  intros Hinv Hthis Hc. unfold table_of.
  pose proof (invariant_except_of_invariant this _ _ Hinv) as Hexc.
  destruct (in_heap Derived) eqn:Hkind; simpl.
  - unfold heap_storage.destroy. intros H. invert_entry.
    apply delete_expression_Ok in H as [[-> ->]|(Hp & Hsome & ->)].
    { split; [done|]. split; [done|]. eauto. }
    split; [|split; [done|eauto]].
    eapply invariant_except_frame; [done|done|..]; simpl.
    + intros l c2 p o Hl Hc2 Hs2 Hp2 Ho. exists o. split; [|done].
      rewrite lookup_delete_ne; [done|]. intros <-.
      apply Hl. eapply (inv_owned _ _ Hinv l this); eauto.
    + intros p. rewrite lookup_delete_is_Some. intros [_ Hs].
      by apply (inv_objects _ _ Hinv).
    + apply (inv_next_block _ _ Hinv).
  - unfold local_storage.destroy. intros H. invert_entry.
    split; [|split].
    + eapply invariant_except_frame; [done|..]; simpl.
      * intros l Hl. by rewrite lookup_insert_ne.
      * eauto.
      * apply (inv_objects _ _ Hinv).
      * apply (inv_next_block _ _ Hinv).
    + intros l Hl. simpl. by rewrite lookup_insert_ne.
    + simpl. rewrite lookup_insert_eq. eauto.
Qed.


Lemma initialises_construct Derived v : initialises Derived (construct Derived v).
Proof. intros m o m' H. by invert_entry. Qed.

Lemma initialises_copy Derived (read : M object) :
  (forall m o m', read m = Ok o m' -> m' = m) ->
  initialises Derived (let! s := read in copy_construct Derived s).
Proof.
  intros Hread m o m' H. invert_ok. apply Hread in Hstep as ->. by invert_entry.
Qed.

Lemma initialises_move Derived (read : M object) :
  (forall m o m', read m = Ok o m' -> m' = m) ->
  initialises Derived (let! s := read in move_construct Derived s).
Proof.
  intros Hread m o m' H. invert_ok. apply Hread in Hstep as ->. by invert_entry.
Qed.

Lemma initialises_forward Derived cat (read : M object) :
  (forall m o m', read m = Ok o m' -> m' = m) ->
  initialises Derived (let! s := read in forward_construct Derived cat s).
Proof.
  destruct cat; [apply initialises_copy|apply initialises_move].
Qed.

Lemma deref_pure p m o m' : deref p m = Ok o m' -> m' = m.
Proof. intros H. by apply deref_Ok in H as [-> _]. Qed.

Lemma load_pointer_pure ptr m p m' : load_pointer ptr m = Ok p m' -> m' = m.
Proof.
  destruct ptr; intros H; [|discriminate H].
  by apply load_pointer_Ok in H as [-> _].
Qed.

Lemma local_install_spec N Derived init this c m m' :
  invariant_except this N m -> Derived ∈ linked -> in_heap Derived = false ->
  containers m !! this = Some c -> m_vtable c = vtable_address Derived ->
  initialises Derived init ->
  (let! o := init in store_storage (storage_of this) (local_buffer o)) m = Ok tt m' ->
  invariant N m'.
Proof.
  intros Hexc Hin Hkind Hthis Hvt Hinit H.
  apply bind_Ok in H as (o & m1 & Ho & H).
  destruct (Hinit _ _ _ Ho) as (Hdyn & Hc & Hobj & Hn & _).
  apply store_storage_Ok in H as (c' & Hc' & ->).
  rewrite Hc in Hc'. simplify_eq.
  eapply (install_local this); eauto; simpl; congruence.
Qed.

Lemma heap_install_spec N Derived init this c m m' :
  invariant_except this N m -> Derived ∈ linked -> in_heap Derived = true ->
  containers m !! this = Some c -> m_vtable c = vtable_address Derived ->
  initialises Derived init ->
  (let! p := new_expression init in store_storage (storage_of this) (heap_buffer p)) m
    = Ok tt m' ->
  invariant N m'.
Proof.
  intros Hexc Hin Hkind Hthis Hvt Hinit H.
  apply bind_Ok in H as (p & m2 & Hnew & H).
  apply new_expression_Ok in Hnew as (m0 & o & m1 & Hop & Ho & ->).
  apply operator_new_Ok in Hop as (-> & n & Hfree & ->).
  destruct (Hinit _ _ _ Ho) as (Hdyn & Hc & Hobj & Hn & _). simpl in *.
  apply store_storage_Ok in H as (c' & Hc' & ->). simpl in *.
  rewrite Hc in Hc'. simplify_eq.
  eapply (install_heap this); eauto; simpl; congruence.
Qed.

Lemma build_spec N Derived init this c m m' :
  invariant_except this N m -> Derived ∈ linked ->
  containers m !! this = Some c -> m_vtable c = vtable_address Derived ->
  initialises Derived init ->
  build Derived init (storage_of this) m = Ok tt m' ->
  invariant N m'.
Proof.
  intros Hexc Hin Hthis Hvt Hinit. unfold build.
  destruct (in_heap Derived) eqn:Hkind.
  - by eapply heap_install_spec.
  - by eapply local_install_spec.
Qed.

(** The entries that build into an empty cell, except the move between
    containers. *)
Lemma copy_spec N Derived src this c m m' :
  invariant_except this N m -> Derived ∈ linked ->
  containers m !! this = Some c -> m_vtable c = vtable_address Derived ->
  copy (table_of Derived) src (storage_of this) m = Ok tt m' ->
  invariant N m'.
Proof.
  intros Hexc Hin Hthis Hvt. unfold table_of.
  destruct (in_heap Derived) eqn:Hkind; simpl.
  - unfold heap_storage.copy. intros H.
    apply bind_Ok in H as (q & m1 & Hq & H).
    apply load_pointer_pure in Hq as ->.
    eapply heap_install_spec; eauto.
    apply initialises_copy, deref_pure.
  - unfold local_storage.copy. intros H.
    eapply local_install_spec; eauto.
    + apply initialises_copy, load_object_Ok.
    + by rewrite bind_assoc.
Qed.


Lemma local_move_spec N Derived src this c m m' :
  invariant_except this N m -> Derived ∈ linked -> in_heap Derived = false ->
  containers m !! this = Some c -> m_vtable c = vtable_address Derived ->
  local_storage.move Derived src (storage_of this) m = Ok tt m' ->
  invariant N m'.
Proof.
  intros Hexc Hin Hkind Hthis Hvt H. unfold local_storage.move in H.
  apply noexcept_Ok in H.
  eapply local_install_spec; eauto.
  - apply initialises_move, load_object_Ok.
  - by rewrite bind_assoc.
Qed.

Lemma copy_raw_spec N Derived src this c m m' :
  invariant_except this N m -> Derived ∈ linked ->
  containers m !! this = Some c -> m_vtable c = vtable_address Derived ->
  copy_raw (table_of Derived) src (storage_of this) m = Ok tt m' ->
  invariant N m'.
Proof.
  intros Hexc Hin Hthis Hvt. unfold table_of.
  destruct (in_heap Derived) eqn:Hkind; simpl.
  - unfold heap_storage.copy_raw. intros H.
    eapply heap_install_spec; eauto.
    apply initialises_copy, load_object_Ok.
  - intros H. eapply (copy_spec N Derived); eauto.
    unfold table_of. by rewrite Hkind.
Qed.

Lemma move_raw_spec N Derived src this c m m' :
  invariant_except this N m -> Derived ∈ linked ->
  containers m !! this = Some c -> m_vtable c = vtable_address Derived ->
  move_raw (table_of Derived) src (storage_of this) m = Ok tt m' ->
  invariant N m'.
Proof.
  intros Hexc Hin Hthis Hvt. unfold table_of.
  destruct (in_heap Derived) eqn:Hkind; simpl.
  - unfold heap_storage.move_raw. intros H. apply noexcept_Ok in H.
    eapply heap_install_spec; eauto.
    apply initialises_move, load_object_Ok.
  - intros H. by eapply local_move_spec.
Qed.

Lemma after_move_mono this src (N : Z -> Prop) l : N l -> after_move this src N l.
Proof. by left. Qed.

(** [heap_storage::move]: the destination takes the place of the source. *)
Lemma heap_move_spec N src this c m m' :
  invariant_except this N m -> src <> this ->
  containers m !! this = Some c ->
  (forall s, containers m !! src = Some s -> m_vtable c = m_vtable s) ->
  heap_storage.move (storage_of src) (storage_of this) m = Ok tt m' ->
  invariant (after_move this src N) m'.
Proof.
  intros Hexc Hne Hthis Hvt H. unfold heap_storage.move in H.
  apply noexcept_Ok in H.
  apply bind_Ok in H as (q & m1 & Hq & H).
  apply load_pointer_Ok in Hq as (-> & s & Hsrc & Hsq).
  apply bind_Ok in H as (u & m1 & H1 & H).
  apply store_storage_Ok in H1 as (c0 & Hc0 & ->).
  apply store_storage_Ok in H as (s0 & Hs0 & ->). simpl in Hs0.
  rewrite lookup_insert_ne in Hs0 by done. simplify_eq.
  specialize (Hvt s Hsrc).
  destruct (exc_containers _ _ _ Hexc src s Hne Hsrc) as [D Hs].
  assert (D ∈ linked /\ m_vtable s = vtable_address D /\ in_heap D = true)
    as (HD & HvtD & Hkind).
  { destruct Hs as [(? & ? & Hh)|[(? & ? & ? & ?) _]]; [|done].
    rewrite Hsq in Hh. by destruct Hh. }
  split; simpl.
  - intros l c'. rewrite !lookup_insert. repeat case_decide; subst.
    + intros [= <-]. exists D. right. split; [|right; by left].
      unfold moved_from; simpl. repeat split; congruence.
    + intros [= <-]. exists D.
      destruct Hs as [(_ & _ & Hh)|[(_ & _ & _ & Hnull) HN]].
      * left. rewrite Hsq in Hh. unfold holds. simpl. split; [done|].
        split; [congruence|done].
      * right. rewrite Hsq in Hnull. simplify_eq.
        split; [|right; right; done].
        unfold moved_from; simpl. repeat split; congruence.
    + intros Hl. destruct (exc_containers _ _ _ Hexc l c') as [D' HD']; [done..|].
      exists D'. destruct HD' as [?|[? ?]]; [by left|right].
      split; [done|by left].
  - intros l1 l2 c1 c2 p. rewrite !lookup_insert.
    repeat case_decide; subst; intros Hc1 Hc2 Hs1 Hs2 Hp;
      simplify_eq; simpl in *; simplify_eq; try done.
    all: first
      [ by eapply (exc_owned _ _ _ Hexc); eauto
      | exfalso;
        match goal with
        | Ha : containers ?m0 !! ?a = Some _, Hb : containers ?m0 !! ?b = Some _,
          Hd : ?a <> ?b |- _ =>
            apply Hd; by eapply (exc_owned _ _ _ Hexc a b); eauto
        end ].
  - apply (exc_objects _ _ _ Hexc).
  - apply (exc_next_block _ _ _ Hexc).
Qed.

Lemma move_spec N Derived src this c m m' :
  invariant_except this N m -> Derived ∈ linked -> src <> this ->
  containers m !! this = Some c -> m_vtable c = vtable_address Derived ->
  (forall s, containers m !! src = Some s -> m_vtable c = m_vtable s) ->
  move (table_of Derived) (storage_of src) (storage_of this) m = Ok tt m' ->
  invariant (after_move this src N) m'.
Proof.
  intros Hexc Hin Hne Hthis Hvt Hsrc. unfold table_of.
  destruct (in_heap Derived) eqn:Hkind; simpl; intros H.
  - by eapply heap_move_spec.
  - eapply invariant_mono; [apply after_move_mono|].
    by eapply local_move_spec.
Qed.


(** Assigning to the object a container holds keeps its class. *)
Lemma invariant_update_object N p d o' m m' :
  invariant N m -> objects m !! p = Some d -> dyn o' = dyn d ->
  containers m' = containers m -> objects m' = <[p := o']> (objects m) ->
  next_block m' = next_block m ->
  invariant N m'.
Proof.
  intros [Hcont Howned Hobjs Hnext] Hp Hdyn Hc Ho Hn. split.
  - intros l c. rewrite Hc. intros Hl.
    destruct (Hcont l c Hl) as [D [Hh|Hm]]; exists D; [left|by right].
    eapply holds_frame; [done|]. intros p0 o0 _ _ Hp0. rewrite Ho.
    destruct (decide (p = p0)) as [<-|Hne].
    + rewrite lookup_insert_eq. exists o'. split; congruence.
    + rewrite lookup_insert_ne by done. eauto.
  - rewrite Hc. apply Howned.
  - intros p0. rewrite Ho, Hn, lookup_insert_is_Some.
    intros [<-|[_ Hsome]]; apply Hobjs; eauto.
  - by rewrite Hn.
Qed.

Lemma invariant_update_local N this c d o' m m' :
  invariant N m -> containers m !! this = Some c ->
  m_storage c = local_buffer d -> dyn o' = dyn d ->
  containers m' = <[this := Container (local_buffer o') (m_vtable c)]> (containers m) ->
  objects m' = objects m -> next_block m' = next_block m ->
  invariant N m'.
Proof.
  intros Hinv Hthis Hs Hdyn Hc Ho Hn.
  destruct (inv_containers _ _ Hinv this c Hthis) as [D [Hh|[Hm _]]].
  - destruct Hh as (Hin & Hvt & Hh). rewrite Hs in Hh. destruct Hh as [Hkind Hd].
    eapply (install_local this N D o'); eauto.
    + by apply invariant_except_of_invariant.
    + congruence.
  - destruct Hm as (_ & _ & _ & Hm). congruence.
Qed.

Lemma local_copy_assign_spec N Derived src this m m' :
  invariant N m ->
  local_storage.copy_assign Derived src (storage_of this) m = Ok tt m' ->
  invariant N m'.
Proof.
  intros Hinv H. unfold local_storage.copy_assign in H.
  apply bind_Ok in H as (s & m1 & Hs & H). apply load_object_Ok in Hs as ->.
  apply bind_Ok in H as (d & m1 & Hd & H).
  apply load_object_storage_Ok in Hd as (-> & c & Hc & Hd).
  apply bind_Ok in H as (o & m1 & Ho & H). apply assign_copy_Ok in Ho as [-> ->].
  apply store_storage_Ok in H as (c' & Hc' & ->). simpl in *. simplify_eq.
  eapply (invariant_update_local N this c d);
    [exact Hinv|exact Hc|exact Hd| |reflexivity..]; reflexivity.
Qed.

Lemma local_move_assign_spec N Derived src this m m' :
  invariant N m ->
  local_storage.move_assign Derived src (storage_of this) m = Ok tt m' ->
  invariant N m'.
Proof.
  intros Hinv H. unfold local_storage.move_assign in H. apply noexcept_Ok in H.
  apply bind_Ok in H as (s & m1 & Hs & H). apply load_object_Ok in Hs as ->.
  apply bind_Ok in H as (d & m1 & Hd & H).
  apply load_object_storage_Ok in Hd as (-> & c & Hc & Hd).
  apply bind_Ok in H as (o & m1 & Ho & H). apply assign_move_Ok in Ho as [-> ->].
  apply store_storage_Ok in H as (c' & Hc' & ->). simpl in *. simplify_eq.
  eapply (invariant_update_local N this c d);
    [exact Hinv|exact Hc|exact Hd| |reflexivity..]; reflexivity.
Qed.

Lemma copy_assign_spec N Derived src this m m' :
  invariant N m ->
  copy_assign (table_of Derived) src (storage_of this) m = Ok tt m' ->
  invariant N m'.
Proof.
  intros Hinv. unfold table_of. destruct (in_heap Derived); simpl; intros H.
  - unfold heap_storage.copy_assign in H.
    apply bind_Ok in H as (q & m1 & Hq & H). apply load_pointer_pure in Hq as ->.
    apply bind_Ok in H as (s & m1 & Hs & H). apply deref_pure in Hs as ->.
    apply bind_Ok in H as (p & m1 & Hp & H). apply load_pointer_pure in Hp as ->.
    apply bind_Ok in H as (d & m1 & Hd & H). apply deref_Ok in Hd as [-> Hd].
    apply bind_Ok in H as (o & m1 & Ho & H). apply assign_copy_Ok in Ho as [-> ->].
    apply set_objects_Ok in H as ->.
    eapply (invariant_update_object N p d);
      [exact Hinv|exact Hd| |reflexivity..]; reflexivity.
  - by eapply local_copy_assign_spec.
Qed.

Lemma copy_assign_raw_spec N Derived src this m m' :
  invariant N m ->
  copy_assign_raw (table_of Derived) src (storage_of this) m = Ok tt m' ->
  invariant N m'.
Proof.
  intros Hinv. unfold table_of. destruct (in_heap Derived); simpl; intros H.
  - unfold heap_storage.copy_assign_raw in H.
    apply bind_Ok in H as (s & m1 & Hs & H). apply load_object_Ok in Hs as ->.
    apply bind_Ok in H as (p & m1 & Hp & H). apply load_pointer_pure in Hp as ->.
    apply bind_Ok in H as (d & m1 & Hd & H). apply deref_Ok in Hd as [-> Hd].
    apply bind_Ok in H as (o & m1 & Ho & H). apply assign_copy_Ok in Ho as [-> ->].
    apply set_objects_Ok in H as ->.
    eapply (invariant_update_object N p d);
      [exact Hinv|exact Hd| |reflexivity..]; reflexivity.
  - by eapply local_copy_assign_spec.
Qed.

Lemma move_assign_raw_spec N Derived src this m m' :
  invariant N m ->
  move_assign_raw (table_of Derived) src (storage_of this) m = Ok tt m' ->
  invariant N m'.
Proof.
  intros Hinv. unfold table_of. destruct (in_heap Derived); simpl; intros H.
  - unfold heap_storage.move_assign_raw in H. apply noexcept_Ok in H.
    apply bind_Ok in H as (s & m1 & Hs & H). apply load_object_Ok in Hs as ->.
    apply bind_Ok in H as (p & m1 & Hp & H). apply load_pointer_pure in Hp as ->.
    apply bind_Ok in H as (d & m1 & Hd & H). apply deref_Ok in Hd as [-> Hd].
    apply bind_Ok in H as (o & m1 & Ho & H). apply assign_move_Ok in Ho as [-> ->].
    apply set_objects_Ok in H as ->.
    eapply (invariant_update_object N p d);
      [exact Hinv|exact Hd| |reflexivity..]; reflexivity.
  - by eapply local_move_assign_spec.
Qed.


(** [heap_storage::move_assign]: the two containers exchange their blocks. *)
Lemma heap_move_assign_spec N src this c s m m' :
  invariant N m -> src <> this ->
  containers m !! this = Some c -> containers m !! src = Some s ->
  m_vtable c = m_vtable s ->
  heap_storage.move_assign (storage_of src) (storage_of this) m = Ok tt m' ->
  invariant (after_move this src N) m'.
Proof.
  intros Hinv Hne Hthis Hsrc Hvt H. unfold heap_storage.move_assign in H.
  apply noexcept_Ok in H.
  apply bind_Ok in H as (q & m1 & Hq & H).
  apply load_pointer_Ok in Hq as (-> & s0 & Hs0 & Hsq).
  apply bind_Ok in H as (p & m1 & Hp & H).
  apply load_pointer_Ok in Hp as (-> & c0 & Hc0 & Hcp).
  apply bind_Ok in H as (u & m1 & H1 & H).
  apply store_storage_Ok in H1 as (s1 & Hs1 & ->).
  apply store_storage_Ok in H as (c1 & Hc1 & ->). simpl in Hc1.
  rewrite lookup_insert_ne in Hc1 by done. simplify_eq.
  destruct (inv_containers _ _ Hinv src s Hsrc) as [Ds HDs].
  destruct (inv_containers _ _ Hinv this c Hthis) as [Dc HDc].
  split; simpl.
  - intros l c'. rewrite !lookup_insert. repeat case_decide; subst.
    + intros [= <-]. exists Ds.
      destruct HDs as [(? & ? & Hh)|[(? & ? & ? & Hnull) HN]].
      * left. rewrite Hsq in Hh. unfold holds. simpl. split; [done|].
        split; [congruence|done].
      * right. rewrite Hsq in Hnull. simplify_eq. split; [|right; right; done].
        unfold moved_from; simpl. repeat split; congruence.
    + intros [= <-]. exists Dc.
      destruct HDc as [(? & ? & Hh)|[(? & ? & ? & Hnull) HN]].
      * left. rewrite Hcp in Hh. unfold holds. simpl. split; [done|].
        split; [congruence|done].
      * right. rewrite Hcp in Hnull. simplify_eq. split; [|right; left; done].
        unfold moved_from; simpl. repeat split; congruence.
    + intros Hl. destruct (inv_containers _ _ Hinv l c' Hl) as [D' HD'].
      exists D'. destruct HD' as [?|[? ?]]; [by left|right].
      split; [done|by left].
  - intros l1 l2 c1 c2 p0. rewrite !lookup_insert.
    repeat case_decide; subst; intros Hc1 Hc2 Hs1 Hs2 Hp0;
      simplify_eq; simpl in *; simplify_eq; try done.
    all: first
      [ by eapply (inv_owned _ _ Hinv); eauto
      | exfalso;
        match goal with
        | Ha : containers ?m0 !! ?a = Some _, Hb : containers ?m0 !! ?b = Some _,
          Hd : ?a <> ?b |- _ =>
            apply Hd; by eapply (inv_owned _ _ Hinv a b); eauto
        end ].
  - apply (inv_objects _ _ Hinv).
  - apply (inv_next_block _ _ Hinv).
Qed.

Lemma move_assign_spec N Derived src this c s m m' :
  invariant N m -> src <> this ->
  containers m !! this = Some c -> containers m !! src = Some s ->
  m_vtable c = m_vtable s ->
  move_assign (table_of Derived) (storage_of src) (storage_of this) m = Ok tt m' ->
  invariant (after_move this src N) m'.
Proof.
  intros Hinv Hne Hthis Hsrc Hvt. unfold table_of.
  destruct (in_heap Derived); simpl; intros H.
  - by eapply heap_move_assign_spec.
  - eapply invariant_mono; [apply after_move_mono|].
    by eapply local_move_assign_spec.
Qed.

Lemma store_vtable_spec N this a m m' :
  invariant_except this N m -> store_vtable this a m = Ok tt m' ->
  invariant_except this N m' /\
  (forall l, l <> this -> containers m' !! l = containers m !! l) /\
  exists c', containers m' !! this = Some c' /\ m_vtable c' = a.
Proof.
  intros Hexc H. apply store_vtable_Ok in H as (c & Hc & ->). simpl.
  split; [|split].
  - eapply invariant_except_frame; [done|..]; simpl.
    + intros l Hl. by rewrite lookup_insert_ne.
    + eauto.
    + apply (exc_objects _ _ _ Hexc).
    + apply (exc_next_block _ _ _ Hexc).
  - intros l Hl. by rewrite lookup_insert_ne.
  - rewrite lookup_insert_eq. eauto.
Qed.

Lemma begin_lifetime_spec N this a m m' :
  invariant N m -> begin_lifetime this a m = Ok tt m' ->
  containers m !! this = None /\
  invariant_except this N m' /\
  (forall l, l <> this -> containers m' !! l = containers m !! l) /\
  containers m' !! this = Some (Container uninitialised a).
Proof.
  intros Hinv H. apply begin_lifetime_Ok in H as (Hnone & ->). simpl.
  split; [done|]. split; [|split].
  - eapply invariant_except_frame;
      [by apply invariant_except_of_invariant|..]; simpl.
    + intros l Hl. by rewrite lookup_insert_ne.
    + eauto.
    + apply (inv_objects _ _ Hinv).
    + apply (inv_next_block _ _ Hinv).
  - intros l Hl. by rewrite lookup_insert_ne.
  - by rewrite lookup_insert_eq.
Qed.

Lemma end_lifetime_spec N this m m' :
  invariant_except this N m -> end_lifetime this m = Ok tt m' ->
  invariant N m'.
Proof.
  intros Hexc H. apply set_containers_Ok in H as ->.
  eapply (invariant_except_absent this); simpl; [|apply lookup_delete_eq].
  eapply invariant_except_frame; [done|..]; simpl.
  - intros l Hl. by rewrite lookup_delete_ne.
  - eauto.
  - apply (exc_objects _ _ _ Hexc).
  - apply (exc_next_block _ _ _ Hexc).
Qed.


(** ** What the members do to the invariant *)

Lemma well_formed_linked (P : Prop) m c Derived :
  holds m c Derived \/ (moved_from c Derived /\ P) ->
  Derived ∈ linked /\ m_vtable c = vtable_address Derived.
Proof. intros [(? & ? & _)|[(? & ? & _) _]]; done. Qed.

Lemma check_typeid_Ok Derived d m u m' :
  check_typeid Derived d m = Ok u m' -> m' = m.
Proof.
  unfold check_typeid. destruct POLYMORPHIC_VALUE_RTTI_SUPPORTED; intros H.
  - apply bind_Ok in H as (o & m1 & Ho & H). apply deref_pure in Ho as ->.
    destruct (bool_decide _); [|by invert_ok].
    unfold throw_bad_polymorphic_value, bind, operator_new, throw in H.
    destruct (free_store m); discriminate H.
  - by invert_ok.
Qed.

Lemma dispatch_destroy_spec N this vt m m1 m' :
  invariant N m -> dispatch this m = Ok vt m1 ->
  destroy vt (storage_of this) m1 = Ok tt m' ->
  invariant_except this N m' /\
  (forall l, l <> this -> containers m' !! l = containers m !! l) /\
  is_Some (containers m !! this).
Proof.
  intros Hinv Hvt H. apply dispatch_Ok in Hvt as (-> & c & Hc & Hvt).
  destruct (inv_containers _ _ Hinv this c Hc) as [D HD].
  destruct (well_formed_linked _ _ _ _ HD) as [HDin HDvt].
  rewrite (Hvt D HDin HDvt) in H.
  eapply destroy_spec in H as (Hexc & Hothers & _); eauto.
  destruct HD as [?|[? _]]; [by left|by right].
Qed.

Lemma retarget_spec N this Derived vt m m1 m2 :
  invariant_except this N m -> Derived ∈ linked ->
  store_vtable this (vtable_address Derived) m = Ok tt m1 ->
  dispatch this m1 = Ok vt m2 ->
  m2 = m1 /\ vt = table_of Derived /\ invariant_except this N m1 /\
  (forall l, l <> this -> containers m1 !! l = containers m !! l) /\
  exists c, containers m1 !! this = Some c /\ m_vtable c = vtable_address Derived.
Proof.
  intros Hexc Hin Hstore Hvt.
  destruct (store_vtable_spec _ _ _ _ _ Hexc Hstore) as (Hexc1 & Hothers & c & Hc & Hc_vt).
  apply dispatch_Ok in Hvt as (-> & c' & Hc' & Hvt). simplify_eq.
  split; [done|]. split; [by apply Hvt|]. eauto.
Qed.

Lemma polymorphic_value_impl_value_spec N Derived cat this d m m' :
  invariant N m -> Derived ∈ linked ->
  polymorphic_value_impl_value Derived cat this d m = Ok tt m' ->
  invariant N m'.
Proof.
  intros Hinv Hin H. unfold polymorphic_value_impl_value in H.
  apply bind_Ok in H as (u & m1 & Hcheck & H). apply check_typeid_Ok in Hcheck as ->.
  apply bind_Ok in H as (u' & m1 & Hbegin & H).
  destruct u'. apply (begin_lifetime_spec N) in Hbegin as (_ & Hexc & _ & Hthis); [|done].
  apply on_unwind_Ok in H.
  eapply build_spec; eauto. apply initialises_forward, deref_pure.
Qed.

Lemma polymorphic_value_impl_in_place_spec N Derived this args m m' :
  invariant N m -> Derived ∈ linked ->
  polymorphic_value_impl_in_place Derived this args m = Ok tt m' ->
  invariant N m'.
Proof.
  intros Hinv Hin H. unfold polymorphic_value_impl_in_place in H.
  apply bind_Ok in H as (u' & m1 & Hbegin & H).
  destruct u'. apply (begin_lifetime_spec N) in Hbegin as (_ & Hexc & _ & Hthis); [|done].
  apply on_unwind_Ok in H.
  eapply build_spec; eauto. apply initialises_construct.
Qed.

Lemma polymorphic_value_impl_copy_spec N this src m m' :
  invariant N m ->
  polymorphic_value_impl_copy this src m = Ok tt m' ->
  invariant N m'.
Proof.
  intros Hinv H. unfold polymorphic_value_impl_copy in H.
  apply bind_Ok in H as (s & m1 & Hs & H). apply load_container_Ok in Hs as [-> Hs].
  apply bind_Ok in H as (u' & m1 & Hbegin & H).
  destruct u'. apply (begin_lifetime_spec N) in Hbegin as (_ & Hexc & _ & Hthis); [|done].
  apply on_unwind_Ok in H.
  apply bind_Ok in H as (vt & m2 & Hvt & H).
  apply dispatch_Ok in Hvt as (-> & c & Hc & Hvt). simplify_eq.
  destruct (inv_containers _ _ Hinv src s Hs) as [D HD].
  destruct (well_formed_linked _ _ _ _ HD) as [HDin HDvt].
  rewrite (Hvt D HDin HDvt) in H.
  eapply copy_spec; eauto.
Qed.

Lemma polymorphic_value_impl_move_spec N this src m m' :
  invariant N m ->
  polymorphic_value_impl_move this src m = Ok tt m' ->
  invariant (after_move this src N) m'.
Proof.
  intros Hinv H. unfold polymorphic_value_impl_move in H. apply noexcept_Ok in H.
  apply bind_Ok in H as (s & m1 & Hs & H). apply load_container_Ok in Hs as [-> Hs].
  apply bind_Ok in H as (u' & m1 & Hbegin & H).
  destruct u'.
  apply (begin_lifetime_spec N) in Hbegin as (Hnone & Hexc & Hothers & Hthis); [|done].
  assert (src <> this) as Hne by congruence.
  apply bind_Ok in H as (vt & m2 & Hvt & H).
  apply dispatch_Ok in Hvt as (-> & c & Hc & Hvt). simplify_eq.
  destruct (inv_containers _ _ Hinv src s Hs) as [D HD].
  destruct (well_formed_linked _ _ _ _ HD) as [HDin HDvt].
  rewrite (Hvt D HDin HDvt) in H.
  eapply move_spec; eauto.
  intros s'. rewrite Hothers by done. simpl. congruence.
Qed.

Lemma operator_assign_copy_spec N this src m m' :
  invariant N m ->
  operator_assign_copy this src m = Ok tt m' ->
  invariant N m'.
Proof.
  intros Hinv H. unfold operator_assign_copy in H.
  destruct (src =? this) eqn:Hself; [by invert_ok|]. apply Z.eqb_neq in Hself.
  apply bind_Ok in H as (c & m1 & Hc & H). apply load_container_Ok in Hc as [-> Hc].
  apply bind_Ok in H as (s & m1 & Hs & H). apply load_container_Ok in Hs as [-> Hs].
  destruct (inv_containers _ _ Hinv src s Hs) as [Ds HDs].
  destruct (well_formed_linked _ _ _ _ HDs) as [HDsin HDsvt].
  destruct (m_vtable c =? m_vtable s) eqn:Hsame.
  - apply bind_Ok in H as (vt & m1 & Hvt & H).
    apply dispatch_Ok in Hvt as (-> & c' & Hc' & Hvt). simplify_eq.
    apply Z.eqb_eq in Hsame.
    rewrite (Hvt Ds HDsin ltac:(congruence)) in H.
    by eapply copy_assign_spec.
  - apply bind_Ok in H as (vt & m1 & Hvt & H).
    apply bind_Ok in H as (u & m2 & Hdestroy & H). destruct u.
    destruct (dispatch_destroy_spec _ _ _ _ _ _ Hinv Hvt Hdestroy)
      as (Hexc & Hothers & _).
    apply bind_Ok in H as (u & m3 & Hstore & H). destruct u.
    apply bind_Ok in H as (vt' & m4 & Hvt' & H). rewrite HDsvt in Hstore.
    destruct (retarget_spec _ _ _ _ _ _ _ Hexc HDsin Hstore Hvt')
      as (-> & -> & Hexc' & _ & c' & Hc' & Hvtc').
    eapply copy_spec; eauto.
Qed.

Lemma operator_assign_move_spec N this src m m' :
  invariant N m ->
  operator_assign_move this src m = Ok tt m' ->
  invariant (after_move this src N) m'.
Proof.
  intros Hinv H. unfold operator_assign_move in H. apply noexcept_Ok in H.
  destruct (src =? this) eqn:Hself.
  { invert_ok. eapply invariant_mono; [apply after_move_mono|done]. }
  apply Z.eqb_neq in Hself.
  apply bind_Ok in H as (c & m1 & Hc & H). apply load_container_Ok in Hc as [-> Hc].
  apply bind_Ok in H as (s & m1 & Hs & H). apply load_container_Ok in Hs as [-> Hs].
  destruct (inv_containers _ _ Hinv src s Hs) as [Ds HDs].
  destruct (well_formed_linked _ _ _ _ HDs) as [HDsin HDsvt].
  destruct (m_vtable c =? m_vtable s) eqn:Hsame.
  - apply bind_Ok in H as (vt & m1 & Hvt & H).
    apply dispatch_Ok in Hvt as (-> & c' & Hc' & Hvt). simplify_eq.
    apply Z.eqb_eq in Hsame.
    rewrite (Hvt Ds HDsin ltac:(congruence)) in H.
    by eapply move_assign_spec.
  - apply bind_Ok in H as (vt & m1 & Hvt & H).
    apply bind_Ok in H as (u & m2 & Hdestroy & H). destruct u.
    destruct (dispatch_destroy_spec _ _ _ _ _ _ Hinv Hvt Hdestroy)
      as (Hexc & Hothers & _).
    apply bind_Ok in H as (u & m3 & Hstore & H). destruct u.
    apply bind_Ok in H as (vt' & m4 & Hvt' & H). rewrite HDsvt in Hstore.
    destruct (retarget_spec _ _ _ _ _ _ _ Hexc HDsin Hstore Hvt')
      as (-> & -> & Hexc' & Hothers' & c' & Hc' & Hvtc').
    eapply move_spec; eauto.
    intros s'. rewrite Hothers', Hothers by done. congruence.
Qed.


Lemma operator_assign_value_copy_spec N Derived this src m m' :
  invariant N m -> Derived ∈ linked ->
  operator_assign_value_copy Derived this src m = Ok tt m' ->
  invariant N m'.
Proof.
  intros Hinv Hin H. unfold operator_assign_value_copy in H.
  apply bind_Ok in H as (u & m1 & Hcheck & H). apply check_typeid_Ok in Hcheck as ->.
  apply bind_Ok in H as (c & m1 & Hc & H). apply load_container_Ok in Hc as [-> Hc].
  destruct (m_vtable c =? vtable_address Derived) eqn:Hsame.
  - apply bind_Ok in H as (vt & m1 & Hvt & H).
    apply dispatch_Ok in Hvt as (-> & c' & Hc' & Hvt). simplify_eq.
    apply Z.eqb_eq in Hsame. rewrite (Hvt Derived Hin Hsame) in H.
    by eapply copy_assign_raw_spec.
  - apply bind_Ok in H as (vt & m1 & Hvt & H).
    apply bind_Ok in H as (u' & m2 & Hdestroy & H). destruct u'.
    destruct (dispatch_destroy_spec _ _ _ _ _ _ Hinv Hvt Hdestroy)
      as (Hexc & Hothers & _).
    apply bind_Ok in H as (u' & m3 & Hstore & H). destruct u'.
    apply bind_Ok in H as (vt' & m4 & Hvt' & H).
    destruct (retarget_spec _ _ _ _ _ _ _ Hexc Hin Hstore Hvt')
      as (-> & -> & Hexc' & _ & c' & Hc' & Hvtc').
    eapply copy_raw_spec; eauto.
Qed.

Lemma operator_assign_value_move_spec N Derived this src m m' :
  invariant N m -> Derived ∈ linked ->
  operator_assign_value_move Derived this src m = Ok tt m' ->
  invariant N m'.
Proof.
  intros Hinv Hin H. unfold operator_assign_value_move in H.
  apply bind_Ok in H as (u & m1 & Hcheck & H). apply check_typeid_Ok in Hcheck as ->.
  apply bind_Ok in H as (c & m1 & Hc & H). apply load_container_Ok in Hc as [-> Hc].
  destruct (m_vtable c =? vtable_address Derived) eqn:Hsame.
  - apply bind_Ok in H as (vt & m1 & Hvt & H).
    apply dispatch_Ok in Hvt as (-> & c' & Hc' & Hvt). simplify_eq.
    apply Z.eqb_eq in Hsame. rewrite (Hvt Derived Hin Hsame) in H.
    by eapply move_assign_raw_spec.
  - apply bind_Ok in H as (vt & m1 & Hvt & H).
    apply bind_Ok in H as (u' & m2 & Hdestroy & H). destruct u'.
    destruct (dispatch_destroy_spec _ _ _ _ _ _ Hinv Hvt Hdestroy)
      as (Hexc & Hothers & _).
    apply bind_Ok in H as (u' & m3 & Hstore & H). destruct u'.
    apply bind_Ok in H as (vt' & m4 & Hvt' & H).
    destruct (retarget_spec _ _ _ _ _ _ _ Hexc Hin Hstore Hvt')
      as (-> & -> & Hexc' & _ & c' & Hc' & Hvtc').
    eapply move_raw_spec; eauto.
Qed.

Lemma emplace_spec N Derived this args m m' :
  invariant N m -> Derived ∈ linked ->
  emplace Derived this args m = Ok tt m' ->
  invariant N m'.
Proof.
  intros Hinv Hin H. unfold emplace in H.
  apply bind_Ok in H as (vt & m1 & Hvt & H).
  apply bind_Ok in H as (u' & m2 & Hdestroy & H). destruct u'.
  destruct (dispatch_destroy_spec _ _ _ _ _ _ Hinv Hvt Hdestroy)
    as (Hexc & Hothers & _).
  apply bind_Ok in H as (u' & m3 & Hstore & H). destruct u'.
  destruct (store_vtable_spec _ _ _ _ _ Hexc Hstore) as (Hexc' & _ & c' & Hc' & Hvtc').
  eapply build_spec; eauto. apply initialises_construct.
Qed.

Lemma destructor_spec N this m m' :
  invariant N m -> destructor this m = Ok tt m' -> invariant N m'.
Proof.
  intros Hinv H. unfold destructor in H.
  apply bind_Ok in H as (vt & m1 & Hvt & H).
  apply bind_Ok in H as (u' & m2 & Hdestroy & H). destruct u'.
  destruct (dispatch_destroy_spec _ _ _ _ _ _ Hinv Hvt Hdestroy)
    as (Hexc & Hothers & _).
  by eapply end_lifetime_spec.
Qed.

Lemma instantiate_Instantiated {A} Derived (member f : A) :
  instantiate Derived member = Instantiated f -> f = member.
Proof.
  unfold instantiate, instantiation_bind.
  destruct (allocations_allowed Derived); [|discriminate].
  destruct (get_vtable Derived); [|discriminate]. congruence.
Qed.

(** ** Every statement keeps the invariant *)

(** C3, as amended.  Every live container holds exactly one valid object
    whose class and storage kind its table pointer matches, unless it has
    been the source of a move (or was filled by moving from such a
    container), when it may instead hold a null pointer under the heap table
    of its class; and every statement that returns normally (construction,
    copy, move, assignment, emplace, destruction) keeps it so. *)
Theorem statements_preserve_invariant N st f m m' :
  invariant N m -> linked_statement st ->
  compile st = Instantiated f ->
  f m = Ok tt m' ->
  invariant (may_be_moved_from st N) m' /\
  (forall this c, containers m' !! this = Some c ->
     ~ may_be_moved_from st N this -> exists Derived, holds m' c Derived).
Proof.
  intros Hinv Hlinked Hcompile Hrun.
  cut (invariant (may_be_moved_from st N) m').
  { intros Hinv'. split; [done|]. intros this c Hc Hnot.
    destruct (inv_containers _ _ Hinv' this c Hc) as [D [?|[_ ?]]]; [eauto|done]. }
  destruct st as [D cat this d|D this args|this src|this src|this src|this src
                 |D cat this d|D this args|this]; simpl in *;
    try (specialize (Hlinked D eq_refl)).
  - apply instantiate_Instantiated in Hcompile as ->.
    by eapply polymorphic_value_impl_value_spec.
  - apply instantiate_Instantiated in Hcompile as ->.
    by eapply polymorphic_value_impl_in_place_spec.
  - injection Hcompile as <-. by eapply polymorphic_value_impl_copy_spec.
  - injection Hcompile as <-. by eapply polymorphic_value_impl_move_spec.
  - injection Hcompile as <-. by eapply operator_assign_copy_spec.
  - injection Hcompile as <-. by eapply operator_assign_move_spec.
  - destruct cat; apply instantiate_Instantiated in Hcompile as ->.
    + by eapply operator_assign_value_copy_spec.
    + by eapply operator_assign_value_move_spec.
  - apply instantiate_Instantiated in Hcompile as ->. by eapply emplace_spec.
  - injection Hcompile as <-. by eapply destructor_spec.
Qed.


(** ** Moving a heap-held container *)

Lemma bind_eq {A B} (f : M A) (k : A -> M B) m a m1 :
  f m = Ok a m1 -> bind f k m = k a m1.
Proof. unfold bind. by intros ->. Qed.

Lemma load_container_eq this c m :
  containers m !! this = Some c -> load_container this m = Ok c m.
Proof. unfold load_container. by intros ->. Qed.

Lemma dispatch_eq this c Derived m :
  containers m !! this = Some c -> Derived ∈ linked ->
  m_vtable c = vtable_address Derived ->
  dispatch this m = Ok (table_of Derived) m.
Proof.
  intros Hc Hin Hvt. unfold dispatch.
  rewrite (bind_eq _ _ _ _ _ (load_container_eq _ _ _ Hc)), Hvt.
  by apply load_vtable_linked.
Qed.

(** C5. For a heap-stored class, move construction gives the destination the
    pointer of the source and nulls the pointer of the source, and move
    assignment between containers of the same class swaps the two pointers;
    neither copies or moves the object, allocates or deallocates: the trace,
    the objects and the allocator are untouched. *)
Theorem heap_move_only_moves_pointers Derived this src q m :
  Derived ∈ linked -> in_heap Derived = true ->
  containers m !! src = Some (Container (heap_buffer q) (vtable_address Derived)) ->
  (containers m !! this = None ->
   exists m',
     polymorphic_value_impl_move this src m = Ok tt m' /\
     containers m' =
       <[src := Container (heap_buffer nullptr) (vtable_address Derived)]>
         (<[this := Container (heap_buffer q) (vtable_address Derived)]> (containers m)) /\
     trace m' = trace m /\ objects m' = objects m /\
     next_block m' = next_block m /\ free_store m' = free_store m) /\
  (forall p,
     this <> src ->
     containers m !! this = Some (Container (heap_buffer p) (vtable_address Derived)) ->
     exists m',
       operator_assign_move this src m = Ok tt m' /\
       containers m' =
         <[this := Container (heap_buffer q) (vtable_address Derived)]>
           (<[src := Container (heap_buffer p) (vtable_address Derived)]> (containers m)) /\
       trace m' = trace m /\ objects m' = objects m /\
       next_block m' = next_block m /\ free_store m' = free_store m).
Proof.
  intros Hin Hkind Hsrc. split.
  - intros Hthis. assert (src <> this) as Hne by congruence.
    eexists. split.
    + unfold polymorphic_value_impl_move, noexcept.
      rewrite (bind_eq _ _ _ _ _ (load_container_eq _ _ _ Hsrc)).
      unfold begin_lifetime at 1. unfold bind at 1. rewrite Hthis. simpl.
      erewrite bind_eq; [|eapply (dispatch_eq this); [apply lookup_insert_eq|done..]].
      unfold table_of. rewrite Hkind. simpl.
      unfold heap_storage.move, noexcept, load_pointer, load_storage,
        store_storage, load_container, set_containers, bind, ret. simpl.
      rewrite lookup_insert_ne, Hsrc by done. simpl.
      rewrite lookup_insert_eq. simpl.
      rewrite lookup_insert_ne, lookup_insert_ne, Hsrc by done. simpl.
      reflexivity.
    + simpl. by rewrite insert_insert_eq.
  - intros p Hne Hthis. eexists. split.
    + unfold operator_assign_move, noexcept.
      rewrite (proj2 (Z.eqb_neq src this)) by done.
      rewrite (bind_eq _ _ _ _ _ (load_container_eq _ _ _ Hthis)).
      rewrite (bind_eq _ _ _ _ _ (load_container_eq _ _ _ Hsrc)). simpl.
      rewrite Z.eqb_refl.
      erewrite bind_eq; [|by eapply (dispatch_eq this)].
      unfold table_of. rewrite Hkind. simpl.
      unfold heap_storage.move_assign, noexcept, load_pointer, load_storage,
        store_storage, load_container, set_containers, bind, ret. simpl.
      rewrite Hsrc. simpl. rewrite Hthis. simpl. rewrite Hsrc. simpl.
      rewrite lookup_insert_ne, Hthis by done. simpl.
      reflexivity.
    + done.
Qed.


(** ** The two paths of assignment *)

Lemma bind_ext {A B} (f : M A) (k1 k2 : A -> M B) m :
  (forall a m1, f m = Ok a m1 -> k1 a m1 = k2 a m1) ->
  bind f k1 m = bind f k2 m.
Proof. unfold bind. destruct (f m); eauto. Qed.

Lemma noexcept_ext {A} (f g : M A) m : f m = g m -> noexcept f m = noexcept g m.
Proof. unfold noexcept. by intros ->. Qed.

Lemma vtable_address_eq_iff D1 D2 :
  D1 ∈ linked -> D2 ∈ linked ->
  (vtable_address D1 =? vtable_address D2) = bool_decide (D1 = D2).
Proof.
  intros H1 H2. destruct (decide (D1 = D2)) as [->|Hne].
  - by rewrite Z.eqb_refl, bool_decide_eq_true_2.
  - rewrite bool_decide_eq_false_2 by done. apply Z.eqb_neq. eauto.
Qed.

Lemma rebuild_eq this Derived (k : polymorphic_value_vtable -> M unit) m :
  Derived ∈ linked ->
  (let! _ := store_vtable this (vtable_address Derived) in
   let! vt := dispatch this in k vt) m
  = (let! _ := store_vtable this (vtable_address Derived) in k (table_of Derived)) m.
Proof.
  intros Hin. apply bind_ext. intros [] m1 H.
  apply store_vtable_Ok in H as (c & Hc & ->).
  apply bind_eq. eapply dispatch_eq; simpl; [apply lookup_insert_eq|done..].
Qed.

Lemma destroy_rebuild_eq this c Current Incoming
    (k : polymorphic_value_vtable -> M unit) m :
  containers m !! this = Some c -> Current ∈ linked ->
  m_vtable c = vtable_address Current -> Incoming ∈ linked ->
  (let! vt := dispatch this in
   let! _ := destroy vt (storage_of this) in
   let! _ := store_vtable this (vtable_address Incoming) in
   let! vt := dispatch this in k vt) m
  = (let! _ := destroy (table_of Current) (storage_of this) in
     let! _ := store_vtable this (vtable_address Incoming) in
     k (table_of Incoming)) m.
Proof.
  intros Hc Hcur Hvt Hinc.
  rewrite (bind_eq _ _ _ _ _ (dispatch_eq _ _ _ _ Hc Hcur Hvt)).
  apply bind_ext. intros [] m1 _. by apply rebuild_eq.
Qed.

(** The operator takes the path the comparison of the tables selects. *)
Lemma run_assignment_eq a Current Incoming this src c m :
  Current ∈ linked -> Incoming ∈ linked ->
  containers m !! this = Some c -> m_vtable c = vtable_address Current ->
  incoming a Incoming this src m ->
  run_assignment a Incoming this src m =
    if decide (Current = Incoming) then
      operator_noexcept a
        (assign_entry a (table_of Current) (source_of a src) (storage_of this)) m
    else
      operator_noexcept a
        (let! _ := destroy (table_of Current) (storage_of this) in
         let! _ := store_vtable this (vtable_address Incoming) in
         build_entry a (table_of Incoming) (source_of a src) (storage_of this)) m.
Proof.
  intros Hcur Hinc Hc Hvt Hsrc.
  pose proof (vtable_address_eq_iff _ _ Hcur Hinc) as Hcmp.
  destruct a; simpl in *.
  - destruct Hsrc as (Hne & s & Hs & Hsvt).
    unfold operator_assign_copy. rewrite (proj2 (Z.eqb_neq src this)) by done.
    rewrite (bind_eq _ _ _ _ _ (load_container_eq _ _ _ Hc)).
    rewrite (bind_eq _ _ _ _ _ (load_container_eq _ _ _ Hs)).
    rewrite Hvt, Hsvt, Hcmp. case_decide; simpl.
    + by rewrite (bind_eq _ _ _ _ _ (dispatch_eq _ _ _ _ Hc Hcur Hvt)).
    + by eapply destroy_rebuild_eq.
  - destruct Hsrc as (Hne & s & Hs & Hsvt).
    unfold operator_assign_move. rewrite (proj2 (Z.eqb_neq src this)) by done.
    case_decide; apply noexcept_ext.
    + rewrite (bind_eq _ _ _ _ _ (load_container_eq _ _ _ Hc)).
      rewrite (bind_eq _ _ _ _ _ (load_container_eq _ _ _ Hs)).
      rewrite Hvt, Hsvt, Hcmp, bool_decide_eq_true_2 by done.
      by rewrite (bind_eq _ _ _ _ _ (dispatch_eq _ _ _ _ Hc Hcur Hvt)).
    + rewrite (bind_eq _ _ _ _ _ (load_container_eq _ _ _ Hc)).
      rewrite (bind_eq _ _ _ _ _ (load_container_eq _ _ _ Hs)).
      rewrite Hvt, Hsvt, Hcmp, bool_decide_eq_false_2 by done.
      by eapply destroy_rebuild_eq.
  - unfold operator_assign_value_copy.
    rewrite (bind_eq _ _ _ _ _ Hsrc).
    rewrite (bind_eq _ _ _ _ _ (load_container_eq _ _ _ Hc)).
    rewrite Hvt, Hcmp. case_decide; simpl.
    + by rewrite (bind_eq _ _ _ _ _ (dispatch_eq _ _ _ _ Hc Hcur Hvt)).
    + by eapply destroy_rebuild_eq.
  - unfold operator_assign_value_move.
    rewrite (bind_eq _ _ _ _ _ Hsrc).
    rewrite (bind_eq _ _ _ _ _ (load_container_eq _ _ _ Hc)).
    rewrite Hvt, Hcmp. case_decide; simpl.
    + by rewrite (bind_eq _ _ _ _ _ (dispatch_eq _ _ _ _ Hc Hcur Hvt)).
    + by eapply destroy_rebuild_eq.
Qed.


Lemma destroy_trace_spec Current this c m m' :
  containers m !! this = Some c -> holds m c Current ->
  destroy (table_of Current) (storage_of this) m = Ok tt m' ->
  trace m' = trace m ++ destroy_trace Current.
Proof.
  intros Hc (_ & _ & Hs). unfold table_of, destroy_trace.
  destruct (in_heap Current); simpl; intros H.
  - unfold heap_storage.destroy in H.
    apply bind_Ok in H as (p & m1 & Hp & H).
    apply load_pointer_Ok in Hp as (-> & c0 & Hc0 & Hcp). simplify_eq.
    rewrite Hcp in Hs. destruct Hs as (_ & Hnull & _).
    apply delete_expression_Ok in H as [[-> _]|(_ & _ & ->)]; [done|].
    simpl. by rewrite <- app_assoc.
  - unfold local_storage.destroy in H. by invert_entry.
Qed.


(** ** Which members honour their [noexcept] *)

Create HintDb quiet.

Lemma quiet_bind {A B} (f : M A) (k : A -> M B) m :
  quiet (f m) -> (forall a m1, f m = Ok a m1 -> quiet (k a m1)) ->
  quiet (bind f k m).
Proof. unfold bind. destruct (f m); simpl; eauto. Qed.

Lemma quiet_noexcept {A} (f : M A) m : quiet (f m) -> quiet (noexcept f m).
Proof. unfold noexcept. by destruct (f m). Qed.

Lemma quiet_ret {A} (a : A) m : quiet (ret a m).
Proof. done. Qed.

Lemma quiet_undefined {A} m : quiet (@undefined A m).
Proof. done. Qed.

Lemma quiet_log e m : quiet (log e m).
Proof. done. Qed.

Lemma quiet_set_containers f m : quiet (set_containers f m).
Proof. done. Qed.

Lemma quiet_set_objects f m : quiet (set_objects f m).
Proof. done. Qed.

Lemma quiet_load_container this m : quiet (load_container this m).
Proof. unfold load_container. by destruct (containers m !! this). Qed.

Lemma quiet_deref p m : quiet (deref p m).
Proof. unfold deref. by destruct (objects m !! p). Qed.

#[local] Hint Resolve quiet_ret quiet_undefined quiet_log quiet_set_containers
  quiet_set_objects quiet_load_container quiet_deref quiet_noexcept : quiet.

Ltac quiet_steps :=
  repeat first
    [ apply quiet_noexcept
    | apply quiet_bind; [|intros ? ? ?]
    | match goal with |- quiet (match ?x with _ => _ end _) => destruct x end
    | match goal with |- quiet ((if ?x then _ else _) _) => destruct x end
    | solve [eauto with quiet] ].

Lemma quiet_load_storage ptr m : quiet (load_storage ptr m).
Proof. destruct ptr; simpl; quiet_steps. Qed.

Lemma quiet_store_storage ptr s m : quiet (store_storage ptr s m).
Proof. destruct ptr; simpl; quiet_steps. Qed.

#[local] Hint Resolve quiet_load_storage quiet_store_storage : quiet.

Lemma quiet_load_object ptr m : quiet (load_object ptr m).
Proof. destruct ptr; simpl; quiet_steps. Qed.

Lemma quiet_load_pointer ptr m : quiet (load_pointer ptr m).
Proof. unfold load_pointer. quiet_steps. Qed.

Lemma quiet_store_object ptr o m : quiet (store_object ptr o m).
Proof. destruct ptr; simpl; quiet_steps. Qed.

Lemma quiet_store_vtable this a m : quiet (store_vtable this a m).
Proof. unfold store_vtable. quiet_steps. Qed.

Lemma quiet_operator_delete p m : quiet (operator_delete p m).
Proof. unfold operator_delete. quiet_steps. Qed.

#[local] Hint Resolve quiet_load_object quiet_load_pointer quiet_store_object
  quiet_store_vtable quiet_operator_delete : quiet.

Lemma quiet_delete_expression Derived p m : quiet (delete_expression Derived p m).
Proof. unfold delete_expression. destruct (p =? nullptr); quiet_steps. Qed.

Lemma quiet_call b Derived e m : b <> Throws -> quiet (call b Derived e m).
Proof. by destruct b. Qed.

Lemma quiet_dispatch this m : quiet (dispatch this m).
Proof.
  unfold dispatch. quiet_steps. unfold load_vtable. by destruct (find _ _).
Qed.

#[local] Hint Resolve quiet_delete_expression quiet_dispatch : quiet.

Lemma dispatch_table this m vt m' :
  dispatch this m = Ok vt m' -> exists Derived, vt = table_of Derived.
Proof.
  unfold dispatch. intros H. apply bind_Ok in H as (c & m1 & _ & H).
  unfold load_vtable in H. destruct (find _ _) as [D|]; invert_ok. eauto.
Qed.

(** A class stored inline has a [noexcept] move constructor. *)
Lemma inline_nothrow_move Derived :
  in_heap Derived = false -> move_constructor Derived = Noexcept.
Proof.
  intros H. apply store_in_heap_false_iff in H as (_ & _ & H).
  by apply bool_decide_eq_true in H.
Qed.

Lemma quiet_destroy Derived ptr m : quiet (destroy (table_of Derived) ptr m).
Proof.
  unfold table_of. destruct (in_heap Derived); simpl.
  - unfold heap_storage.destroy. quiet_steps.
  - unfold local_storage.destroy. quiet_steps.
Qed.

(** The move entry of every table honours its [noexcept]: the heap one
    moves pointers, the inline one runs a [noexcept] move constructor. *)
Lemma quiet_move Derived src dst m : quiet (move (table_of Derived) src dst m).
Proof.
  unfold table_of. destruct (in_heap Derived) eqn:Hkind; simpl.
  - unfold heap_storage.move. quiet_steps.
  - unfold local_storage.move, move_construct. quiet_steps.
    apply quiet_call. by rewrite (inline_nothrow_move _ Hkind).
Qed.

(** The move-assign entry honours its [noexcept] unless the class is stored
    inline and its move assignment operator raises. *)
Lemma quiet_move_assign Derived src dst m :
  (in_heap Derived = false -> move_assignment Derived <> Throws) ->
  quiet (move_assign (table_of Derived) src dst m).
Proof.
  intros Hassign. unfold table_of. destruct (in_heap Derived) eqn:Hkind; simpl.
  - unfold heap_storage.move_assign. quiet_steps.
  - unfold local_storage.move_assign, assign_move. quiet_steps.
    apply quiet_call. by apply Hassign.
Qed.

(** X26. Move construction of a container never raises and never
    terminates, whatever the machine: the move entry of a heap table moves
    pointers, and that of an inline table runs a move constructor that the
    storage-kind decision requires to be [noexcept]. *)
Lemma move_construction_honours_noexcept this src m :
  quiet (polymorphic_value_impl_move this src m).
Proof.
  unfold polymorphic_value_impl_move. apply quiet_noexcept.
  apply quiet_bind; [eauto with quiet|]. intros s m1 _.
  apply quiet_bind.
  { unfold begin_lifetime. by destruct (containers m1 !! this). }
  intros u m2 _. apply quiet_bind; [eauto with quiet|]. intros vt m3 Hvt.
  apply dispatch_table in Hvt as [D ->]. apply quiet_move.
Qed.

(** X27. Move assignment between containers never raises, and terminates
    only through the move assignment operator of a class stored inline: when
    no inline-stored class of the program has a move assignment operator
    that raises, it neither raises nor terminates, whatever the machine. *)
Lemma move_assignment_honours_noexcept this src m :
  (forall Derived, Derived ∈ linked -> in_heap Derived = false ->
                   move_assignment Derived <> Throws) ->
  quiet (operator_assign_move this src m).
Proof.
  intros Hassign. unfold operator_assign_move. apply quiet_noexcept.
  destruct (src =? this); [done|].
  apply quiet_bind; [eauto with quiet|]. intros c m1 _.
  apply quiet_bind; [eauto with quiet|]. intros s m2 _.
  destruct (m_vtable c =? m_vtable s).
  - apply quiet_bind; [eauto with quiet|]. intros vt m3 Hvt.
    unfold dispatch in Hvt. apply bind_Ok in Hvt as (c' & m4 & _ & Hvt).
    unfold load_vtable in Hvt. destruct (find _ _) as [D|] eqn:Hfind; invert_ok.
    apply quiet_move_assign. apply Hassign.
    apply find_some in Hfind as [HD _]. by apply list_elem_of_In.
  - apply quiet_bind; [eauto with quiet|]. intros vt m3 Hvt.
    apply dispatch_table in Hvt as [D ->].
    apply quiet_bind; [apply quiet_destroy|]. intros u m4 _.
    apply quiet_bind; [eauto with quiet|]. intros u' m5 _.
    apply quiet_bind; [eauto with quiet|]. intros vt m6 Hvt.
    apply dispatch_table in Hvt as [D' ->]. apply quiet_move.
Qed.

(** ** Allocation failure *)

Lemma operator_new_bad_alloc m :
  free_store m = 0%nat -> operator_new m = Throw bad_alloc m.
Proof. unfold operator_new. by intros ->. Qed.

Lemma new_expression_bad_alloc init m :
  free_store m = 0%nat -> new_expression init m = Throw bad_alloc m.
Proof.
  intros H. unfold new_expression, bind. by rewrite operator_new_bad_alloc.
Qed.

(** [build] lets the failure of its allocation through. *)
Lemma build_bad_alloc Derived init storage m :
  in_heap Derived = true -> free_store m = 0%nat ->
  build Derived init storage m = Throw bad_alloc m.
Proof.
  intros Hkind H. unfold build, bind.
  by rewrite Hkind, new_expression_bad_alloc.
Qed.

(** So does [heap_storage::copy_raw]. *)
Lemma copy_raw_bad_alloc Derived src dst m :
  free_store m = 0%nat ->
  heap_storage.copy_raw Derived src dst m = Throw bad_alloc m.
Proof.
  intros H. unfold heap_storage.copy_raw, bind.
  by rewrite new_expression_bad_alloc.
Qed.

(** [heap_storage::move_raw] is [noexcept] and does not. *)
Lemma move_raw_bad_alloc Derived src dst m :
  free_store m = 0%nat ->
  heap_storage.move_raw Derived src dst m = Terminate.
Proof.
  intros H. unfold heap_storage.move_raw, noexcept, bind.
  by rewrite new_expression_bad_alloc.
Qed.


(** ** The address of a table encodes the storage kind *)

Lemma mod_aligned_plus base w :
  0 < w -> base mod (w * 2) = 0 -> (base + w) mod (w * 2) = w.
Proof.
  intros Hw Hbase.
  rewrite Z.add_mod by lia.
  rewrite Hbase, Z.add_0_l, Z.mod_mod by lia.
  apply Z.mod_small. lia.
Qed.

Lemma get_vtable_Instantiated Derived a :
  get_vtable Derived = Instantiated a ->
  a = vtable_address Derived /\
  (in_heap Derived = true -> offsetof_odd_aligned_vtable_vtable = alignof_voidp).
Proof.
  unfold get_vtable. destruct (in_heap Derived); simpl.
  - destruct (offsetof_odd_aligned_vtable_vtable =? alignof_voidp) eqn:Hoff;
      simpl; [|discriminate].
    apply Z.eqb_eq in Hoff. by intros [= <-].
  - by intros [= <-].
Qed.

Lemma storage_is_local_vtable_address Derived :
  (in_heap Derived = true -> offsetof_odd_aligned_vtable_vtable = alignof_voidp) ->
  storage_is_local (vtable_address Derived) = negb (in_heap Derived).
Proof.
  intros Hoff. unfold storage_is_local, vtable_address.
  destruct (in_heap Derived); simpl.
  - rewrite Hoff by done.
    rewrite (mod_aligned_plus _ _ alignof_voidp_pos (static_vtable_alignas Derived)).
    apply Z.eqb_neq. lia.
  - by rewrite static_vtable_alignas.
Qed.

(** C1. The table [get] returns for an inline-stored class has an address
    congruent to 0 modulo twice the pointer alignment; the table returned for
    a heap-stored class has an address congruent to one pointer alignment, the
    offset of the embedded table in its wrapper being exactly that; and
    [storage_is_local] recovers the storage kind from the address alone. *)
Theorem vtable_address_encodes_storage_kind Derived a :
  get_vtable Derived = Instantiated a ->
  (if in_heap Derived
   then a mod (alignof_voidp * 2) = alignof_voidp /\
        offsetof_odd_aligned_vtable_vtable = alignof_voidp
   else a mod (alignof_voidp * 2) = 0) /\
  storage_is_local a = negb (in_heap Derived).
Proof.
  intros Hget. apply get_vtable_Instantiated in Hget as [-> Hoff].
  split; [|by apply storage_is_local_vtable_address].
  unfold vtable_address. destruct (in_heap Derived).
  - rewrite Hoff by done. split; [|done].
    apply mod_aligned_plus; [apply alignof_voidp_pos|apply static_vtable_alignas].
  - apply static_vtable_alignas.
Qed.

(** ** The storage-kind decision *)



(** [build] puts the object where the decision says, whatever the
    initialiser, the container and the machine. *)
Lemma build_storage_kind Derived init this m m' :
  build Derived init (storage_of this) m = Ok tt m' ->
  exists c', containers m' !! this = Some c' /\
    match m_storage c' with
    | local_buffer _ => in_heap Derived = false
    | heap_buffer _ => in_heap Derived = true
    | uninitialised => False
    end.
Proof.
  unfold build, new_expression, store_storage, load_container, set_containers,
    set_objects, on_unwind, operator_new, bind, ret.
  destruct (in_heap Derived).
  - destruct (free_store m); [discriminate|].
    match goal with |- context [init ?m0] => destruct (init m0) as [o m1| | |] end;
      simpl; try discriminate.
    destruct (containers m1 !! this) eqn:Hthis; simpl; [|discriminate].
    intros [= <-]. simpl. rewrite lookup_insert_eq.
    eexists; split; [reflexivity|done].
  - destruct (init m) as [o m1| | |]; simpl; try discriminate.
    destruct (containers m1 !! this) eqn:Hthis; simpl; [|discriminate].
    intros [= <-]. simpl. rewrite lookup_insert_eq.
    eexists; split; [reflexivity|done].
Qed.

(** C2. A class is stored inline exactly when its size is at most the inline
    capacity, its alignment is at most the inline alignment and it is
    nothrow-move-constructible, and is heap-owned otherwise; the decision
    depends on the class and the two parameters only, and [build] follows it
    for every container in every machine. *)
Theorem storage_kind_decision Derived :
  (in_heap Derived = false <->
   sizeof Derived <= SboSize /\ alignof Derived <= SboAlignment /\
   is_nothrow_move_constructible Derived = true) /\
  (forall init this m m',
     build Derived init (storage_of this) m = Ok tt m' ->
     exists c', containers m' !! this = Some c' /\
       (in_heap Derived = false <-> exists o, m_storage c' = local_buffer o) /\
       (in_heap Derived = true <-> exists p, m_storage c' = heap_buffer p)).
Proof.
  split; [apply store_in_heap_false_iff|].
  intros init this m m' Hbuild.
  destruct (build_storage_kind _ _ _ _ _ Hbuild) as (c' & Hc' & Hkind).
  exists c'. split; [done|].
  destruct (m_storage c'); [done| |]; rewrite Hkind;
    (split; split; first [by eauto | by intros [? ?]]).
Qed.

(** ** Self-assignment *)

(** C8. Assigning a container to itself, by copy or by move, returns before
    any table is consulted and leaves the whole machine as it was: no object
    is destroyed, built or assigned, and the table pointer is unchanged. *)
Theorem self_assignment_is_noop this m :
  operator_assign_copy this this m = Ok tt m /\
  operator_assign_move this this m = Ok tt m.
Proof.
  unfold operator_assign_copy, operator_assign_move, noexcept.
  rewrite Z.eqb_refl. done.
Qed.

(** ** The slicing check *)

Lemma check_typeid_slices Derived d o m :
  POLYMORPHIC_VALUE_RTTI_SUPPORTED = true ->
  objects m !! d = Some o -> dyn o <> Derived ->
  forall k : unit -> M unit,
    rejected m ((let! u := check_typeid Derived d in k u) m).
Proof.
  intros Hrtti Hd Hdyn k. unfold check_typeid. rewrite Hrtti.
  unfold rejected, bind, deref. rewrite Hd.
  rewrite bool_decide_eq_true_2 by congruence.
  unfold throw_bad_polymorphic_value, bind, operator_new, throw.
  by destruct (free_store m).
Qed.

(** C6. With run-time type identity, constructing a container from a value,
    or assigning a value to a container, whose dynamic type is not the
    declared one is turned away before anything is written.  The exception
    is [bad_polymorphic_value] with the message "Value would slice" when
    the one allocation that building it takes succeeds: then a block of the
    free store is gone and an allocation is counted, and the containers and
    the objects, hence the destination and the source, are as before the
    call.  When the free store is used up the exception is [std::bad_alloc]
    instead, and the whole machine is as before the call. *)
Theorem slicing_is_rejected Derived cat this d o m :
  POLYMORPHIC_VALUE_RTTI_SUPPORTED = true ->
  objects m !! d = Some o -> dyn o <> Derived ->
  rejected m (polymorphic_value_impl_value Derived cat this d m) /\
  rejected m (operator_assign_value_copy Derived this d m) /\
  rejected m (operator_assign_value_move Derived this d m).
Proof.
  intros Hrtti Hd Hdyn.
  pose proof (check_typeid_slices _ _ _ _ Hrtti Hd Hdyn) as Hcheck.
  split; [|split]; apply Hcheck.
Qed.

(** ** Programs without allocation *)

Lemma table_of_inline Derived :
  in_heap Derived = false -> table_of Derived = local_vtable Derived.
Proof. unfold table_of. by intros ->. Qed.

Lemma allocator_untouched_refl m : allocator_untouched m m.
Proof. done. Qed.

Lemma allocator_untouched_trans m1 m2 m3 :
  allocator_untouched m1 m2 -> allocator_untouched m2 m3 ->
  allocator_untouched m1 m3.
Proof.
  unfold allocator_untouched. intros (-> & -> & ->) (-> & -> & ->). done.
Qed.

Lemma all_inline_insert this Derived o m m' :
  all_inline m -> Derived ∈ linked -> in_heap Derived = false ->
  containers m' =
    <[this := Container (local_buffer o) (vtable_address Derived)]> (containers m) ->
  all_inline m'.
Proof.
  intros Hall Hin Hkind Hc l c. rewrite Hc, lookup_insert.
  case_decide; [|by apply Hall]. intros [= <-]. by exists Derived, o.
Qed.

Lemma all_inline_delete this m m' :
  all_inline m -> containers m' = delete this (containers m) -> all_inline m'.
Proof.
  intros Hall Hc l c. rewrite Hc, lookup_delete.
  case_decide; [done|by apply Hall].
Qed.

Lemma local_destroy_inline Derived this m m' :
  local_storage.destroy Derived (storage_of this) m = Ok tt m' ->
  allocator_untouched m m' /\
  exists c, containers m !! this = Some c /\
    containers m' = <[this := Container uninitialised (m_vtable c)]> (containers m).
Proof.
  unfold local_storage.destroy. intros H. invert_entry.
  split; [done|eauto].
Qed.

Lemma local_copy_inline Derived src this m m' :
  local_storage.copy Derived src (storage_of this) m = Ok tt m' ->
  allocator_untouched m m' /\
  exists c o, containers m !! this = Some c /\
    containers m' = <[this := Container (local_buffer o) (m_vtable c)]> (containers m).
Proof.
  unfold local_storage.copy. intros H.
  apply bind_Ok in H as (s & m1 & Hs & H). apply load_object_Ok in Hs as ->.
  invert_entry. split; [done|eauto].
Qed.

Lemma local_move_inline Derived src this m m' :
  local_storage.move Derived src (storage_of this) m = Ok tt m' ->
  allocator_untouched m m' /\
  exists c o, containers m !! this = Some c /\
    containers m' = <[this := Container (local_buffer o) (m_vtable c)]> (containers m).
Proof.
  unfold local_storage.move. intros H. apply noexcept_Ok in H.
  apply bind_Ok in H as (s & m1 & Hs & H). apply load_object_Ok in Hs as ->.
  invert_entry. split; [done|eauto].
Qed.

Lemma local_copy_assign_inline Derived src this m m' :
  local_storage.copy_assign Derived src (storage_of this) m = Ok tt m' ->
  allocator_untouched m m' /\
  exists c o, containers m !! this = Some c /\
    containers m' = <[this := Container (local_buffer o) (m_vtable c)]> (containers m).
Proof.
  unfold local_storage.copy_assign. intros H.
  apply bind_Ok in H as (s & m1 & Hs & H). apply load_object_Ok in Hs as ->.
  invert_entry. split; [done|eauto].
Qed.

Lemma local_move_assign_inline Derived src this m m' :
  local_storage.move_assign Derived src (storage_of this) m = Ok tt m' ->
  allocator_untouched m m' /\
  exists c o, containers m !! this = Some c /\
    containers m' = <[this := Container (local_buffer o) (m_vtable c)]> (containers m).
Proof.
  unfold local_storage.move_assign. intros H. apply noexcept_Ok in H.
  apply bind_Ok in H as (s & m1 & Hs & H). apply load_object_Ok in Hs as ->.
  invert_entry. split; [done|eauto].
Qed.

(** An entry of the table of an inline class, reached through [m_vtable]. *)
Lemma entry_builds_inline
    (entry : polymorphic_value_vtable -> void_ptr -> void_ptr -> M unit)
    Derived src this :
  Derived ∈ linked -> in_heap Derived = false ->
  (forall m m',
     entry (local_vtable Derived) src (storage_of this) m = Ok tt m' ->
     allocator_untouched m m' /\
     exists c o, containers m !! this = Some c /\
       containers m' =
         <[this := Container (local_buffer o) (m_vtable c)]> (containers m)) ->
  builds_inline this Derived
    (let! vt := dispatch this in entry vt src (storage_of this)).
Proof.
  intros Hin Hkind Hentry m c m' Hc Hvt H.
  apply bind_Ok in H as (vt & m1 & Hdispatch & H).
  apply dispatch_Ok in Hdispatch as (-> & c' & Hc' & Htable). simplify_eq.
  rewrite (Htable Derived Hin Hvt), (table_of_inline _ Hkind) in H.
  apply Hentry in H as (Halloc & c' & o & Hc' & Hcont). simplify_eq.
  split; [done|]. exists o. by rewrite Hcont, Hvt.
Qed.

Lemma build_builds_inline Derived init this :
  in_heap Derived = false -> initialises Derived init ->
  builds_inline this Derived (build Derived init (storage_of this)).
Proof.
  intros Hkind Hinit m c m' Hc Hvt H. unfold build in H. rewrite Hkind in H.
  apply bind_Ok in H as (o & m1 & Ho & H).
  destruct (Hinit _ _ _ Ho) as (_ & Hcont & Hobj & Hnext & Hfree).
  apply store_storage_Ok in H as (c' & Hc' & ->). rewrite Hcont in Hc'.
  simplify_eq. split; [done|]. exists o. simpl. by rewrite Hcont, Hvt.
Qed.

Lemma builds_inline_on_unwind this Derived builder cleanup :
  builds_inline this Derived builder ->
  builds_inline this Derived (on_unwind builder cleanup).
Proof. intros Hb m c m' Hc Hvt H. apply on_unwind_Ok in H. eauto. Qed.

(** Assignment in place, construction and destroy-and-rebuild with a step
    that builds inline. *)
Lemma assign_inline this Derived builder c m m' :
  all_inline m -> Derived ∈ linked -> in_heap Derived = false ->
  containers m !! this = Some c -> m_vtable c = vtable_address Derived ->
  builds_inline this Derived builder ->
  builder m = Ok tt m' ->
  all_inline m' /\ allocator_untouched m m'.
Proof.
  intros Hall Hin Hkind Hc Hvt Hb H.
  destruct (Hb _ _ _ Hc Hvt H) as (Halloc & o & Hcont).
  split; [by apply (all_inline_insert this Derived o m)|done].
Qed.

Lemma construct_inline this Derived builder m m' :
  all_inline m -> Derived ∈ linked -> in_heap Derived = false ->
  builds_inline this Derived builder ->
  (let! _ := begin_lifetime this (vtable_address Derived) in builder) m = Ok tt m' ->
  all_inline m' /\ allocator_untouched m m'.
Proof.
  intros Hall Hin Hkind Hb H.
  apply bind_Ok in H as (u & m1 & Hbegin & H).
  apply begin_lifetime_Ok in Hbegin as (_ & ->).
  set (m1 := with_containers _ m) in H.
  assert (containers m1 !! this
          = Some (Container uninitialised (vtable_address Derived))) as Hc1
    by (simpl; apply lookup_insert_eq).
  destruct (Hb _ _ _ Hc1 eq_refl H) as (Halloc & o & Hcont).
  simpl in Hcont. rewrite insert_insert_eq in Hcont.
  split; [by apply (all_inline_insert this Derived o m)|done].
Qed.

Lemma rebuild_inline this Derived builder m m' :
  all_inline m -> Derived ∈ linked -> in_heap Derived = false ->
  builds_inline this Derived builder ->
  (let! vt := dispatch this in
   let! _ := destroy vt (storage_of this) in
   let! _ := store_vtable this (vtable_address Derived) in
   builder) m = Ok tt m' ->
  all_inline m' /\ allocator_untouched m m'.
Proof.
  intros Hall Hin Hkind Hb H.
  apply bind_Ok in H as (vt & m1 & Hdispatch & H).
  apply dispatch_Ok in Hdispatch as (-> & c & Hc & Htable).
  destruct (Hall this c Hc) as (Dc & oc & HDc & HDckind & HDcvt & _).
  rewrite (Htable Dc HDc HDcvt), (table_of_inline _ HDckind) in H.
  apply bind_Ok in H as (u & m1 & Hdestroy & H). destruct u. simpl in Hdestroy.
  apply local_destroy_inline in Hdestroy as (Halloc1 & c1 & Hc1 & Hcont1).
  apply bind_Ok in H as (u' & m2 & Hstore & H).
  apply store_vtable_Ok in Hstore as (c2 & Hc2 & ->).
  set (m2 := with_containers _ m1) in H.
  assert (containers m2 !! this
          = Some (Container (m_storage c2) (vtable_address Derived))) as Hc2'
    by (simpl; apply lookup_insert_eq).
  destruct (Hb _ _ _ Hc2' eq_refl H) as (Halloc2 & o & Hcont).
  simpl in Hcont. rewrite insert_insert_eq, Hcont1, insert_insert_eq in Hcont.
  split; [by apply (all_inline_insert this Derived o m)|].
  eapply allocator_untouched_trans; [exact Halloc1|exact Halloc2].
Qed.


Lemma instantiate_inline {A} Derived (member f : A) :
  AllowAllocations = false ->
  instantiate Derived member = Instantiated f ->
  in_heap Derived = false /\ f = member.
Proof.
  intros Hallow H. split; [|by apply instantiate_Instantiated in H].
  unfold instantiate, allocations_allowed in H. rewrite Hallow in H.
  by destruct (in_heap Derived).
Qed.

(** Without allocations, a statement that compiles and returns leaves every
    container inline and the allocator untouched. *)
Lemma statement_inline st f m m' :
  AllowAllocations = false -> linked_statement st ->
  compile st = Instantiated f ->
  all_inline m -> f m = Ok tt m' ->
  all_inline m' /\ allocator_untouched m m'.
Proof.
  intros Hallow Hlinked Hcompile Hall H.
  destruct st as [D cat this d|D this args|this src|this src|this src|this src
                 |D cat this d|D this args|this]; simpl in Hcompile;
    try (specialize (Hlinked D eq_refl)).
  - apply (instantiate_inline _ _ _ Hallow) in Hcompile as [Hkind ->].
    unfold polymorphic_value_impl_value in H.
    apply bind_Ok in H as (u & m1 & Hcheck & H). apply check_typeid_Ok in Hcheck as ->.
    eapply (construct_inline this D); [done..| |exact H].
    apply builds_inline_on_unwind, build_builds_inline; [done|].
    apply initialises_forward, deref_pure.
  - apply (instantiate_inline _ _ _ Hallow) in Hcompile as [Hkind ->].
    eapply (construct_inline this D); [done..| |exact H].
    apply builds_inline_on_unwind, build_builds_inline; [done|].
    apply initialises_construct.
  - injection Hcompile as <-. unfold polymorphic_value_impl_copy in H.
    apply bind_Ok in H as (s & m1 & Hs & H). apply load_container_Ok in Hs as [-> Hs].
    destruct (Hall src s Hs) as (Ds & os & HDs & HDskind & HDsvt & _).
    rewrite HDsvt in H.
    eapply (construct_inline this Ds); [done..| |exact H].
    apply builds_inline_on_unwind.
    apply (entry_builds_inline copy); [done..|]. apply local_copy_inline.
  - injection Hcompile as <-. unfold polymorphic_value_impl_move in H.
    apply noexcept_Ok in H.
    apply bind_Ok in H as (s & m1 & Hs & H). apply load_container_Ok in Hs as [-> Hs].
    destruct (Hall src s Hs) as (Ds & os & HDs & HDskind & HDsvt & _).
    rewrite HDsvt in H.
    eapply (construct_inline this Ds); [done..| |exact H].
    apply (entry_builds_inline move); [done..|]. apply local_move_inline.
  - injection Hcompile as <-. unfold operator_assign_copy in H.
    destruct (src =? this); [by invert_ok|].
    apply bind_Ok in H as (c & m1 & Hc & H). apply load_container_Ok in Hc as [-> Hc].
    apply bind_Ok in H as (s & m1 & Hs & H). apply load_container_Ok in Hs as [-> Hs].
    destruct (Hall this c Hc) as (Dc & oc & HDc & HDckind & HDcvt & _).
    destruct (Hall src s Hs) as (Ds & os & HDs & HDskind & HDsvt & _).
    destruct (m_vtable c =? m_vtable s).
    + eapply (assign_inline this Dc); [done..| |exact H].
      apply (entry_builds_inline copy_assign); [done..|].
      apply local_copy_assign_inline.
    + rewrite HDsvt in H. eapply (rebuild_inline this Ds); [done..| |exact H].
      apply (entry_builds_inline copy); [done..|]. apply local_copy_inline.
  - injection Hcompile as <-. unfold operator_assign_move in H.
    apply noexcept_Ok in H.
    destruct (src =? this); [by invert_ok|].
    apply bind_Ok in H as (c & m1 & Hc & H). apply load_container_Ok in Hc as [-> Hc].
    apply bind_Ok in H as (s & m1 & Hs & H). apply load_container_Ok in Hs as [-> Hs].
    destruct (Hall this c Hc) as (Dc & oc & HDc & HDckind & HDcvt & _).
    destruct (Hall src s Hs) as (Ds & os & HDs & HDskind & HDsvt & _).
    destruct (m_vtable c =? m_vtable s).
    + eapply (assign_inline this Dc); [done..| |exact H].
      apply (entry_builds_inline move_assign); [done..|].
      apply local_move_assign_inline.
    + rewrite HDsvt in H. eapply (rebuild_inline this Ds); [done..| |exact H].
      apply (entry_builds_inline move); [done..|]. apply local_move_inline.
  - destruct cat; apply (instantiate_inline _ _ _ Hallow) in Hcompile as [Hkind ->].
    + unfold operator_assign_value_copy in H.
      apply bind_Ok in H as (u & m1 & Hcheck & H).
      apply check_typeid_Ok in Hcheck as ->.
      apply bind_Ok in H as (c & m1 & Hc & H).
      apply load_container_Ok in Hc as [-> Hc].
      destruct (m_vtable c =? vtable_address D) eqn:Hsame.
      * apply Z.eqb_eq in Hsame.
        eapply (assign_inline this D); [done..| |exact H].
        apply (entry_builds_inline copy_assign_raw); [done..|].
        apply local_copy_assign_inline.
      * eapply (rebuild_inline this D); [done..| |exact H].
        apply (entry_builds_inline copy_raw); [done..|]. apply local_copy_inline.
    + unfold operator_assign_value_move in H.
      apply bind_Ok in H as (u & m1 & Hcheck & H).
      apply check_typeid_Ok in Hcheck as ->.
      apply bind_Ok in H as (c & m1 & Hc & H).
      apply load_container_Ok in Hc as [-> Hc].
      destruct (m_vtable c =? vtable_address D) eqn:Hsame.
      * apply Z.eqb_eq in Hsame.
        eapply (assign_inline this D); [done..| |exact H].
        apply (entry_builds_inline move_assign_raw); [done..|].
        apply local_move_assign_inline.
      * eapply (rebuild_inline this D); [done..| |exact H].
        apply (entry_builds_inline move_raw); [done..|]. apply local_move_inline.
  - apply (instantiate_inline _ _ _ Hallow) in Hcompile as [Hkind ->].
    eapply (rebuild_inline this D); [done..| |exact H].
    apply build_builds_inline; [done|]. apply initialises_construct.
  - injection Hcompile as <-. unfold destructor in H.
    apply bind_Ok in H as (vt & m1 & Hdispatch & H).
    apply dispatch_Ok in Hdispatch as (-> & c & Hc & Htable).
    destruct (Hall this c Hc) as (Dc & oc & HDc & HDckind & HDcvt & _).
    rewrite (Htable Dc HDc HDcvt), (table_of_inline _ HDckind) in H.
    apply bind_Ok in H as (u & m1 & Hdestroy & H). destruct u. simpl in Hdestroy.
    apply local_destroy_inline in Hdestroy as (Halloc & c1 & Hc1 & Hcont).
    apply set_containers_Ok in H as ->. split; [|done].
    apply (all_inline_delete this m); [done|]. simpl.
    by rewrite Hcont, delete_insert_eq.
Qed.

Lemma program_inline sts : forall f m m',
  AllowAllocations = false -> Forall linked_statement sts ->
  compile_all sts = Instantiated f ->
  all_inline m -> f m = Ok tt m' ->
  all_inline m' /\ allocator_untouched m m'.
Proof.
  induction sts as [|st rest IH]; intros f m m' Hallow Hlinked Hcompile Hall H.
  - injection Hcompile as <-. by invert_ok.
  - simpl in Hcompile. apply Forall_cons in Hlinked as [Hst Hrest].
    destruct (compile st) as [f1|] eqn:Hf1; [|discriminate]. simpl in Hcompile.
    destruct (compile_all rest) as [f2|] eqn:Hf2; [|discriminate].
    injection Hcompile as <-.
    apply bind_Ok in H as (u & m1 & H1 & H2). destruct u.
    destruct (statement_inline _ _ _ _ Hallow Hst Hf1 Hall H1) as [Hall1 Halloc1].
    destruct (IH _ _ _ Hallow Hrest eq_refl Hall1 H2) as [Hall2 Halloc2].
    split; [done|]. by eapply allocator_untouched_trans.
Qed.


(** ** The allocation policy *)

(** C9. With [AllowAllocations] false, the constructors from a value and in
    place, both assignments from a value and [emplace] are rejected by the
    static assertion for every class the decision sends to the heap, so every
    statement that does compile is for an inline-stored class; and a program
    that compiles, started where every container is inline, keeps every
    container inline and never allocates or frees. *)
Theorem allocations_rejected_at_build_time Derived :
  AllowAllocations = false -> in_heap Derived = true ->
  (forall cat this d,
     compile (construct_value Derived cat this d)
       = static_assert_failed "Allocations are not allowed") /\
  (forall this args,
     compile (construct_in_place Derived this args)
       = static_assert_failed "Allocations are not allowed") /\
  (forall cat this d,
     compile (assign_value Derived cat this d)
       = static_assert_failed "Allocations are not allowed") /\
  (forall this args,
     compile (emplace_with Derived this args)
       = static_assert_failed "Allocations are not allowed") /\
  (forall st f D,
     compile st = Instantiated f -> statement_class st = Some D ->
     in_heap D = false) /\
  (forall sts f m m',
     Forall linked_statement sts -> compile_all sts = Instantiated f ->
     all_inline m -> f m = Ok tt m' ->
     all_inline m' /\ allocator_untouched m m').
Proof.
  intros Hallow Hheap.
  assert (Hreject : forall A (member : A),
    instantiate Derived member = static_assert_failed "Allocations are not allowed").
  { intros A member. unfold instantiate, allocations_allowed.
    rewrite Hallow, Hheap. done. }
  split; [intros; apply Hreject|].
  split; [intros; apply Hreject|].
  split; [intros [] ? ?; apply Hreject|].
  split; [intros; apply Hreject|].
  split.
  - intros st f D Hcompile Hclass.
    destruct st; simpl in *; simplify_eq; try destruct cat;
      by apply (instantiate_inline _ _ _ Hallow) in Hcompile as [? _].
  - intros sts f m m' Hlinked Hcompile Hall H.
    by eapply program_inline.
Qed.

(** ** Reading the held object *)

(** [operator*] on a container whose table is that of [Derived] and whose
    cell is of the kind decided for [Derived], when the object has its
    [Base] subobject at offset 0. *)
Lemma operator_star_eq Derived this c o m :
  get_vtable Derived = Instantiated (vtable_address Derived) ->
  containers m !! this = Some c -> m_vtable c = vtable_address Derived ->
  designates Derived m c o -> base_offset (dyn o) = 0 ->
  operator_star this m = Ok o m.
Proof.
  intros Hget Hc Hvt Hs Hbase. unfold designates in Hs.
  apply get_vtable_Instantiated in Hget as [_ Hoff].
  pose proof (storage_is_local_vtable_address _ Hoff) as Hlocal.
  unfold operator_star, get, load_base, load_pointer, load_object, load_storage,
    load_container, deref, bind, ret.
  rewrite Hc, Hvt, Hlocal.
  destruct (m_storage c) as [|o'|p] eqn:Hcell; [done| |].
  - destruct Hs as [-> ->]. simpl. by rewrite Hc, Hcell, Hbase.
  - destruct Hs as [-> Ho]. simpl. by rewrite Hc, Hcell, Ho, Hbase.
Qed.

(** The same container when the [Base] subobject of the object lies
    elsewhere: the pointer [get] returns is not a pointer to it. *)
Lemma operator_star_misplaced_base Derived this c o m :
  get_vtable Derived = Instantiated (vtable_address Derived) ->
  containers m !! this = Some c -> m_vtable c = vtable_address Derived ->
  designates Derived m c o -> base_offset (dyn o) <> 0 ->
  operator_star this m = Undefined.
Proof.
  intros Hget Hc Hvt Hs Hbase. unfold designates in Hs.
  apply get_vtable_Instantiated in Hget as [_ Hoff].
  pose proof (storage_is_local_vtable_address _ Hoff) as Hlocal.
  apply Z.eqb_neq in Hbase.
  unfold operator_star, get, load_base, load_pointer, load_object, load_storage,
    load_container, deref, bind, ret.
  rewrite Hc, Hvt, Hlocal.
  destruct (m_storage c) as [|o'|p] eqn:Hcell; [done| |].
  - destruct Hs as [-> ->]. simpl. by rewrite Hc, Hcell, Hbase.
  - destruct Hs as [-> Ho]. simpl. by rewrite Hc, Hcell, Ho, Hbase.
Qed.

(** X1. Dereferencing a container that holds an object of a class whose
    [Base] subobject lies at offset 0 yields exactly the object its cell
    designates, the inline one or the pointee of its pointer, an object of
    the class of its table, and changes nothing.  For a class whose [Base]
    subobject lies elsewhere the pointer of [get] is not adjusted to it, and
    dereferencing is undefined. *)
Theorem dereference_reaches_the_held_object Derived this c m :
  get_vtable Derived = Instantiated (vtable_address Derived) ->
  containers m !! this = Some c -> holds m c Derived ->
  exists o, held_object m c = Some o /\ dyn o = Derived /\
            (base_offset Derived = 0 -> operator_star this m = Ok o m) /\
            (base_offset Derived <> 0 -> operator_star this m = Undefined).
Proof.
  intros Hget Hc (_ & Hvt & Hs). unfold held_object.
  destruct (m_storage c) as [|o|p] eqn:Hcell; [done| |].
  - destruct Hs as [Hkind Hdyn]. exists o. split; [done|]. split; [done|].
    split; intros Hbase.
    + apply (operator_star_eq Derived this c o m Hget Hc Hvt);
        [unfold designates; by rewrite Hcell|by rewrite Hdyn].
    + apply (operator_star_misplaced_base Derived this c o m Hget Hc Hvt);
        [unfold designates; by rewrite Hcell|by rewrite Hdyn].
  - destruct Hs as (Hkind & _ & o & Ho & Hdyn). exists o.
    split; [done|]. split; [done|]. split; intros Hbase.
    + apply (operator_star_eq Derived this c o m Hget Hc Hvt);
        [unfold designates; by rewrite Hcell|by rewrite Hdyn].
    + apply (operator_star_misplaced_base Derived this c o m Hget Hc Hvt);
        [unfold designates; by rewrite Hcell|by rewrite Hdyn].
Qed.

(** X2. A container that was moved from gives a null pointer from [get], and
    dereferencing it is undefined. *)
Theorem dereference_of_moved_from_is_undefined Derived this c m :
  get_vtable Derived = Instantiated (vtable_address Derived) ->
  containers m !! this = Some c -> moved_from c Derived ->
  objects m !! nullptr = None ->
  get this m = Ok (object_at nullptr) m /\ operator_star this m = Undefined.
Proof.
  intros Hget Hc (_ & Hvt & Hkind & Hcell) Hnull.
  apply get_vtable_Instantiated in Hget as [_ Hoff].
  pose proof (storage_is_local_vtable_address _ Hoff) as Hlocal.
  rewrite Hkind in Hlocal.
  assert (get this m = Ok (object_at nullptr) m) as Hgetp.
  { unfold get, load_pointer, load_storage, load_container, bind, ret.
    rewrite Hc, Hvt, Hlocal. simpl. by rewrite Hc, Hcell. }
  split; [done|].
  unfold operator_star. rewrite (bind_eq _ _ _ _ _ Hgetp).
  unfold load_base, load_object, deref, bind. by rewrite Hnull.
Qed.

(** ** Destroying a container *)

(** X3. The destructor of a container that holds an object of [Derived] runs
    the destructor of [Derived] once, gives the block back when the object is
    on the heap, and ends the container; nothing else changes. *)
Theorem destructor_destroys_the_held_object Derived this c m :
  containers m !! this = Some c -> holds m c Derived ->
  destructor this m =
    Ok tt (Machine (delete this (containers m))
                   (match m_storage c with
                    | heap_buffer p => delete p (objects m)
                    | _ => objects m
                    end)
                   (next_block m) (free_store m)
                   (trace m ++ destroy_trace Derived)).
Proof.
  intros Hc (Hin & Hvt & Hs). unfold destructor.
  rewrite (bind_eq _ _ _ _ _ (dispatch_eq _ _ _ _ Hc Hin Hvt)).
  unfold table_of, destroy_trace.
  destruct (m_storage c) as [|o|p] eqn:Hcell; [done| |].
  - destruct Hs as [-> _]. simpl.
    unfold local_storage.destroy, load_object, load_storage, store_storage,
      load_container, log, end_lifetime, set_containers, bind, ret.
    rewrite Hc. simpl. rewrite Hcell. simpl. rewrite Hc. simpl.
    unfold with_containers. simpl. by rewrite delete_insert_eq.
  - destruct Hs as (-> & Hp & o & Ho & _). simpl.
    unfold heap_storage.destroy, delete_expression, operator_delete, deref,
      load_pointer, load_storage, load_container, log, set_objects,
      end_lifetime, set_containers, bind, ret.
    rewrite Hc. simpl. rewrite Hcell. simpl.
    rewrite (proj2 (Z.eqb_neq p nullptr)) by done. rewrite Ho. simpl.
    unfold with_containers, with_objects. simpl. by rewrite <- app_assoc.
Qed.

(** X4. The destructor of a container that was moved from deletes a null
    pointer: no destructor of the class runs and no block is freed. *)
Theorem destructor_of_moved_from_is_silent Derived this c m :
  containers m !! this = Some c -> moved_from c Derived ->
  destructor this m = Ok tt (with_containers (delete this) m).
Proof.
  intros Hc (Hin & Hvt & Hkind & Hcell). unfold destructor.
  rewrite (bind_eq _ _ _ _ _ (dispatch_eq _ _ _ _ Hc Hin Hvt)).
  unfold table_of. rewrite Hkind. simpl.
  unfold heap_storage.destroy, delete_expression, load_pointer, load_storage,
    load_container, end_lifetime, set_containers, bind, ret.
  rewrite Hc. simpl. by rewrite Hcell.
Qed.

(** ** Copying a container *)

Lemma call_eq b Derived e m :
  b <> Throws -> call b Derived e m = Ok tt (with_event e m).
Proof. by destruct b. Qed.

(** X5. Copy construction from a container that holds an object of
    [Derived], when the copy constructor of [Derived] returns and the free
    store is not used up, gives the new container an object of its own with
    the value of the source: a new block for a heap-stored class, never the
    block of the source; the source and its object are untouched, and the
    only events are the allocation, if any, and one copy construction. *)
Theorem copy_construction_is_deep Derived this src cs o m :
  containers m !! src = Some cs -> holds m cs Derived ->
  held_object m cs = Some o ->
  containers m !! this = None ->
  copy_constructor Derived <> Throws ->
  (in_heap Derived = true -> free_store m <> 0%nat) ->
  objects m !! next_block m = None ->
  exists m' c',
    polymorphic_value_impl_copy this src m = Ok tt m' /\
    containers m' = <[this := c']> (containers m) /\
    m_vtable c' = m_vtable cs /\
    held_object m' c' = Some (Object Derived (value o)) /\
    held_object m' cs = Some o /\
    (forall p q, m_storage c' = heap_buffer p -> m_storage cs = heap_buffer q ->
                 p <> q) /\
    trace m' = trace m ++ build_trace Derived (ev_copy_ctor Derived).
Proof.
  intros Hsrc (Hin & Hvt & Hs) Ho Hthis Hcopy Hfree Hfresh.
  assert (this <> src) as Hne by congruence.
  unfold polymorphic_value_impl_copy.
  rewrite (bind_eq _ _ _ _ _ (load_container_eq _ _ _ Hsrc)).
  unfold begin_lifetime at 1. unfold bind at 1. rewrite Hthis. simpl.
  unfold on_unwind.
  erewrite bind_eq; [|eapply (dispatch_eq this); [apply lookup_insert_eq|done..]].
  unfold table_of, build_trace, held_object in *.
  destruct (m_storage cs) as [|o0|q] eqn:Hcell; [done| |].
  - destruct Hs as [Hkind _]. rewrite Hkind. simpl. simplify_eq.
    unfold local_storage.copy, copy_construct, load_object, load_storage,
      store_storage, load_container, set_containers, bind, ret. simpl.
    rewrite lookup_insert_ne, Hsrc by done. simpl. rewrite Hcell. simpl.
    rewrite (call_eq _ _ _ _ Hcopy). simpl. rewrite lookup_insert_eq. simpl.
    eexists _, _. split; [reflexivity|]. simpl.
    split; [by rewrite insert_insert_eq|].
    split; [reflexivity|]. split; [reflexivity|]. split; [reflexivity|].
    split; [done|reflexivity].
  - destruct Hs as (Hkind & Hq & _). rewrite Hkind. simpl.
    specialize (Hfree Hkind).
    destruct (free_store m) as [|n] eqn:Hstore; [done|].
    unfold heap_storage.copy, new_expression, operator_new, on_unwind,
      copy_construct, deref, load_pointer, load_storage,
      store_storage, load_container, set_containers, set_objects, bind, ret.
    simpl.
    rewrite lookup_insert_ne, Hsrc by done. simpl. rewrite Hcell. simpl.
    rewrite Hstore. simpl. rewrite Ho. simpl.
    rewrite (call_eq _ _ _ _ Hcopy). simpl. rewrite lookup_insert_eq. simpl.
    eexists _, _. split; [reflexivity|]. simpl.
    split; [by rewrite insert_insert_eq|].
    split; [reflexivity|]. split; [apply lookup_insert_eq|].
    assert (q <> next_block m) as Hqn by congruence.
    split; [by rewrite lookup_insert_ne|].
    split; [intros p q0 [= <-] [= <-]; congruence|by rewrite <- app_assoc].
Qed.

(** ** Building and reading back *)

(** After [build], the cell designates the object the initialiser returned,
    in the storage kind decided for the class; the table pointer is kept. *)
Lemma build_designates Derived init (P : object -> Prop) this m m' :
  (forall m0 o m1, objects m0 = objects m -> containers m0 = containers m ->
     init m0 = Ok o m1 -> P o /\ containers m1 = containers m0) ->
  build Derived init (storage_of this) m = Ok tt m' ->
  exists o c c', P o /\ containers m !! this = Some c /\
    containers m' !! this = Some c' /\ m_vtable c' = m_vtable c /\
    designates Derived m' c' o.
Proof.
  intros Hinit H. unfold build, designates in *.
  destruct (in_heap Derived) eqn:Hkind.
  - apply bind_Ok in H as (p & m2 & Hnew & H).
    apply new_expression_Ok in Hnew as (m0 & o & m1 & Hnew & Ho & ->).
    apply operator_new_Ok in Hnew as (-> & n & _ & ->).
    apply Hinit in Ho as [HP Hsame]; [|done..].
    apply store_storage_Ok in H as (c & Hc & ->). simpl in *.
    rewrite Hsame in Hc. exists o, c, (Container (heap_buffer (next_block m)) (m_vtable c)).
    split; [done|]. split; [done|]. split; [apply lookup_insert_eq|].
    split; [done|]. simpl. split; [done|apply lookup_insert_eq].
  - apply bind_Ok in H as (o & m1 & Ho & H).
    apply Hinit in Ho as [HP Hsame]; [|done..].
    apply store_storage_Ok in H as (c & Hc & ->). simpl in *.
    rewrite Hsame in Hc. exists o, c, (Container (local_buffer o) (m_vtable c)).
    split; [done|]. split; [done|]. split; [apply lookup_insert_eq|]. done.
Qed.

Lemma build_read_back Derived init (P : object -> Prop) this c m m' :
  get_vtable Derived = Instantiated (vtable_address Derived) ->
  (forall o, P o -> base_offset (dyn o) = 0) ->
  (forall m0 o m1, objects m0 = objects m -> containers m0 = containers m ->
     init m0 = Ok o m1 -> P o /\ containers m1 = containers m0) ->
  containers m !! this = Some c -> m_vtable c = vtable_address Derived ->
  build Derived init (storage_of this) m = Ok tt m' ->
  exists o, P o /\ operator_star this m' = Ok o m'.
Proof.
  intros Hget Hbase Hinit Hc Hvt H.
  apply (build_designates _ _ P) in H as (o & c0 & c' & HP & Hc0 & Hc' & Hvt' & Hs);
    [|done].
  simplify_eq. exists o. split; [done|].
  eapply operator_star_eq; [done|done|congruence|done|by apply Hbase].
Qed.

Lemma construct_returns Derived args m0 o m1 :
  construct Derived args m0 = Ok o m1 ->
  o = Object Derived args /\ containers m1 = containers m0.
Proof. intros H. by apply construct_Ok in H as [-> ->]. Qed.

Lemma forward_construct_returns Derived cat d s m m0 o m1 :
  objects m !! d = Some s -> objects m0 = objects m ->
  (let! o := deref d in forward_construct Derived cat o) m0 = Ok o m1 ->
  o = Object Derived (value s) /\ containers m1 = containers m0.
Proof.
  intros Hd Hsame H. apply bind_Ok in H as (s' & m2 & Hs' & H).
  apply deref_Ok in Hs' as [-> Hs']. rewrite Hsame in Hs'. simplify_eq.
  destruct cat; simpl in H.
  - by apply copy_construct_Ok in H as [-> ->].
  - by apply move_construct_Ok in H as [-> ->].
Qed.

(** X6. What was built can be read back, for a class whose [Base]
    subobject lies at offset 0: after construction in place or [emplace]
    with given arguments the container dereferences to an object of
    [Derived] built from them, and after construction from a value to an
    object of [Derived] with the value of the argument. *)
Theorem built_object_is_read_back Derived this m m' :
  get_vtable Derived = Instantiated (vtable_address Derived) ->
  base_offset Derived = 0 ->
  (forall args,
     polymorphic_value_impl_in_place Derived this args m = Ok tt m' ->
     operator_star this m' = Ok (Object Derived args) m') /\
  (forall args,
     emplace Derived this args m = Ok tt m' ->
     operator_star this m' = Ok (Object Derived args) m') /\
  (forall cat d s,
     objects m !! d = Some s ->
     polymorphic_value_impl_value Derived cat this d m = Ok tt m' ->
     operator_star this m' = Ok (Object Derived (value s)) m').
Proof.
  intros Hget Hbase. split; [|split].
  - intros args H. unfold polymorphic_value_impl_in_place in H.
    apply bind_Ok in H as (u & m1 & Hbegin & H).
    apply begin_lifetime_Ok in Hbegin as [_ ->]. apply on_unwind_Ok in H.
    eapply (build_read_back _ _ (fun o => o = Object Derived args)) in H
      as (o & -> & H);
      [done|done|by intros ? ->| |simpl; apply lookup_insert_eq|done].
    intros m0 o m2 _ _. apply construct_returns.
  - intros args H. unfold emplace in H.
    apply bind_Ok in H as (vt & m1 & _ & H).
    apply bind_Ok in H as (u & m2 & _ & H).
    apply bind_Ok in H as (u' & m3 & Hstore & H).
    apply store_vtable_Ok in Hstore as (c & Hc & ->).
    eapply (build_read_back _ _ (fun o => o = Object Derived args)) in H
      as (o & -> & H);
      [done|done|by intros ? ->| |simpl; apply lookup_insert_eq|done].
    intros m0 o m4 _ _. apply construct_returns.
  - intros cat d s Hd H. unfold polymorphic_value_impl_value in H.
    apply bind_Ok in H as (u & m1 & Hcheck & H).
    apply check_typeid_Ok in Hcheck as ->.
    apply bind_Ok in H as (u' & m1 & Hbegin & H).
    apply begin_lifetime_Ok in Hbegin as [_ ->]. apply on_unwind_Ok in H.
    eapply (build_read_back _ _ (fun o => o = Object Derived (value s))) in H
      as (o & -> & H);
      [done|done|by intros ? ->| |simpl; apply lookup_insert_eq|done].
    intros m0 o m2 Hsame _.
    by apply (forward_construct_returns Derived cat d s
                (with_containers
                   (<[this := Container uninitialised (vtable_address Derived)]>) m)).
Qed.

(** ** The value an assignment leaves *)

Ltac resolve_in Hs :=
  repeat match type of Hs with
  | context [containers ?m0 !! ?l] =>
      match goal with Hc : containers m0 !! l = Some _ |- _ => rewrite Hc in Hs end
  | context [m_storage ?c0] =>
      match goal with Hc : m_storage c0 = _ |- _ => rewrite Hc in Hs end
  end; simpl in Hs.

Ltac read_raw H :=
  repeat match type of H with
  | context [load_object (object_at ?a)] =>
      change (load_object (object_at a)) with (deref a) in H
  end.

Ltac resolve_goal :=
  repeat match goal with
  | |- context [containers ?m0 !! ?l] =>
      match goal with Hc : containers m0 !! l = Some _ |- _ => rewrite Hc end
  | |- context [m_storage ?c0] =>
      match goal with Hc : m_storage c0 = _ |- _ => rewrite Hc end
  end; simpl.

Ltac kept_object :=
  let c := fresh "c" in
  intros c ?; simplify_eq; right; unfold held_object;
  repeat match goal with
  | Hc : m_storage ?c0 = _ |- context [m_storage ?c0] => rewrite Hc
  end; simpl;
  eexists; split; [eassumption || reflexivity|]; split; [reflexivity|];
  intros ? ?; by simplify_eq.

Lemma assign_entry_value a Derived src this s m m' :
  source_object a src m = Some s ->
  assign_entry a (table_of Derived) (source_of a src) (storage_of this) m = Ok tt m' ->
  exists c' o', containers m' !! this = Some c' /\ value o' = value s /\
    designates Derived m' c' o' /\
    (forall c, containers m !! this = Some c -> m_vtable c' = m_vtable c) /\
    forall c, containers m !! this = Some c ->
      (a = assign_container_move /\ in_heap Derived = true /\ o' = s) \/
      (exists d, held_object m c = Some d /\ dyn o' = dyn d /\
         forall p, m_storage c = heap_buffer p -> m_storage c' = heap_buffer p).
Proof.
  unfold table_of, designates, source_object, held_object.
  destruct a, (in_heap Derived) eqn:Hkind; simpl; intros Hs H.
  - unfold heap_storage.copy_assign in H. invert_entry. resolve_in Hs.
    eexists _, _. split; [eassumption|]. split; [|split; [|split]]; cycle 1.
    + resolve_goal. split; [done|apply lookup_insert_eq].
    + intros c ?. by simplify_eq.
    + kept_object.
    + simpl. congruence.
  - unfold local_storage.copy_assign in H. invert_entry. resolve_in Hs.
    eexists _, _. split; [apply lookup_insert_eq|]. split; [|split; [|split]]; cycle 1.
    + simpl. split; [done|reflexivity].
    + intros c ?. by simplify_eq.
    + kept_object.
    + simpl. congruence.
  - unfold heap_storage.move_assign in H. invert_entry. resolve_in Hs.
    eexists _, _. split; [apply lookup_insert_eq|]. split; [|split; [|split]]; cycle 1.
    + simpl. split; [done|eassumption].
    + intros c Hc. simpl. destruct (decide (src = this)) as [->|Hne].
      * rewrite lookup_insert_eq in *. by simplify_eq.
      * rewrite lookup_insert_ne in * by done. by simplify_eq.
    + intros c _. by left.
    + done.
  - unfold local_storage.move_assign in H. invert_entry. resolve_in Hs.
    eexists _, _. split; [apply lookup_insert_eq|]. split; [|split; [|split]]; cycle 1.
    + simpl. split; [done|reflexivity].
    + intros c ?. by simplify_eq.
    + kept_object.
    + simpl. congruence.
  - unfold heap_storage.copy_assign_raw in H. read_raw H. invert_entry.
    eexists _, _. split; [eassumption|]. split; [|split; [|split]]; cycle 1.
    + resolve_goal. split; [done|apply lookup_insert_eq].
    + intros c ?. by simplify_eq.
    + kept_object.
    + simpl. congruence.
  - unfold local_storage.copy_assign in H. read_raw H. invert_entry.
    eexists _, _. split; [apply lookup_insert_eq|]. split; [|split; [|split]]; cycle 1.
    + simpl. split; [done|reflexivity].
    + intros c ?. by simplify_eq.
    + kept_object.
    + simpl. congruence.
  - unfold heap_storage.move_assign_raw in H. read_raw H. invert_entry.
    eexists _, _. split; [eassumption|]. split; [|split; [|split]]; cycle 1.
    + resolve_goal. split; [done|apply lookup_insert_eq].
    + intros c ?. by simplify_eq.
    + kept_object.
    + simpl. congruence.
  - unfold local_storage.move_assign in H. read_raw H. invert_entry.
    eexists _, _. split; [apply lookup_insert_eq|]. split; [|split; [|split]]; cycle 1.
    + simpl. split; [done|reflexivity].
    + intros c ?. by simplify_eq.
    + kept_object.
    + simpl. congruence.
Qed.

Lemma build_entry_value a Derived src this s m m' :
  (forall x, source_object a src m = Some x -> x = s) ->
  (source_of a src = storage_of src ->
   src <> this /\ source_object a src m = Some s) ->
  build_entry a (table_of Derived) (source_of a src) (storage_of this) m = Ok tt m' ->
  exists c' o', containers m' !! this = Some c' /\ value o' = value s /\
    designates Derived m' c' o' /\
    (forall c, containers m !! this = Some c -> m_vtable c' = m_vtable c) /\
    ((a = assign_container_move /\ in_heap Derived = true /\ o' = s) \/
     dyn o' = Derived).
Proof.
  unfold table_of, designates, source_object, held_object.
  destruct a, (in_heap Derived) eqn:Hkind; simpl; intros Hs Hex H.
  - unfold heap_storage.copy in H. invert_entry. resolve_in Hs.
    eexists _, _. split; [apply lookup_insert_eq|]. split; [|split; [|split]]; cycle 1.
    + simpl. split; [done|apply lookup_insert_eq].
    + intros c ?. by simplify_eq.
    + by right.
    + simpl. f_equal. by apply Hs.
  - unfold local_storage.copy in H. invert_entry. resolve_in Hs.
    eexists _, _. split; [apply lookup_insert_eq|]. split; [|split; [|split]]; cycle 1.
    + simpl. split; [done|reflexivity].
    + intros c ?. by simplify_eq.
    + by right.
    + simpl. f_equal. by apply Hs.
  - unfold heap_storage.move in H. invert_entry.
    destruct (Hex eq_refl) as [Hne Hsome]. resolve_in Hsome.
    rewrite lookup_insert_ne in * by done.
    eexists _, _. split; [apply lookup_insert_eq|]. split; [|split; [|split]]; cycle 1.
    + simpl. split; [done|eassumption].
    + intros c ?. by simplify_eq.
    + by left.
    + done.
  - unfold local_storage.move in H. invert_entry. resolve_in Hs.
    eexists _, _. split; [apply lookup_insert_eq|]. split; [|split; [|split]]; cycle 1.
    + simpl. split; [done|reflexivity].
    + intros c ?. by simplify_eq.
    + by right.
    + simpl. f_equal. by apply Hs.
  - unfold heap_storage.copy_raw in H. read_raw H. invert_entry.
    eexists _, _. split; [apply lookup_insert_eq|]. split; [|split; [|split]]; cycle 1.
    + simpl. split; [done|apply lookup_insert_eq].
    + intros c ?. by simplify_eq.
    + by right.
    + simpl. f_equal. by apply Hs.
  - unfold local_storage.copy in H. read_raw H. invert_entry.
    eexists _, _. split; [apply lookup_insert_eq|]. split; [|split; [|split]]; cycle 1.
    + simpl. split; [done|reflexivity].
    + intros c ?. by simplify_eq.
    + by right.
    + simpl. f_equal. by apply Hs.
  - unfold heap_storage.move_raw in H. read_raw H. invert_entry.
    eexists _, _. split; [apply lookup_insert_eq|]. split; [|split; [|split]]; cycle 1.
    + simpl. split; [done|apply lookup_insert_eq].
    + intros c ?. by simplify_eq.
    + by right.
    + simpl. f_equal. by apply Hs.
  - unfold local_storage.move in H. read_raw H. invert_entry.
    eexists _, _. split; [apply lookup_insert_eq|]. split; [|split; [|split]]; cycle 1.
    + simpl. split; [done|reflexivity].
    + intros c ?. by simplify_eq.
    + by right.
    + simpl. f_equal. by apply Hs.
Qed.

(** What [destroy] leaves alone: the other containers, the table pointer,
    and every object but the block it frees. *)
Lemma destroy_frame Derived this c m m1 :
  containers m !! this = Some c ->
  destroy (table_of Derived) (storage_of this) m = Ok tt m1 ->
  (forall l, l <> this -> containers m1 !! l = containers m !! l) /\
  (exists c1, containers m1 !! this = Some c1 /\ m_vtable c1 = m_vtable c) /\
  (forall q x, objects m1 !! q = Some x -> objects m !! q = Some x) /\
  (forall q, (m_storage c = heap_buffer q -> q = nullptr) ->
             objects m1 !! q = objects m !! q) /\
  next_block m1 = next_block m.
Proof.
  intros Hc. unfold table_of. destruct (in_heap Derived); simpl; intros H.
  - unfold heap_storage.destroy in H.
    apply bind_Ok in H as (p & m0 & Hp & H).
    apply load_pointer_Ok in Hp as (-> & c0 & Hc0 & Hcell). simplify_eq.
    apply delete_expression_Ok in H as [[-> ->]|(Hp & _ & ->)]; simpl.
    + split; [done|]. split; [eauto|]. done.
    + split; [done|]. split; [eauto|]. split; [|split; [|done]].
      * intros q x Hq. by apply lookup_delete_Some in Hq as [_ ?].
      * intros q Hq. apply lookup_delete_ne. intros <-. by apply Hp, Hq.
  - unfold local_storage.destroy in H. invert_entry.
    split; [intros l Hl; by rewrite lookup_insert_ne|].
    split; [rewrite lookup_insert_eq; eauto|]. done.
Qed.

(** In a well-formed machine the object a container designates is of the
    class of its table. *)
Lemma invariant_held_dyn N l c Derived d m :
  invariant N m -> containers m !! l = Some c -> Derived ∈ linked ->
  m_vtable c = vtable_address Derived -> held_object m c = Some d ->
  dyn d = Derived.
Proof.
  intros Hinv Hc Hin Hvt Hd.
  destruct (inv_containers _ _ Hinv l c Hc)
    as [D [(HD & HvtD & Hcell)|[(HD & HvtD & _ & Hcell) _]]].
  - assert (D = Derived) as -> by (apply distinct_tables; congruence).
    unfold held_object in Hd. destruct (m_storage c); [done| |].
    + destruct Hcell as [_ ?]. congruence.
    + destruct Hcell as (_ & _ & o & Ho & ?). congruence.
  - unfold held_object in Hd. rewrite Hcell in Hd.
    assert (is_Some (objects m !! nullptr)) as Hlive by eauto.
    apply (inv_objects _ _ Hinv) in Hlive. unfold nullptr in Hlive. lia.
Qed.

Lemma moved_source_dyn N Incoming this src s m :
  invariant N m -> Incoming ∈ linked ->
  incoming assign_container_move Incoming this src m ->
  source_object assign_container_move src m = Some s ->
  dyn s = Incoming.
Proof.
  simpl. intros Hinv Hinc (_ & cs & Hcs & Hvt) Hs. rewrite Hcs in Hs.
  by eapply invariant_held_dyn.
Qed.

(** X7. In a well-formed machine, an assignment of a class whose [Base]
    subobject lies at offset 0 that returns, by copy or by move, from a
    container or from a value, in place or by rebuilding, leaves the
    destination dereferencing to an object of that class with the value of
    the source. *)
Theorem assignment_gives_the_value_of_the_source N a Incoming this src c s m m' :
  invariant N m -> Incoming ∈ linked ->
  get_vtable Incoming = Instantiated (vtable_address Incoming) ->
  base_offset Incoming = 0 ->
  containers m !! this = Some c ->
  incoming a Incoming this src m ->
  source_object a src m = Some s ->
  run_assignment a Incoming this src m = Ok tt m' ->
  exists o', operator_star this m' = Ok o' m' /\
             dyn o' = Incoming /\ value o' = value s.
Proof.
  intros Hinv Hinc Hget Hbase Hc Hincoming Hs H.
  destruct (inv_containers _ _ Hinv this c Hc) as [Current Hwf].
  apply well_formed_linked in Hwf as [Hcur Hvt].
  rewrite (run_assignment_eq _ _ _ _ _ _ _ Hcur Hinc Hc Hvt Hincoming) in H.
  case_decide as Hsame.
  - subst Incoming.
    assert (assign_entry a (table_of Current) (source_of a src) (storage_of this) m
              = Ok tt m') as Hentry.
    { destruct a; simpl in *; [done| |done..]. by apply noexcept_Ok. }
    apply (assign_entry_value _ _ _ _ s) in Hentry
      as (c' & o' & Hc' & Hvalue & Hdes & Hkept & Hclass); [|done].
    assert (dyn o' = Current) as Hdyn.
    { destruct (Hclass c Hc) as [(-> & _ & ->)|(d & Hd & -> & _)].
      - by eapply moved_source_dyn.
      - by eapply invariant_held_dyn. }
    exists o'. split; [|done].
    eapply operator_star_eq; [done|done|by rewrite (Hkept c Hc)|done|].
    by rewrite Hdyn.
  - assert ((let! _ := destroy (table_of Current) (storage_of this) in
             let! _ := store_vtable this (vtable_address Incoming) in
             build_entry a (table_of Incoming) (source_of a src) (storage_of this)) m
              = Ok tt m') as Hpath.
    { destruct a; simpl in *; [done| |done..]. by apply noexcept_Ok. }
    clear H. apply bind_Ok in Hpath as (u & m1 & Hdestroy & H). destruct u.
    apply bind_Ok in H as (u & m2 & Hstore & H). destruct u.
    destruct (destroy_frame _ _ _ _ _ Hc Hdestroy)
      as (Hothers & _ & Hshrink & Hkeep & _).
    apply store_vtable_Ok in Hstore as (c1 & Hc1 & ->).
    apply (build_entry_value _ _ _ _ s) in H
      as (c' & o' & Hc' & Hvalue & Hdes & Hkept & Hclass).
    + assert (dyn o' = Incoming) as Hdyn.
      { destruct Hclass as [(-> & _ & ->)|Hdyn]; [|done].
        by eapply moved_source_dyn. }
      exists o'. split; [|done].
      eapply operator_star_eq; [done|done| |done|by rewrite Hdyn].
      rewrite (Hkept (Container (m_storage c1) (vtable_address Incoming))); [done|].
      simpl. apply lookup_insert_eq.
    + intros x. destruct a; simpl in *.
      * destruct Hincoming as [Hne _].
        rewrite lookup_insert_ne, Hothers by done.
        destruct (containers m !! src) as [cs|]; [|done].
        unfold held_object in *. simpl.
        destruct (m_storage cs); [done|congruence|].
        intros Hx. apply Hshrink in Hx. congruence.
      * destruct Hincoming as [Hne _].
        rewrite lookup_insert_ne, Hothers by done.
        destruct (containers m !! src) as [cs|]; [|done].
        unfold held_object in *. simpl.
        destruct (m_storage cs); [done|congruence|].
        intros Hx. apply Hshrink in Hx. congruence.
      * intros Hx. apply Hshrink in Hx. congruence.
      * intros Hx. apply Hshrink in Hx. congruence.
    + intros Hcontainer.
      assert (src <> this /\ exists cs, containers m !! src = Some cs /\
                held_object m cs = Some s) as (Hne & cs & Hcs & Hheld).
      { destruct a; simpl in *; try discriminate;
          destruct Hincoming as [Hne _]; (split; [done|]);
          destruct (containers m !! src) as [cs|]; try done; eauto. }
      split; [done|].
      assert (source_object a src
                (with_containers
                   (<[this := Container (m_storage c1) (vtable_address Incoming)]>) m1)
              = held_object m1 cs) as ->.
      { destruct a; simpl in *; try discriminate;
          by rewrite lookup_insert_ne, Hothers, Hcs by done. }
      unfold held_object in *. destruct (m_storage cs) as [|o|q] eqn:Hcell; [done..|].
      rewrite Hkeep; [done|]. intros Hq.
      destruct (decide (q = nullptr)) as [|Hnull]; [done|].
      exfalso. apply Hne. by apply (inv_owned _ _ Hinv src this cs c q).
Qed.

(** ** Assigning to a container that was moved from *)

(** X8. A container that was moved from holds a null pointer under the heap
    table of its class.  Assigning to it a container or a value of that same
    class, other than by move from a container, takes the in-place path and
    assigns through the null pointer: the behaviour is undefined. *)
Theorem same_class_assignment_to_moved_from_is_undefined a Derived this src c m :
  a <> assign_container_move ->
  containers m !! this = Some c -> moved_from c Derived ->
  objects m !! nullptr = None ->
  incoming a Derived this src m ->
  run_assignment a Derived this src m = Undefined.
Proof.
  intros Ha Hc (Hin & Hvt & Hkind & Hcell) Hnull Hincoming.
  rewrite (run_assignment_eq _ _ _ _ _ _ _ Hin Hin Hc Hvt Hincoming).
  rewrite decide_True by done. unfold table_of. rewrite Hkind.
  destruct a; [|done| |]; simpl.
  - destruct Hincoming as (_ & cs & Hcs & _).
    unfold heap_storage.copy_assign, load_pointer, load_storage, load_container,
      deref, bind, ret.
    rewrite Hcs. simpl. destruct (m_storage cs) as [|o|q]; simpl; [done..|].
    destruct (objects m !! q); [|done].
    rewrite Hc. simpl. rewrite Hcell. simpl. by rewrite Hnull.
  - unfold heap_storage.copy_assign_raw, load_object, load_pointer, load_storage,
      load_container, deref, bind, ret.
    destruct (objects m !! src); [|done].
    rewrite Hc. simpl. rewrite Hcell. simpl. by rewrite Hnull.
  - unfold heap_storage.move_assign_raw, noexcept, load_object, load_pointer,
      load_storage, load_container, deref, bind, ret.
    destruct (objects m !! src); [|done].
    rewrite Hc. simpl. rewrite Hcell. simpl. by rewrite Hnull.
Qed.

(** ** Emplacing *)

Lemma construct_eq Derived args m :
  constructor Derived <> Throws ->
  construct Derived args m = Ok (Object Derived args) (with_event (ev_ctor Derived) m).
Proof. intros H. unfold construct, bind. by rewrite (call_eq _ _ _ _ H). Qed.

(** [build] with an initialiser that returns [o] and logs [e]. *)
Lemma build_eq Derived init o e this c m :
  (forall m0, objects m0 = objects m -> init m0 = Ok o (with_event e m0)) ->
  containers m !! this = Some c ->
  (in_heap Derived = true -> free_store m <> 0%nat) ->
  exists m',
    build Derived init (storage_of this) m = Ok tt m' /\
    trace m' = trace m ++ build_trace Derived e /\
    (forall l, l <> this -> containers m' !! l = containers m !! l) /\
    (forall q, q <> next_block m -> objects m' !! q = objects m !! q) /\
    exists c', containers m' !! this = Some c' /\ m_vtable c' = m_vtable c /\
               designates Derived m' c' o.
Proof.
  intros Hinit Hc Hfree. unfold build, build_trace, designates.
  destruct (in_heap Derived) eqn:Hkind.
  - specialize (Hfree eq_refl).
    destruct (free_store m) as [|n] eqn:Hstore; [done|].
    unfold new_expression, operator_new, on_unwind, store_storage,
      load_container, set_containers, set_objects, bind, ret.
    rewrite Hstore. rewrite Hinit by done. simpl. rewrite Hc. simpl.
    eexists. split; [reflexivity|]. simpl.
    split; [by rewrite <- app_assoc|].
    split; [intros l Hl; by rewrite lookup_insert_ne|].
    split; [intros q Hq; by rewrite lookup_insert_ne|].
    eexists. split; [apply lookup_insert_eq|]. simpl.
    split; [done|]. split; [done|apply lookup_insert_eq].
  - unfold store_storage, load_container, set_containers, bind, ret.
    rewrite Hinit by done. simpl. rewrite Hc. simpl.
    eexists. split; [reflexivity|]. simpl.
    split; [done|].
    split; [intros l Hl; by rewrite lookup_insert_ne|].
    split; [done|].
    eexists. split; [apply lookup_insert_eq|]. done.
Qed.

(** [build] with the in-place constructor, when nothing raises. *)
Lemma build_construct_eq Derived args this c m :
  containers m !! this = Some c ->
  constructor Derived <> Throws ->
  (in_heap Derived = true -> free_store m <> 0%nat) ->
  exists m',
    build Derived (construct Derived args) (storage_of this) m = Ok tt m' /\
    trace m' = trace m ++ build_trace Derived (ev_ctor Derived) /\
    (forall l, l <> this -> containers m' !! l = containers m !! l) /\
    (forall q, q <> next_block m -> objects m' !! q = objects m !! q) /\
    exists c', containers m' !! this = Some c' /\ m_vtable c' = m_vtable c /\
               designates Derived m' c' (Object Derived args).
Proof.
  intros Hc Hctor Hfree. apply build_eq; [|done..].
  intros m0 _. by apply construct_eq.
Qed.

(** [destroy] on a container that holds an object. *)
Lemma destroy_holds_eq Derived this c m :
  containers m !! this = Some c -> holds m c Derived ->
  exists m1 c1,
    destroy (table_of Derived) (storage_of this) m = Ok tt m1 /\
    trace m1 = trace m ++ destroy_trace Derived /\
    next_block m1 = next_block m /\ free_store m1 = free_store m /\
    (forall l, l <> this -> containers m1 !! l = containers m !! l) /\
    containers m1 !! this = Some c1 /\ m_vtable c1 = m_vtable c /\
    objects m1 = match m_storage c with
                 | heap_buffer p => delete p (objects m)
                 | _ => objects m
                 end /\
    m_storage c1 = match m_storage c with
                   | heap_buffer p => heap_buffer p
                   | _ => uninitialised
                   end.
Proof.
  intros Hc (Hin & Hvt & Hs). unfold table_of, destroy_trace.
  destruct (m_storage c) as [|o|p] eqn:Hcell; [done| |].
  - destruct Hs as [-> _]. simpl.
    unfold local_storage.destroy, load_object, load_storage, store_storage,
      load_container, log, set_containers, bind, ret.
    rewrite Hc. simpl. rewrite Hcell. simpl. rewrite Hc. simpl.
    eexists _, _. split; [reflexivity|]. simpl.
    do 3 (split; [done|]).
    split; [intros l Hl; by rewrite lookup_insert_ne|].
    split; [apply lookup_insert_eq|]. done.
  - destruct Hs as (-> & Hp & o & Ho & _). simpl.
    unfold heap_storage.destroy, delete_expression, operator_delete, deref,
      load_pointer, load_storage, load_container, log, set_objects, bind, ret.
    rewrite Hc. simpl. rewrite Hcell. simpl.
    rewrite (proj2 (Z.eqb_neq p nullptr)) by done. rewrite Ho. simpl.
    eexists _, _. split; [reflexivity|]. simpl.
    split; [by rewrite <- app_assoc|]. do 3 (split; [done|]).
    split; [exact Hc|]. by rewrite Hcell.
Qed.

(** [destroy] on a container that was moved from does nothing. *)
Lemma destroy_moved_from_eq Derived this c m :
  containers m !! this = Some c -> moved_from c Derived ->
  destroy (table_of Derived) (storage_of this) m = Ok tt m.
Proof.
  intros Hc (Hin & Hvt & Hkind & Hcell). unfold table_of. rewrite Hkind. simpl.
  unfold heap_storage.destroy, delete_expression, load_pointer, load_storage,
    load_container, bind, ret.
  rewrite Hc. simpl. by rewrite Hcell.
Qed.

Lemma store_vtable_eq this c a m :
  containers m !! this = Some c ->
  store_vtable this a m
    = Ok tt (with_containers (<[this := Container (m_storage c) a]>) m).
Proof.
  intros Hc. unfold store_vtable, load_container, set_containers, bind.
  by rewrite Hc.
Qed.

(** X9. [emplace] on a container that holds an object always destroys that
    object and builds a new one from the arguments, also when the class is
    the one already held: it never assigns.  When the constructor returns
    and the free store is not used up, the events are those of the
    destruction followed by those of the construction, the container then
    dereferences to the new object (the [Base] subobject of the class lying
    at offset 0), and the other containers are untouched. *)
Theorem emplace_destroys_and_rebuilds Current Derived this c args m :
  get_vtable Derived = Instantiated (vtable_address Derived) ->
  base_offset Derived = 0 ->
  containers m !! this = Some c -> holds m c Current ->
  constructor Derived <> Throws ->
  (in_heap Derived = true -> free_store m <> 0%nat) ->
  exists m',
    emplace Derived this args m = Ok tt m' /\
    trace m' = trace m ++ destroy_trace Current
                       ++ build_trace Derived (ev_ctor Derived) /\
    operator_star this m' = Ok (Object Derived args) m' /\
    forall l, l <> this -> containers m' !! l = containers m !! l.
Proof.
  intros Hget Hbase Hc Hholds Hctor Hfree.
  destruct (destroy_holds_eq _ _ _ _ Hc Hholds)
    as (m1 & c1 & Hdestroy & Htrace1 & Hnext1 & Hfree1 & Hothers1 & Hc1 & Hvt1 & _ & _).
  destruct Hholds as (Hin & Hvt & _).
  destruct (build_construct_eq Derived args this
              (Container (m_storage c1) (vtable_address Derived))
              (with_containers
                 (<[this := Container (m_storage c1) (vtable_address Derived)]>) m1))
    as (m' & Hbuild & Htrace & Hothers & _ & c' & Hc' & Hvt' & Hdes);
    [apply lookup_insert_eq|done|simpl; by rewrite Hfree1|].
  exists m'. split; [|split; [|split]].
  - unfold emplace.
    rewrite (bind_eq _ _ _ _ _ (dispatch_eq _ _ _ _ Hc Hin Hvt)).
    rewrite (bind_eq _ _ _ _ _ Hdestroy).
    by rewrite (bind_eq _ _ _ _ _ (store_vtable_eq _ _ _ _ Hc1)).
  - rewrite Htrace. cbn [trace with_containers]. by rewrite Htrace1, app_assoc.
  - by eapply operator_star_eq.
  - intros l Hl. rewrite Hothers by done. simpl.
    rewrite lookup_insert_ne by done. by apply Hothers1.
Qed.

(** X10. [emplace] brings a container that was moved from back to life:
    destroying the null pointer does nothing, so that no destructor runs
    and no block is freed, and the container then holds the new object and
    dereferences to it (the [Base] subobject of the class lying at offset
    0). *)
Theorem emplace_revives_moved_from Current Derived this c args m :
  get_vtable Derived = Instantiated (vtable_address Derived) ->
  base_offset Derived = 0 ->
  containers m !! this = Some c -> moved_from c Current ->
  constructor Derived <> Throws ->
  (in_heap Derived = true -> free_store m <> 0%nat) ->
  exists m',
    emplace Derived this args m = Ok tt m' /\
    trace m' = trace m ++ build_trace Derived (ev_ctor Derived) /\
    operator_star this m' = Ok (Object Derived args) m' /\
    forall l, l <> this -> containers m' !! l = containers m !! l.
Proof.
  intros Hget Hbase Hc Hmoved Hctor Hfree.
  pose proof (destroy_moved_from_eq _ _ _ _ Hc Hmoved) as Hdestroy.
  destruct Hmoved as (Hin & Hvt & _).
  destruct (build_construct_eq Derived args this
              (Container (m_storage c) (vtable_address Derived))
              (with_containers
                 (<[this := Container (m_storage c) (vtable_address Derived)]>) m))
    as (m' & Hbuild & Htrace & Hothers & _ & c' & Hc' & Hvt' & Hdes);
    [apply lookup_insert_eq|done|done|].
  exists m'. split; [|split; [|split]].
  - unfold emplace.
    rewrite (bind_eq _ _ _ _ _ (dispatch_eq _ _ _ _ Hc Hin Hvt)).
    rewrite (bind_eq _ _ _ _ _ Hdestroy).
    by rewrite (bind_eq _ _ _ _ _ (store_vtable_eq _ _ _ _ Hc)).
  - done.
  - by eapply operator_star_eq.
  - intros l Hl. rewrite Hothers by done. simpl. by rewrite lookup_insert_ne.
Qed.

(** ** When the rebuilding of an assignment raises *)

Lemma bind_Throw {A B} (f : M A) (k : A -> M B) m e m' :
  bind f k m = Throw e m' ->
  f m = Throw e m' \/ exists a m1, f m = Ok a m1 /\ k a m1 = Throw e m'.
Proof.
  unfold bind. destruct (f m) as [a m1|e0 m0| |]; intros H;
    [right; eauto|left; by injection H as -> ->|discriminate H..].
Qed.

Lemma noexcept_Throw {A} (f : M A) m e m' : noexcept f m <> Throw e m'.
Proof. unfold noexcept. by destruct (f m). Qed.

(** Steps that never raise. *)
Lemma load_container_Throw this m e m' : load_container this m <> Throw e m'.
Proof. unfold load_container. by destruct (containers m !! this). Qed.

Lemma deref_Throw p m e m' : deref p m <> Throw e m'.
Proof. unfold deref. by destruct (objects m !! p). Qed.

Lemma load_storage_Throw ptr m e m' : load_storage ptr m <> Throw e m'.
Proof.
  destruct ptr; simpl; [|done]. unfold bind, load_container.
  by destruct (containers m !! this).
Qed.

Lemma load_pointer_Throw ptr m e m' : load_pointer ptr m <> Throw e m'.
Proof.
  unfold load_pointer. intros H. apply bind_Throw in H as [H|(s & m1 & _ & H)].
  - by apply load_storage_Throw in H.
  - by destruct s.
Qed.

Lemma load_object_Throw ptr m e m' : load_object ptr m <> Throw e m'.
Proof.
  destruct ptr; simpl; [|apply deref_Throw].
  intros H. apply bind_Throw in H as [H|(s & m1 & _ & H)].
  - apply bind_Throw in H as [H|(c & m2 & _ & H)]; [|done].
    by apply load_container_Throw in H.
  - by destruct s.
Qed.

Lemma store_storage_Throw ptr s m e m' : store_storage ptr s m <> Throw e m'.
Proof.
  destruct ptr; simpl; [|done]. unfold bind, load_container.
  by destruct (containers m !! this).
Qed.

Lemma call_Throw b Derived ev m e m' :
  call b Derived ev m = Throw e m' -> m' = m.
Proof.
  destruct b; simpl; intros H; [discriminate H..|].
  unfold throw in H. congruence.
Qed.

(** A special member that raises has changed nothing. *)
Lemma construct_Throw Derived args m e m' :
  construct Derived args m = Throw e m' -> m' = m.
Proof.
  unfold construct. intros H. apply bind_Throw in H as [H|(u & m1 & _ & H)]; [|done].
  by apply call_Throw in H.
Qed.

Lemma copy_construct_Throw Derived s m e m' :
  copy_construct Derived s m = Throw e m' -> m' = m.
Proof.
  unfold copy_construct. intros H.
  apply bind_Throw in H as [H|(u & m1 & _ & H)]; [|done].
  by apply call_Throw in H.
Qed.

Lemma move_construct_Throw Derived s m e m' :
  move_construct Derived s m = Throw e m' -> m' = m.
Proof.
  unfold move_construct. intros H.
  apply bind_Throw in H as [H|(u & m1 & _ & H)]; [|done].
  by apply call_Throw in H.
Qed.

Lemma read_then_construct_Throw (read : M object) (make : object -> M object) m e m' :
  (forall m0 e0 m1, read m0 <> Throw e0 m1) ->
  (forall m0 o m1, read m0 = Ok o m1 -> m1 = m0) ->
  (forall s m0 e0 m1, make s m0 = Throw e0 m1 -> m1 = m0) ->
  (let! s := read in make s) m = Throw e m' -> m' = m.
Proof.
  intros Hnever Hpure Hmake H. apply bind_Throw in H as [H|(s & m1 & Hs & H)].
  - by apply Hnever in H.
  - apply Hpure in Hs as ->. by apply Hmake in H.
Qed.

(** A [new] expression that raises has taken no block, or has given back
    the block it took: the containers are as before and no address has
    come to hold an object. *)
Lemma new_expression_Throw init m e m' :
  (forall m0 e0 m1, init m0 = Throw e0 m1 -> m1 = m0) ->
  new_expression init m = Throw e m' ->
  containers m' = containers m /\
  (forall q, objects m !! q = None -> objects m' !! q = None) /\
  (objects m !! next_block m = None -> objects m' = objects m).
Proof.
  intros Hinit H. unfold new_expression in H.
  apply bind_Throw in H as [H|(p & m0 & Hnew & H)].
  - unfold operator_new in H. destruct (free_store m); [|discriminate H].
    by injection H as _ <-.
  - apply operator_new_Ok in Hnew as (-> & n & _ & ->).
    apply bind_Throw in H as [H|(o & m1 & _ & H)].
    + unfold on_unwind in H.
      match type of H with context [init ?m0] =>
        destruct (init m0) as [o m1|e0 m1| |] eqn:Hrun; try discriminate H
      end.
      apply Hinit in Hrun as ->.
      unfold operator_delete, log, set_objects, bind in H. simpl in H.
      injection H as _ <-. simpl. split; [done|]. split.
      * intros q Hq. apply lookup_delete_None. by right.
      * intros Hfresh. by apply delete_id.
    + apply bind_Throw in H as [H|(u & m2 & _ & H)]; discriminate H.
Qed.

(** A build entry that raises keeps the containers and brings no object
    into being; it leaves the objects as they were when the next block is
    fresh. *)
Lemma build_entry_Throw a Derived src this e m m' :
  build_entry a (table_of Derived) (source_of a src) (storage_of this) m
    = Throw e m' ->
  containers m' = containers m /\
  (forall q, objects m !! q = None -> objects m' !! q = None) /\
  (objects m !! next_block m = None -> objects m' = objects m).
Proof.
  assert (forall (read : M object) (make : object -> M object) dst m0 e0 m1,
    (forall m2 e2 m3, read m2 <> Throw e2 m3) ->
    (forall m2 o m3, read m2 = Ok o m3 -> m3 = m2) ->
    (forall s m2 e2 m3, make s m2 = Throw e2 m3 -> m3 = m2) ->
    (let! p := new_expression (let! s := read in make s) in
     store_storage dst (heap_buffer p)) m0 = Throw e0 m1 ->
    containers m1 = containers m0 /\
    (forall q, objects m0 !! q = None -> objects m1 !! q = None) /\
    (objects m0 !! next_block m0 = None -> objects m1 = objects m0)) as Hheap.
  { intros read make dst m0 e0 m1 Hnever Hpure Hmake H.
    apply bind_Throw in H as [H|(p & m2 & _ & H)].
    - apply new_expression_Throw in H; [done|].
      intros m2 e2 m3. by apply read_then_construct_Throw.
    - by apply store_storage_Throw in H. }
  assert (forall (read : M object) (make : object -> M object) dst m0 e0 m1,
    (forall m2 e2 m3, read m2 <> Throw e2 m3) ->
    (forall m2 o m3, read m2 = Ok o m3 -> m3 = m2) ->
    (forall s m2 e2 m3, make s m2 = Throw e2 m3 -> m3 = m2) ->
    (let! s := read in let! o := make s in store_storage dst (local_buffer o)) m0
      = Throw e0 m1 ->
    containers m1 = containers m0 /\
    (forall q, objects m0 !! q = None -> objects m1 !! q = None) /\
    (objects m0 !! next_block m0 = None -> objects m1 = objects m0)) as Hlocal.
  { intros read make dst m0 e0 m1 Hnever Hpure Hmake H.
    apply bind_Throw in H as [H|(s & m2 & Hs & H)]; [by apply Hnever in H|].
    apply Hpure in Hs as ->.
    apply bind_Throw in H as [H|(o & m2 & _ & H)].
    - by apply Hmake in H as ->.
    - by apply store_storage_Throw in H. }
  unfold table_of. destruct a, (in_heap Derived); simpl; intros H.
  - unfold heap_storage.copy in H.
    apply bind_Throw in H as [H|(q & m1 & Hq & H)]; [by apply load_pointer_Throw in H|].
    apply load_pointer_pure in Hq as ->.
    eapply (Hheap (deref q) (copy_construct Derived)); [apply deref_Throw| | |done].
    + intros ? ? ?. apply deref_pure.
    + apply copy_construct_Throw.
  - eapply (Hlocal _ (copy_construct Derived)); [apply load_object_Throw| | |done].
    + intros ? ? ?. apply load_object_Ok.
    + apply copy_construct_Throw.
  - by apply noexcept_Throw in H.
  - by apply noexcept_Throw in H.
  - eapply (Hheap _ (copy_construct Derived)); [apply load_object_Throw| | |done].
    + intros ? ? ?. apply load_object_Ok.
    + apply copy_construct_Throw.
  - eapply (Hlocal _ (copy_construct Derived)); [apply load_object_Throw| | |done].
    + intros ? ? ?. apply load_object_Ok.
    + apply copy_construct_Throw.
  - by apply noexcept_Throw in H.
  - by apply noexcept_Throw in H.
Qed.

(** So does [build], for an initialiser that changes nothing when it
    raises. *)
Lemma build_Throw Derived init storage e m m' :
  (forall m0 e0 m1, init m0 = Throw e0 m1 -> m1 = m0) ->
  build Derived init storage m = Throw e m' ->
  containers m' = containers m /\
  (forall q, objects m !! q = None -> objects m' !! q = None) /\
  (objects m !! next_block m = None -> objects m' = objects m).
Proof.
  intros Hinit H. unfold build in H. destruct (in_heap Derived).
  - apply bind_Throw in H as [H|(p & m1 & _ & H)].
    + by apply new_expression_Throw in H.
    + by apply store_storage_Throw in H.
  - apply bind_Throw in H as [H|(o & m1 & _ & H)].
    + by apply Hinit in H as ->.
    + by apply store_storage_Throw in H.
Qed.

Lemma on_unwind_Throw {A} (f : M A) cleanup m e m' :
  on_unwind f cleanup m = Throw e m' ->
  exists m1, f m = Throw e m1 /\ cleanup m1 = Ok tt m'.
Proof.
  unfold on_unwind. destruct (f m) as [a m1|e0 m1| |]; try discriminate.
  destruct (cleanup m1) as [[] m2| | |] eqn:Hcleanup; try discriminate.
  intros [= -> ->]. eauto.
Qed.

(** The slicing check that raises has at most taken a block for the
    message of the exception. *)
Lemma check_typeid_Throw Derived d m e m' :
  check_typeid Derived d m = Throw e m' ->
  containers m' = containers m /\ objects m' = objects m.
Proof.
  unfold check_typeid. destruct POLYMORPHIC_VALUE_RTTI_SUPPORTED; [|discriminate].
  intros H. apply bind_Throw in H as [H|(o & m1 & Ho & H)].
  - by apply deref_Throw in H.
  - apply deref_pure in Ho as ->.
    destruct (bool_decide _); [|discriminate].
    unfold throw_bad_polymorphic_value, bind, operator_new, throw in H.
    destruct (free_store m); by injection H as _ <-.
Qed.

Lemma begin_lifetime_Throw this a m e m' : begin_lifetime this a m <> Throw e m'.
Proof. unfold begin_lifetime. by destruct (containers m !! this). Qed.

Lemma dispatch_Throw this m e m' : dispatch this m <> Throw e m'.
Proof.
  unfold dispatch. intros H. apply bind_Throw in H as [H|(c & m1 & _ & H)].
  - by apply load_container_Throw in H.
  - unfold load_vtable in H. by destruct (find _ _).
Qed.

(** A constructor body that raises after the container came to life, and
    the unwinding that ends the container. *)
Lemma constructor_unwinds this a (body : M unit) e m m' :
  objects m !! next_block m = None ->
  (forall m1 e1 m2,
     containers m1 = <[this := Container uninitialised a]> (containers m) ->
     objects m1 = objects m -> next_block m1 = next_block m ->
     body m1 = Throw e1 m2 ->
     containers m2 = containers m1 /\
     (objects m1 !! next_block m1 = None -> objects m2 = objects m1)) ->
  (let! _ := begin_lifetime this a in on_unwind body (end_lifetime this)) m
    = Throw e m' ->
  containers m' = containers m /\ objects m' = objects m.
Proof.
  intros Hfresh Hbody H. apply bind_Throw in H as [H|(u & m1 & Hbegin & H)].
  { by apply begin_lifetime_Throw in H. }
  apply begin_lifetime_Ok in Hbegin as [Hthis ->].
  apply on_unwind_Throw in H as (m2 & H & Hend).
  apply Hbody in H as [Hsame Hobjects]; [|done..].
  unfold end_lifetime in Hend. apply set_containers_Ok in Hend as ->. simpl in *.
  rewrite Hsame, delete_insert_id by done. split; [done|]. by apply Hobjects.
Qed.

(** X12. The constructors are safe against exceptions.  When construction
    from a value, in place, or by copy raises (the slicing check, the
    allocation, or the constructor of the class), and the next block of the
    allocator is fresh, the containers and the objects are as before: no
    container has come to life and no block is kept. *)
Theorem constructors_raise_cleanly this e m m' :
  objects m !! next_block m = None ->
  (forall Derived cat d,
     polymorphic_value_impl_value Derived cat this d m = Throw e m' ->
     containers m' = containers m /\ objects m' = objects m) /\
  (forall Derived args,
     polymorphic_value_impl_in_place Derived this args m = Throw e m' ->
     containers m' = containers m /\ objects m' = objects m) /\
  (forall src,
     polymorphic_value_impl_copy this src m = Throw e m' ->
     containers m' = containers m /\ objects m' = objects m).
Proof.
  intros Hfresh. split; [|split].
  - intros Derived cat d H. unfold polymorphic_value_impl_value in H.
    apply bind_Throw in H as [H|(u & m1 & Hcheck & H)].
    { by apply check_typeid_Throw in H. }
    apply check_typeid_Ok in Hcheck as ->.
    eapply constructor_unwinds; [done| |done].
    intros m1 e1 m2 _ _ _ Hbuild.
    apply build_Throw in Hbuild as (? & _ & ?); [done|].
    intros m0 e0 m3. apply read_then_construct_Throw.
    + apply deref_Throw.
    + intros ? ? ?. apply deref_pure.
    + intros s m4 e4 m5. destruct cat; simpl.
      * apply copy_construct_Throw.
      * apply move_construct_Throw.
  - intros Derived args H. unfold polymorphic_value_impl_in_place in H.
    eapply constructor_unwinds; [done| |done].
    intros m1 e1 m2 _ _ _ Hbuild.
    apply build_Throw in Hbuild as (? & _ & ?); [done|].
    intros m0 e0 m3. apply construct_Throw.
  - intros src H. unfold polymorphic_value_impl_copy in H.
    apply bind_Throw in H as [H|(s & m1 & Hs & H)].
    { by apply load_container_Throw in H. }
    apply load_container_Ok in Hs as [-> Hs].
    eapply constructor_unwinds; [done| |done].
    intros m1 e1 m2 _ _ _ Hcopy.
    apply bind_Throw in Hcopy as [Hcopy|(vt & m3 & Hvt & Hcopy)].
    { by apply dispatch_Throw in Hcopy. }
    pose proof (dispatch_table _ _ _ _ Hvt) as [D ->].
    apply dispatch_Ok in Hvt as [-> _].
    by apply (build_entry_Throw assign_container_copy) in Hcopy as (? & _ & ?).
Qed.

(** The destructor of a container whose cell designates no object, and is
    not the null pointer of a container that was moved from, is undefined. *)
Lemma destructor_of_dead_cell Derived this c m :
  Derived ∈ linked ->
  containers m !! this = Some c -> m_vtable c = vtable_address Derived ->
  held_object m c = None -> m_storage c <> heap_buffer nullptr ->
  destructor this m = Undefined.
Proof.
  intros Hin Hc Hvt Hnone Hnull. unfold destructor.
  rewrite (bind_eq _ _ _ _ _ (dispatch_eq _ _ _ _ Hc Hin Hvt)).
  unfold table_of, held_object in *.
  destruct (in_heap Derived); simpl.
  - unfold heap_storage.destroy, delete_expression, deref, load_pointer,
      load_storage, load_container, bind, ret.
    rewrite Hc. simpl. destruct (m_storage c) as [|o|p]; simpl; [done..|].
    destruct (p =? nullptr) eqn:Hp.
    + apply Z.eqb_eq in Hp. congruence.
    + unfold bind. by rewrite Hnone.
  - unfold local_storage.destroy, load_object, load_storage, load_container,
      bind, ret.
    rewrite Hc. simpl. by destruct (m_storage c).
Qed.

(** X11. An assignment by copy that destroys and rebuilds is not safe
    against exceptions.  When the destination holds an object of another
    class than the incoming one and the construction of the new object
    raises (the copy constructor, or the allocation), the exception reaches
    the caller with the old object destroyed, the table pointer already
    switched and no new object: the destination designates no object, and
    its destructor is then undefined. *)
Theorem failed_rebuild_leaves_no_object a Current Incoming this src c e m m' :
  Incoming ∈ linked ->
  containers m !! this = Some c -> holds m c Current ->
  Current <> Incoming ->
  incoming a Incoming this src m ->
  run_assignment a Incoming this src m = Throw e m' ->
  (exists c', containers m' !! this = Some c' /\
     m_vtable c' = vtable_address Incoming /\ held_object m' c' = None) /\
  destructor this m' = Undefined.
Proof.
  intros Hinc Hc Hholds Hne Hincoming H.
  destruct (destroy_holds_eq _ _ _ _ Hc Hholds)
    as (m1 & c1 & Hdestroy & _ & _ & _ & _ & Hc1 & _ & Hobjects & Hcell).
  pose proof Hholds as (Hcur & Hvt & Hs).
  rewrite (run_assignment_eq _ _ _ _ _ _ _ Hcur Hinc Hc Hvt Hincoming) in H.
  rewrite decide_False in H by done.
  assert (build_entry a (table_of Incoming) (source_of a src) (storage_of this)
            (with_containers
               (<[this := Container (m_storage c1) (vtable_address Incoming)]>) m1)
          = Throw e m') as Hbuild.
  { rewrite <- H. destruct a; simpl;
      try (by rewrite (bind_eq _ _ _ _ _ Hdestroy),
                      (bind_eq _ _ _ _ _ (store_vtable_eq _ _ _ _ Hc1))).
    by apply noexcept_Throw in H. }
  apply build_entry_Throw in Hbuild as (Hsame & Hnone & _). simpl in *.
  set (c' := Container (m_storage c1) (vtable_address Incoming)).
  assert (containers m' !! this = Some c') as Hc'.
  { rewrite Hsame. apply lookup_insert_eq. }
  assert (held_object m' c' = None /\ m_storage c' <> heap_buffer nullptr)
    as [Hdead Hnull].
  { unfold held_object, c'. simpl. rewrite Hcell.
    destruct (m_storage c) as [|o|p]; [done..|].
    destruct Hs as (_ & Hp & _). split; [|congruence].
    apply Hnone. rewrite Hobjects. apply lookup_delete_eq. }
  split; [by exists c'|].
  by apply (destructor_of_dead_cell Incoming this c' m').
Qed.

(** ** The static assertion on the placement of the heap table *)

Lemma member_offset_ge size align : 0 < align -> size <= member_offset size align.
Proof.
  intros Halign. unfold member_offset.
  pose proof (Z.div_mod (size + align - 1) align ltac:(lia)) as Hdiv.
  pose proof (Z.mod_pos_bound (size + align - 1) align Halign) as Hmod. lia.
Qed.

Lemma member_offset_multiple size align :
  0 < align -> size mod align = 0 -> member_offset size align = size.
Proof.
  intros Halign Hmultiple. unfold member_offset.
  apply Z.mod_divide in Hmultiple as [k ->]; [|lia].
  replace (k * align + align - 1) with (align - 1 + k * align) by lia.
  rewrite Z.div_add by lia. rewrite Z.div_small by lia. lia.
Qed.

(** X13. Whether [get_vtable] passes its static assertion is a property of
    the target, not of the class.  The table of an inline-stored class is
    always generated.  For a heap-stored class, the assertion passes on a
    target where the size of a pointer equals its alignment (and the table
    is no more aligned than a pointer), and fails with "Bug: misaligned
    vtable" on every target where a pointer is larger than its alignment. *)
Theorem vtable_placement_depends_on_the_target Derived :
  0 < alignof_vtable ->
  (in_heap Derived = false ->
   get_vtable Derived = Instantiated (vtable_address Derived)) /\
  (in_heap Derived = true -> sizeof_voidp = alignof_voidp ->
   alignof_voidp mod alignof_vtable = 0 ->
   get_vtable Derived = Instantiated (vtable_address Derived)) /\
  (in_heap Derived = true -> alignof_voidp < sizeof_voidp ->
   get_vtable Derived = static_assert_failed "Bug: misaligned vtable").
Proof.
  intros Halign. unfold get_vtable, offsetof_odd_aligned_vtable_vtable.
  split; [by intros ->|]. split.
  - intros -> Hsize Hmultiple.
    rewrite Hsize, member_offset_multiple, Z.eqb_refl by done. done.
  - intros -> Hsize.
    pose proof (member_offset_ge sizeof_voidp alignof_vtable Halign) as Hge.
    rewrite (proj2 (Z.eqb_neq _ _)) by lia. done.
Qed.

(** ** The clamp of the alias *)

(** X14. The [polymorphic_value] alias raises the requested capacity and
    alignment to those of a pointer.  Whatever is requested, a
    nothrow-move-constructible class no larger and no more aligned than a
    pointer is stored inline; and requesting less than a pointer is the same
    as requesting a pointer. *)
Theorem alias_keeps_pointer_sized_classes_inline Derived size align :
  (is_nothrow_move_constructible Derived = true ->
   sizeof Derived <= sizeof_voidp -> alignof Derived <= alignof_voidp ->
   store_in_heap Derived (polymorphic_value_SboSize size sizeof_voidp)
                 (polymorphic_value_SboAlignment align alignof_voidp) = false) /\
  (size <= sizeof_voidp -> align <= alignof_voidp ->
   store_in_heap Derived (polymorphic_value_SboSize size sizeof_voidp)
                 (polymorphic_value_SboAlignment align alignof_voidp)
   = store_in_heap Derived sizeof_voidp alignof_voidp).
Proof.
  unfold polymorphic_value_SboSize, polymorphic_value_SboAlignment. split.
  - intros Hmove Hsize Halign. apply store_in_heap_false_iff.
    split; [lia|]. split; [lia|done].
  - intros Hsize Halign. by rewrite !Z.max_r by lia.
Qed.

(** ** Sequences of statements *)

Lemma statement_keeps_invariant N st f m m' :
  invariant N m -> linked_statement st ->
  compile st = Instantiated f -> f m = Ok tt m' ->
  invariant (may_be_moved_from st N) m'.
Proof.
  intros Hinv Hlinked Hcompile Hrun.
  destruct st as [D cat this d|D this args|this src|this src|this src|this src
                 |D cat this d|D this args|this]; simpl in *;
    try (specialize (Hlinked D eq_refl)).
  - apply instantiate_Instantiated in Hcompile as ->.
    by eapply polymorphic_value_impl_value_spec.
  - apply instantiate_Instantiated in Hcompile as ->.
    by eapply polymorphic_value_impl_in_place_spec.
  - injection Hcompile as <-. by eapply polymorphic_value_impl_copy_spec.
  - injection Hcompile as <-. by eapply polymorphic_value_impl_move_spec.
  - injection Hcompile as <-. by eapply operator_assign_copy_spec.
  - injection Hcompile as <-. by eapply operator_assign_move_spec.
  - destruct cat; apply instantiate_Instantiated in Hcompile as ->.
    + by eapply operator_assign_value_copy_spec.
    + by eapply operator_assign_value_move_spec.
  - apply instantiate_Instantiated in Hcompile as ->. by eapply emplace_spec.
  - injection Hcompile as <-. by eapply destructor_spec.
Qed.

Lemma program_keeps_invariant sts : forall N f m m',
  invariant N m -> Forall linked_statement sts ->
  compile_all sts = Instantiated f -> f m = Ok tt m' ->
  invariant (may_be_moved_from_after sts N) m'.
Proof.
  induction sts as [|st rest IH]; intros N f m m' Hinv Hlinked Hcompile H.
  - injection Hcompile as <-. by invert_ok.
  - simpl in Hcompile. apply Forall_cons in Hlinked as [Hst Hrest].
    destruct (compile st) as [f1|] eqn:Hf1; [|discriminate]. simpl in Hcompile.
    destruct (compile_all rest) as [f2|] eqn:Hf2; [|discriminate].
    injection Hcompile as <-.
    apply bind_Ok in H as (u & m1 & H1 & H2). destruct u. simpl.
    eapply IH; [|done|done|done].
    by eapply statement_keeps_invariant.
Qed.

(** X15. The invariant composes along a program: after any sequence of
    statements that compiles and runs to its end from a well-formed machine,
    no two containers own one block, every object lies below the next block
    of the allocator, and every container holds an object of the class of
    its table unless it is among those the moves of the sequence may have
    left in the moved-from state. *)
Theorem programs_preserve_the_invariant sts N f m m' :
  invariant N m -> Forall linked_statement sts ->
  compile_all sts = Instantiated f -> f m = Ok tt m' ->
  invariant (may_be_moved_from_after sts N) m' /\
  (forall this c, containers m' !! this = Some c ->
     ~ may_be_moved_from_after sts N this -> exists Derived, holds m' c Derived).
Proof.
  intros Hinv Hlinked Hcompile H.
  pose proof (program_keeps_invariant _ _ _ _ _ Hinv Hlinked Hcompile H) as Hinv'.
  split; [done|]. intros this c Hc Hnot.
  destruct (inv_containers _ _ Hinv' this c Hc) as [D [?|[_ ?]]]; [eauto|done].
Qed.

Lemma may_be_moved_from_after_no_move sts : forall N,
  Forall (fun st => is_move st = false) sts ->
  may_be_moved_from_after sts N = N.
Proof.
  induction sts as [|st rest IH]; intros N Hmoves; [done|].
  apply Forall_cons in Hmoves as [Hst Hrest]. simpl.
  destruct st; try discriminate Hst; simpl; by apply IH.
Qed.

(** X16. A program that never moves a container keeps every container
    holding an object: started where every container holds one, after any
    sequence of constructions, copies, assignments by copy or from values,
    emplacements and destructions that runs to its end, every live container
    holds a valid object of the class of its table. *)
Theorem programs_without_moves_are_never_empty sts f m m' :
  Forall (fun st => is_move st = false) sts ->
  invariant (fun _ => False) m -> Forall linked_statement sts ->
  compile_all sts = Instantiated f -> f m = Ok tt m' ->
  never_empty m'.
Proof.
  intros Hmoves Hinv Hlinked Hcompile H.
  pose proof (program_keeps_invariant _ _ _ _ _ Hinv Hlinked Hcompile H) as Hinv'.
  rewrite may_be_moved_from_after_no_move in Hinv' by done.
  intros this c Hc.
  destruct (inv_containers _ _ Hinv' this c Hc) as [D [?|[_ []]]]. eauto.
Qed.

(** X17. A program all of whose classes are stored inline keeps every
    container holding an object, moves included: moving an inline object
    move-constructs or move-assigns it and leaves the source holding its
    object. *)
Theorem inline_programs_are_never_empty sts N f m m' :
  (forall Derived, Derived ∈ linked -> in_heap Derived = false) ->
  invariant N m -> Forall linked_statement sts ->
  compile_all sts = Instantiated f -> f m = Ok tt m' ->
  never_empty m'.
Proof.
  intros Hinline Hinv Hlinked Hcompile H.
  pose proof (program_keeps_invariant _ _ _ _ _ Hinv Hlinked Hcompile H) as Hinv'.
  intros this c Hc.
  destruct (inv_containers _ _ Hinv' this c Hc) as [D [?|[Hmoved _]]]; [eauto|].
  destruct Hmoved as (Hin & _ & Hkind & _).
  rewrite (Hinline D Hin) in Hkind. discriminate.
Qed.

(** ** Construction followed by destruction *)

(** Construction in place, when nothing raises. *)
Lemma in_place_eq Derived this args m :
  containers m !! this = None ->
  constructor Derived <> Throws ->
  (in_heap Derived = true -> free_store m <> 0%nat) ->
  polymorphic_value_impl_in_place Derived this args m =
    Ok tt (if in_heap Derived then
             Machine (<[this := Container (heap_buffer (next_block m))
                                          (vtable_address Derived)]> (containers m))
                     (<[next_block m := Object Derived args]> (objects m))
                     (next_block m + 1) (pred (free_store m))
                     (trace m ++ [ev_new; ev_ctor Derived])
           else
             Machine (<[this := Container (local_buffer (Object Derived args))
                                          (vtable_address Derived)]> (containers m))
                     (objects m) (next_block m) (free_store m)
                     (trace m ++ [ev_ctor Derived])).
Proof.
  intros Hthis Hctor Hfree.
  unfold polymorphic_value_impl_in_place, build, begin_lifetime, on_unwind.
  unfold bind at 1. rewrite Hthis. simpl.
  destruct (in_heap Derived) eqn:Hkind.
  - specialize (Hfree eq_refl).
    destruct (free_store m) as [|n] eqn:Hstore; [done|].
    unfold new_expression, operator_new, on_unwind, store_storage,
      load_container, set_containers, set_objects, bind, ret.
    simpl. rewrite Hstore. rewrite (construct_eq _ _ _ Hctor). simpl.
    rewrite lookup_insert_eq. simpl. unfold with_containers. simpl.
    by rewrite insert_insert_eq, <- app_assoc.
  - unfold store_storage, load_container, set_containers, bind, ret.
    rewrite (construct_eq _ _ _ Hctor). simpl.
    rewrite lookup_insert_eq. simpl. unfold with_containers. simpl.
    by rewrite insert_insert_eq.
Qed.

(** X18. Constructing a container in place and then destroying it, when the
    constructor returns and the free store is not used up, brings the
    containers and the objects back to what they were: the block allocated
    for a heap-stored class is freed, and the events are those of one
    construction followed by those of one destruction. *)
Theorem construct_then_destroy_restores Derived this args m :
  Derived ∈ linked ->
  containers m !! this = None ->
  objects m !! next_block m = None -> next_block m <> nullptr ->
  constructor Derived <> Throws ->
  (in_heap Derived = true -> free_store m <> 0%nat) ->
  exists m' m'',
    polymorphic_value_impl_in_place Derived this args m = Ok tt m' /\
    destructor this m' = Ok tt m'' /\
    containers m'' = containers m /\ objects m'' = objects m /\
    trace m'' = trace m ++ build_trace Derived (ev_ctor Derived)
                        ++ destroy_trace Derived.
Proof.
  intros Hin Hthis Hfresh Hnull Hctor Hfree.
  pose proof (in_place_eq Derived this args m Hthis Hctor Hfree) as Hbuild.
  match type of Hbuild with _ = Ok tt ?m0 => set (m' := m0) in * end.
  set (c' := Container (if in_heap Derived
                        then heap_buffer (next_block m)
                        else local_buffer (Object Derived args))
                       (vtable_address Derived)).
  assert (containers m' = <[this := c']> (containers m)) as Hcontainers.
  { unfold m', c'. by destruct (in_heap Derived). }
  assert (containers m' !! this = Some c') as Hc'.
  { rewrite Hcontainers. apply lookup_insert_eq. }
  assert (holds m' c' Derived) as Hholds.
  { split; [done|]. split; [done|]. unfold m', c'.
    destruct (in_heap Derived); simpl; [|done].
    split; [done|]. split; [done|].
    eexists. split; [apply lookup_insert_eq|done]. }
  destruct (destroy_holds_eq _ _ _ _ Hc' Hholds)
    as (m1 & c1 & Hdestroy & Htrace & _ & _ & Hothers & _ & _ & Hobjects & _).
  destruct Hholds as (_ & Hvt & _).
  exists m', (with_containers (delete this) m1).
  split; [done|]. split; [|split; [|split]].
  - unfold destructor.
    rewrite (bind_eq _ _ _ _ _ (dispatch_eq _ _ _ _ Hc' Hin Hvt)).
    by rewrite (bind_eq _ _ _ _ _ Hdestroy).
  - simpl. apply map_eq. intros l. destruct (decide (l = this)) as [->|Hl].
    + by rewrite lookup_delete_eq.
    + rewrite lookup_delete_ne, Hothers, Hcontainers by done.
      by apply lookup_insert_ne.
  - simpl. rewrite Hobjects. unfold m', c'.
    destruct (in_heap Derived); simpl; [|done]. by apply delete_insert_id.
  - simpl. rewrite Htrace, app_assoc. f_equal. unfold m', build_trace.
    by destruct (in_heap Derived).
Qed.

(** ** Move assignment from a heap-held container of another class *)

(** X19. Move assignment from a container that holds a heap-stored object
    into a container that holds an object of another class destroys the
    object of the destination, then takes over the pointer of the source and
    nulls it: no object is constructed or moved and nothing is allocated;
    the only events are those of the destruction. *)
Theorem move_assignment_takes_over_the_block Current Incoming this src c q m :
  Incoming ∈ linked -> in_heap Incoming = true ->
  Current <> Incoming -> src <> this ->
  containers m !! this = Some c -> holds m c Current ->
  containers m !! src = Some (Container (heap_buffer q) (vtable_address Incoming)) ->
  exists m',
    operator_assign_move this src m = Ok tt m' /\
    containers m' !! this
      = Some (Container (heap_buffer q) (vtable_address Incoming)) /\
    containers m' !! src
      = Some (Container (heap_buffer nullptr) (vtable_address Incoming)) /\
    (forall l, l <> this -> l <> src -> containers m' !! l = containers m !! l) /\
    trace m' = trace m ++ destroy_trace Current /\
    next_block m' = next_block m /\ free_store m' = free_store m /\
    objects m' = match m_storage c with
                 | heap_buffer p => delete p (objects m)
                 | _ => objects m
                 end.
Proof.
  intros Hinc Hkind Hne Hsrcne Hc Hholds Hsrc.
  destruct (destroy_holds_eq _ _ _ _ Hc Hholds)
    as (m1 & c1 & Hdestroy & Htrace & Hnext & Hfree & Hothers & Hc1 & _ & Hobjects & _).
  pose proof Hholds as (Hcur & Hvt & _).
  assert (incoming assign_container_move Incoming this src m) as Hincoming.
  { split; [done|]. eexists. split; [done|reflexivity]. }
  pose proof (run_assignment_eq assign_container_move _ _ _ _ _ _
                Hcur Hinc Hc Hvt Hincoming) as Hrun.
  simpl in Hrun. rewrite decide_False in Hrun by done. rewrite Hrun. clear Hrun.
  unfold noexcept. rewrite (bind_eq _ _ _ _ _ Hdestroy).
  rewrite (bind_eq _ _ _ _ _ (store_vtable_eq _ _ _ _ Hc1)).
  unfold table_of. rewrite Hkind. simpl.
  unfold heap_storage.move, noexcept, load_pointer, load_storage, store_storage,
    load_container, set_containers, bind, ret. simpl.
  rewrite lookup_insert_ne, (Hothers src Hsrcne), Hsrc by done. simpl.
  rewrite lookup_insert_eq. simpl.
  rewrite lookup_insert_ne, lookup_insert_ne, (Hothers src Hsrcne), Hsrc by done.
  simpl. eexists. split; [reflexivity|]. simpl.
  split; [by rewrite lookup_insert_ne, lookup_insert_eq|].
  split; [by rewrite lookup_insert_eq|].
  split; [|done].
  intros l Hl Hl'. rewrite !lookup_insert_ne by done. by apply Hothers.
Qed.

(** ** Without run-time type identity *)

Lemma on_unwind_eq {A} (f : M A) cleanup m a m' :
  f m = Ok a m' -> on_unwind f cleanup m = Ok a m'.
Proof. unfold on_unwind. by intros ->. Qed.

Lemma forward_construct_eq Derived cat d s m m0 :
  objects m !! d = Some s ->
  match cat with
  | lvalue => copy_constructor Derived
  | rvalue => move_constructor Derived
  end <> Throws ->
  objects m0 = objects m ->
  (let! o := deref d in forward_construct Derived cat o) m0
    = Ok (Object Derived (value s))
         (with_event match cat with
                     | lvalue => ev_copy_ctor Derived
                     | rvalue => ev_move_ctor Derived
                     end m0).
Proof.
  intros Hd Hctor Hsame. unfold deref, bind. rewrite Hsame, Hd.
  destruct cat; simpl; unfold copy_construct, move_construct, bind;
    by rewrite (call_eq _ _ _ _ Hctor).
Qed.

(** Construction from a value whose slicing check passes, when nothing
    raises. *)
Lemma value_construction_eq Derived cat this d s m :
  check_typeid Derived d m = Ok tt m ->
  get_vtable Derived = Instantiated (vtable_address Derived) ->
  base_offset Derived = 0 ->
  objects m !! d = Some s ->
  containers m !! this = None ->
  match cat with
  | lvalue => copy_constructor Derived
  | rvalue => move_constructor Derived
  end <> Throws ->
  (in_heap Derived = true -> free_store m <> 0%nat) ->
  exists m',
    polymorphic_value_impl_value Derived cat this d m = Ok tt m' /\
    operator_star this m' = Ok (Object Derived (value s)) m' /\
    trace m' = trace m ++ build_trace Derived
                            match cat with
                            | lvalue => ev_copy_ctor Derived
                            | rvalue => ev_move_ctor Derived
                            end /\
    (objects m !! next_block m = None -> objects m' !! d = Some s) /\
    forall l, l <> this -> containers m' !! l = containers m !! l.
Proof.
  intros Hcheck Hget Hbase Hd Hthis Hctor Hfree.
  destruct (build_eq Derived
              (let! o := deref d in forward_construct Derived cat o)
              (Object Derived (value s))
              match cat with
              | lvalue => ev_copy_ctor Derived
              | rvalue => ev_move_ctor Derived
              end this
              (Container uninitialised (vtable_address Derived))
              (with_containers
                 (<[this := Container uninitialised (vtable_address Derived)]>) m))
    as (m' & Hbuild & Htrace & Hothers & Hobjects & c' & Hc' & Hvt' & Hdes);
    [|apply lookup_insert_eq|done|].
  { intros m0 Hsame. by apply (forward_construct_eq _ _ _ _ m). }
  exists m'. split; [|split; [|split; [|split]]].
  - unfold polymorphic_value_impl_value.
    rewrite (bind_eq _ _ _ _ _ Hcheck).
    unfold begin_lifetime, bind. rewrite Hthis. simpl.
    by apply on_unwind_eq.
  - by eapply operator_star_eq.
  - done.
  - intros Hfresh. rewrite Hobjects; [done|]. simpl. congruence.
  - intros l Hl. rewrite Hothers by done. simpl. by rewrite lookup_insert_ne.
Qed.

(** X20. In a translation unit without run-time type identity the slicing
    check is compiled out.  Construction from a value then accepts an
    argument of any dynamic class, a further-derived one included, and
    builds an object of the declared class from it: when the constructor
    returns and the free store is not used up, the new container
    dereferences to an object of [Derived] with the value of the argument
    (the [Base] subobject of [Derived] lying at offset 0). *)
Theorem without_rtti_slicing_goes_undetected Derived cat this d s m :
  POLYMORPHIC_VALUE_RTTI_SUPPORTED = false ->
  get_vtable Derived = Instantiated (vtable_address Derived) ->
  base_offset Derived = 0 ->
  objects m !! d = Some s ->
  containers m !! this = None ->
  match cat with
  | lvalue => copy_constructor Derived
  | rvalue => move_constructor Derived
  end <> Throws ->
  (in_heap Derived = true -> free_store m <> 0%nat) ->
  exists m',
    polymorphic_value_impl_value Derived cat this d m = Ok tt m' /\
    operator_star this m' = Ok (Object Derived (value s)) m'.
Proof.
  intros Hrtti Hget Hbase Hd Hthis Hctor Hfree.
  destruct (value_construction_eq Derived cat this d s m)
    as (m' & ? & ? & _); [|done..|by exists m'].
  unfold check_typeid. by rewrite Hrtti.
Qed.

(** ** Construction from a value *)


(** ** Moving an inline container *)

(** X22. Moving a container whose object is stored inline moves the object,
    not the container's storage: move construction runs the move constructor
    of the class once, and move assignment between containers of the same
    class runs its move assignment operator once, when that returns;
    nothing is allocated or freed, the destination ends with the value of
    the source, and the source still holds its object. *)
Theorem inline_move_keeps_the_source Derived this src o m :
  Derived ∈ linked -> in_heap Derived = false ->
  containers m !! src = Some (Container (local_buffer o) (vtable_address Derived)) ->
  (containers m !! this = None ->
   polymorphic_value_impl_move this src m =
     Ok tt (Machine (<[this := Container (local_buffer (Object Derived (value o)))
                                         (vtable_address Derived)]> (containers m))
                    (objects m) (next_block m) (free_store m)
                    (trace m ++ [ev_move_ctor Derived]))) /\
  (forall d,
     this <> src -> move_assignment Derived <> Throws ->
     containers m !! this
       = Some (Container (local_buffer d) (vtable_address Derived)) ->
     operator_assign_move this src m =
       Ok tt (Machine (<[this := Container (local_buffer (Object (dyn d) (value o)))
                                           (vtable_address Derived)]> (containers m))
                      (objects m) (next_block m) (free_store m)
                      (trace m ++ [ev_move_assign Derived]))).
Proof.
  intros Hin Hkind Hsrc. split.
  - intros Hthis. assert (src <> this) as Hne by congruence.
    unfold polymorphic_value_impl_move, noexcept.
    rewrite (bind_eq _ _ _ _ _ (load_container_eq _ _ _ Hsrc)).
    unfold begin_lifetime at 1. unfold bind at 1. rewrite Hthis. simpl.
    erewrite bind_eq; [|eapply (dispatch_eq this); [apply lookup_insert_eq|done..]].
    unfold table_of. rewrite Hkind. simpl.
    unfold local_storage.move, noexcept, move_construct, load_object,
      load_storage, store_storage, load_container, set_containers, bind, ret.
    simpl. rewrite lookup_insert_ne, Hsrc by done. simpl.
    rewrite call_eq by (by rewrite (inline_nothrow_move _ Hkind)). simpl.
    rewrite lookup_insert_eq. simpl. unfold with_containers. simpl.
    by rewrite insert_insert_eq.
  - intros d Hne Hassign Hthis.
    unfold operator_assign_move, noexcept.
    rewrite (proj2 (Z.eqb_neq src this)) by done.
    rewrite (bind_eq _ _ _ _ _ (load_container_eq _ _ _ Hthis)).
    rewrite (bind_eq _ _ _ _ _ (load_container_eq _ _ _ Hsrc)). simpl.
    rewrite Z.eqb_refl.
    erewrite bind_eq; [|by eapply (dispatch_eq this)].
    unfold table_of. rewrite Hkind. simpl.
    unfold local_storage.move_assign, noexcept, assign_move, load_object,
      load_storage, store_object, store_storage, load_container,
      set_containers, bind, ret.
    rewrite Hsrc. simpl. rewrite Hthis. simpl.
    rewrite (call_eq _ _ _ _ Hassign). simpl. by rewrite Hthis.
Qed.

(** ** Allocation failure in the constructors and in the copies *)

Lemma unwound_lifetime this c m :
  containers m !! this = None ->
  with_containers (delete this) (with_containers (<[this := c]>) m) = m.
Proof.
  intros Hthis. destruct m. unfold with_containers. simpl in *.
  by rewrite delete_insert_id.
Qed.

(** X24. The constructors let an allocation failure through and undo what
    they did: for a heap-stored class, when the free store is used up,
    construction in place, construction from a value that passes the
    slicing check, and copy construction from a container of that class
    raise [std::bad_alloc] and leave the machine exactly as it was. *)
Theorem constructors_propagate_bad_alloc Derived this m :
  in_heap Derived = true -> free_store m = 0%nat ->
  containers m !! this = None ->
  (forall args,
     polymorphic_value_impl_in_place Derived this args m = Throw bad_alloc m) /\
  (forall cat d,
     check_typeid Derived d m = Ok tt m ->
     polymorphic_value_impl_value Derived cat this d m = Throw bad_alloc m) /\
  (forall src q,
     Derived ∈ linked ->
     containers m !! src
       = Some (Container (heap_buffer q) (vtable_address Derived)) ->
     polymorphic_value_impl_copy this src m = Throw bad_alloc m).
Proof.
  intros Hkind Hstore Hthis. split; [|split].
  - intros args. unfold polymorphic_value_impl_in_place, begin_lifetime, bind.
    rewrite Hthis. simpl. unfold on_unwind.
    rewrite build_bad_alloc by done. simpl. by rewrite unwound_lifetime.
  - intros cat d Hcheck. unfold polymorphic_value_impl_value.
    rewrite (bind_eq _ _ _ _ _ Hcheck). unfold begin_lifetime, bind.
    rewrite Hthis. simpl. unfold on_unwind.
    rewrite build_bad_alloc by done. simpl. by rewrite unwound_lifetime.
  - intros src q Hin Hsrc. assert (src <> this) as Hne by congruence.
    unfold polymorphic_value_impl_copy.
    rewrite (bind_eq _ _ _ _ _ (load_container_eq _ _ _ Hsrc)).
    unfold begin_lifetime at 1. unfold bind at 1. rewrite Hthis. simpl.
    unfold on_unwind.
    erewrite bind_eq; [|eapply (dispatch_eq this); [apply lookup_insert_eq|done..]].
    unfold table_of. rewrite Hkind. simpl.
    unfold heap_storage.copy, load_pointer, load_storage, load_container.
    unfold bind at 1 2 3. simpl. rewrite lookup_insert_ne, Hsrc by done. simpl.
    unfold bind. rewrite new_expression_bad_alloc by done. simpl.
    by rewrite unwound_lifetime.
Qed.

(** X25. The operations that rebuild by copying let an allocation failure
    through as well: when the destination holds an object of another class
    than the heap-stored incoming one and the free store is used up, copy
    assignment from a container, copy assignment from a value and [emplace]
    raise [std::bad_alloc]. *)
Theorem rebuilding_copies_propagate_bad_alloc Current Incoming this c m :
  in_heap Incoming = true -> free_store m = 0%nat ->
  containers m !! this = Some c -> holds m c Current ->
  (forall a src,
     a = assign_container_copy \/ a = assign_raw_copy ->
     Incoming ∈ linked -> Current <> Incoming ->
     incoming a Incoming this src m ->
     (a = assign_container_copy ->
      exists cs q, containers m !! src = Some cs /\ m_storage cs = heap_buffer q) ->
     exists m', run_assignment a Incoming this src m = Throw bad_alloc m') /\
  (forall args, exists m', emplace Incoming this args m = Throw bad_alloc m').
Proof.
  intros Hkind Hstore Hc Hholds.
  destruct (destroy_holds_eq _ _ _ _ Hc Hholds)
    as (m1 & c1 & Hdestroy & _ & _ & Hfree & Hothers & Hc1 & _ & _ & _).
  pose proof Hholds as (Hcur & Hvt & _).
  split.
  - intros a src Ha Hinc Hne Hincoming Hsrc.
    rewrite (run_assignment_eq _ _ _ _ _ _ _ Hcur Hinc Hc Hvt Hincoming).
    rewrite decide_False by done.
    destruct Ha as [-> | ->]; simpl;
      rewrite (bind_eq _ _ _ _ _ Hdestroy);
      rewrite (bind_eq _ _ _ _ _ (store_vtable_eq _ _ _ _ Hc1));
      unfold table_of; rewrite Hkind; simpl.
    + destruct (Hsrc eq_refl) as (cs & q & Hcs & Hcell).
      destruct Hincoming as [Hsrcne _].
      unfold heap_storage.copy, load_pointer, load_storage, load_container.
      unfold bind at 1 2 3. simpl.
      rewrite lookup_insert_ne, (Hothers src Hsrcne), Hcs by done. simpl.
      rewrite Hcell. simpl. unfold bind.
      rewrite new_expression_bad_alloc by (simpl; congruence). eauto.
    + rewrite copy_raw_bad_alloc by (simpl; congruence). eauto.
  - intros args. unfold emplace.
    rewrite (bind_eq _ _ _ _ _ (dispatch_eq _ _ _ _ Hc Hcur Hvt)).
    rewrite (bind_eq _ _ _ _ _ Hdestroy).
    rewrite (bind_eq _ _ _ _ _ (store_vtable_eq _ _ _ _ Hc1)).
    rewrite build_bad_alloc by (simpl; congruence). eauto.
Qed.

(** ** No block is leaked *)

(** A step that touches only the containers among [L] keeps every block
    owned when each block live after it is owned by a container among [L],
    or was live before and owned by none of them. *)
Lemma no_leak_frame base (L : Z -> Prop) m m' :
  no_leak base m ->
  (forall l, ~ L l -> containers m' !! l = containers m !! l) ->
  (forall p, base <= p -> is_Some (objects m' !! p) ->
     owned_by L m' p \/ (is_Some (objects m !! p) /\ ~ owned_by L m p)) ->
  no_leak base m'.
Proof.
  intros Hleak Hothers Hlive p Hp Hsome.
  destruct (Hlive p Hp Hsome) as [(l & c & _ & Hc & Hs)|[Hbefore Hnot]].
  { by exists l, c. }
  destruct (Hleak p Hp Hbefore) as (l & c & _ & Hc & Hs).
  exists l, c. split; [done|]. split; [|done].
  rewrite Hothers; [done|]. intros HL. apply Hnot. by exists l, c.
Qed.

Lemma vacant_uninitialised base this a m :
  vacant base this (with_containers (<[this := Container uninitialised a]>) m).
Proof.
  intros p _ _ (l & c & -> & Hc & Hs). simpl in Hc.
  rewrite lookup_insert_eq in Hc. by simplify_eq.
Qed.

Lemma vacant_store_vtable base this c a m :
  containers m !! this = Some c -> vacant base this m ->
  vacant base this (with_containers (<[this := Container (m_storage c) a]>) m).
Proof.
  intros Hc Hvacant p Hp Hsome (l & c' & -> & Hc' & Hs). simpl in *.
  rewrite lookup_insert_eq in Hc'. simplify_eq.
  apply (Hvacant p Hp Hsome). by exists this, c.
Qed.

Lemma no_leak_this base this c' m :
  no_leak base m -> vacant base this m ->
  no_leak base (with_containers (<[this := c']>) m).
Proof.
  intros Hleak Hvacant.
  apply (no_leak_frame base (fun l => l = this) m); [done| |].
  - intros l Hl. simpl. by rewrite lookup_insert_ne by (intros <-; by apply Hl).
  - intros p Hp Hsome. right. split; [done|]. by apply Hvacant.
Qed.

Lemma no_leak_events base m m' :
  containers m' = containers m -> objects m' = objects m ->
  no_leak base m -> no_leak base m'.
Proof.
  intros Hc Ho Hleak p Hp Hsome. rewrite Ho in Hsome.
  destruct (Hleak p Hp Hsome) as (l & c & ? & ? & ?).
  exists l, c. by rewrite Hc.
Qed.

Lemma vacant_events base this m m' :
  containers m' = containers m -> objects m' = objects m ->
  vacant base this m -> vacant base this m'.
Proof.
  intros Hc Ho Hvacant p Hp Hsome (l & c & ? & Hl & ?).
  rewrite Ho in Hsome. rewrite Hc in Hl.
  apply (Hvacant p Hp Hsome). by exists l, c.
Qed.

(** [destroy] leaves the container vacant. *)
Lemma destroy_no_leak base Derived this m m' :
  0 < base -> no_leak base m ->
  destroy (table_of Derived) (storage_of this) m = Ok tt m' ->
  no_leak base m' /\ vacant base this m'.
Proof.
  intros Hbase Hleak. unfold table_of. destruct (in_heap Derived); simpl; intros H.
  - unfold heap_storage.destroy in H.
    apply bind_Ok in H as (p & m0 & Hp & H).
    apply load_pointer_Ok in Hp as (-> & c & Hc & Hcell).
    apply delete_expression_Ok in H as [[-> ->]|(Hp & _ & ->)].
    + split; [done|]. intros p Hp _ (l & c' & -> & Hc' & Hs). simplify_eq.
      rewrite Hcell in Hs. injection Hs as <-. unfold nullptr in Hp. lia.
    + split.
      * apply (no_leak_frame base (fun _ => False) m); [done|done|].
        intros q Hq Hsome. simpl in Hsome. right.
        apply lookup_delete_is_Some in Hsome as [_ Hsome].
        split; [done|]. by intros (? & ? & [] & _).
      * intros q Hq Hsome (l & c' & -> & Hc' & Hs). simpl in *. simplify_eq.
        apply lookup_delete_is_Some in Hsome as [Hne _]. congruence.
  - unfold local_storage.destroy in H. invert_entry.
    split; [|apply vacant_uninitialised].
    apply no_leak_this; [done|].
    intros p Hp Hsome (l & c' & -> & Hc' & Hs). simpl in *. congruence.
Qed.

Lemma no_leak_install_local base this c' m m' :
  no_leak base m -> vacant base this m ->
  containers m' = <[this := c']> (containers m) -> objects m' = objects m ->
  no_leak base m'.
Proof.
  intros Hleak Hvacant Hc Ho.
  apply (no_leak_frame base (fun l => l = this) m); [done| |].
  - intros l Hl. rewrite Hc. by rewrite lookup_insert_ne by (intros <-; by apply Hl).
  - intros p Hp Hsome. rewrite Ho in Hsome. right. split; [done|]. by apply Hvacant.
Qed.

Lemma no_leak_install_heap base this p o vt m m' :
  no_leak base m -> vacant base this m ->
  containers m' = <[this := Container (heap_buffer p) vt]> (containers m) ->
  objects m' = <[p := o]> (objects m) ->
  no_leak base m'.
Proof.
  intros Hleak Hvacant Hc Ho.
  apply (no_leak_frame base (fun l => l = this) m); [done| |].
  - intros l Hl. rewrite Hc. by rewrite lookup_insert_ne by (intros <-; by apply Hl).
  - intros q Hq Hsome. rewrite Ho in Hsome.
    destruct (decide (q = p)) as [->|Hne].
    + left. eexists this, _. split; [done|]. rewrite Hc, lookup_insert_eq. done.
    + right. rewrite lookup_insert_ne in Hsome by done.
      split; [done|]. by apply Hvacant.
Qed.

Lemma no_leak_update_object base p o m m' :
  no_leak base m -> is_Some (objects m !! p) ->
  containers m' = containers m -> objects m' = <[p := o]> (objects m) ->
  no_leak base m'.
Proof.
  intros Hleak Hp Hc Ho q Hq Hsome. rewrite Ho in Hsome.
  assert (is_Some (objects m !! q)) as Hbefore.
  { destruct (decide (q = p)) as [->|Hne]; [done|].
    by rewrite lookup_insert_ne in Hsome. }
  destruct (Hleak q Hq Hbefore) as (l & c & ? & ? & ?).
  exists l, c. by rewrite Hc.
Qed.

(** [build] into a vacant container leaks nothing. *)
Lemma build_no_leak base Derived init this m m' :
  initialises Derived init ->
  no_leak base m -> vacant base this m ->
  build Derived init (storage_of this) m = Ok tt m' ->
  no_leak base m'.
Proof.
  intros Hinit Hleak Hvacant H. unfold build in H. destruct (in_heap Derived).
  - apply bind_Ok in H as (p & m2 & Hnew & H).
    apply new_expression_Ok in Hnew as (m0 & o & m1 & Hnew & Ho & ->).
    apply operator_new_Ok in Hnew as (-> & n & _ & ->).
    apply Hinit in Ho as (_ & Hc1 & Ho1 & _).
    apply store_storage_Ok in H as (c & Hc & ->). simpl in *.
    eapply (no_leak_install_heap base this); [exact Hleak|exact Hvacant|..]; simpl.
    + by rewrite Hc1.
    + by rewrite Ho1.
  - apply bind_Ok in H as (o & m1 & Ho & H).
    apply Hinit in Ho as (_ & Hc1 & Ho1 & _).
    apply store_storage_Ok in H as (c & Hc & ->). simpl in *.
    eapply (no_leak_install_local base this); [exact Hleak|exact Hvacant|..]; simpl.
    + by rewrite Hc1.
    + done.
Qed.

(** So does every build entry; the heap move entry hands the block of the
    source over to the destination. *)
Lemma build_entry_no_leak base a Derived src this m m' :
  (source_of a src = storage_of src -> src <> this) ->
  no_leak base m -> vacant base this m ->
  build_entry a (table_of Derived) (source_of a src) (storage_of this) m = Ok tt m' ->
  no_leak base m'.
Proof.
  intros Hne Hleak Hvacant. unfold table_of.
  destruct a, (in_heap Derived); simpl in *; intros H.
  - unfold heap_storage.copy in H. invert_entry.
    by eapply (no_leak_install_heap base this); [exact Hleak|exact Hvacant|..].
  - unfold local_storage.copy in H. invert_entry.
    by eapply (no_leak_install_local base this); [exact Hleak|exact Hvacant|..].
  - unfold heap_storage.move in H. invert_entry. specialize (Hne eq_refl).
    rewrite lookup_insert_ne in * by done.
    apply (no_leak_frame base (fun l => l = this \/ l = src) m); [done| |]; simpl.
    + intros l Hl. rewrite !lookup_insert_ne; [done|intros <-..]; apply Hl; auto.
    + intros q Hq Hsome.
      match goal with
      | Hs : m_storage ?cs = heap_buffer ?p0 |- _ =>
          destruct (decide (q = p0)) as [->|Hq0]
      end.
      * left. eexists this, _. split; [by left|]. simpl.
        rewrite lookup_insert_ne, lookup_insert_eq by done.
        split; [reflexivity|done].
      * right. split; [done|]. intros (l & c & [->| ->] & Hc & Hs).
        -- apply (Hvacant q Hq Hsome). by exists this, c.
        -- simplify_eq. congruence.
  - unfold local_storage.move in H. invert_entry.
    by eapply (no_leak_install_local base this); [exact Hleak|exact Hvacant|..].
  - unfold heap_storage.copy_raw in H. invert_entry.
    by eapply (no_leak_install_heap base this); [exact Hleak|exact Hvacant|..].
  - unfold local_storage.copy in H. invert_entry.
    by eapply (no_leak_install_local base this); [exact Hleak|exact Hvacant|..].
  - unfold heap_storage.move_raw in H. invert_entry.
    by eapply (no_leak_install_heap base this); [exact Hleak|exact Hvacant|..].
  - unfold local_storage.move in H. invert_entry.
    by eapply (no_leak_install_local base this); [exact Hleak|exact Hvacant|..].
Qed.

Lemma vacant_local base this c o m :
  containers m !! this = Some c -> m_storage c = local_buffer o ->
  vacant base this m.
Proof. intros Hc Hs p _ _ (l & c' & -> & Hc' & Hs'). congruence. Qed.

Lemma vacant_absent base this m :
  containers m !! this = None -> vacant base this m.
Proof. intros Hc p _ _ (l & c' & -> & Hc' & _). congruence. Qed.

(** The assign entries keep every block owned; the heap move-assign entry
    swaps the owners of two blocks. *)
Lemma assign_entry_no_leak base a Derived src this m m' :
  (source_of a src = storage_of src -> src <> this) ->
  no_leak base m ->
  assign_entry a (table_of Derived) (source_of a src) (storage_of this) m = Ok tt m' ->
  no_leak base m'.
Proof.
  intros Hne Hleak. unfold table_of.
  destruct a, (in_heap Derived); simpl in *; intros H.
  - unfold heap_storage.copy_assign in H. invert_entry.
    by eapply no_leak_update_object; [exact Hleak|..].
  - unfold local_storage.copy_assign in H. invert_entry.
    eapply (no_leak_install_local base this); [exact Hleak| |done..].
    by eapply vacant_local.
  - unfold heap_storage.move_assign in H. apply noexcept_Ok in H.
    apply bind_Ok in H as (q & m1 & Hq & H).
    apply load_pointer_Ok in Hq as (-> & cs & Hcs & Hsq).
    apply bind_Ok in H as (p & m1 & Hp & H).
    apply load_pointer_Ok in Hp as (-> & ct & Hct & Htp).
    apply bind_Ok in H as (u & m1 & H1 & H).
    apply store_storage_Ok in H1 as (s1 & Hs1 & ->).
    apply store_storage_Ok in H as (c1 & Hc1 & ->). simpl in *.
    specialize (Hne eq_refl).
    apply (no_leak_frame base (fun l => l = this \/ l = src) m); [done| |]; simpl.
    + intros l Hl. rewrite !lookup_insert_ne; [done|intros <-..]; apply Hl; auto.
    + intros r Hr Hsome. destruct (decide (r = q)) as [->|Hrq].
      { left. eexists this, _. split; [by left|]. simpl.
        rewrite lookup_insert_eq. split; [reflexivity|done]. }
      destruct (decide (r = p)) as [->|Hrp].
      { left. eexists src, _. split; [by right|]. simpl.
        rewrite lookup_insert_ne, lookup_insert_eq by done.
        split; [reflexivity|done]. }
      right. split; [done|].
      intros (l & c & [->| ->] & Hc & Hcell); simplify_eq; congruence.
  - unfold local_storage.move_assign in H. invert_entry.
    eapply (no_leak_install_local base this); [exact Hleak| |done..].
    by eapply vacant_local.
  - unfold heap_storage.copy_assign_raw in H. read_raw H. invert_entry.
    by eapply no_leak_update_object; [exact Hleak|..].
  - unfold local_storage.copy_assign in H. read_raw H. invert_entry.
    eapply (no_leak_install_local base this); [exact Hleak| |done..].
    by eapply vacant_local.
  - unfold heap_storage.move_assign_raw in H. read_raw H. invert_entry.
    by eapply no_leak_update_object; [exact Hleak|..].
  - unfold local_storage.move_assign in H. read_raw H. invert_entry.
    eapply (no_leak_install_local base this); [exact Hleak| |done..].
    by eapply vacant_local.
Qed.

Lemma begin_lifetime_no_leak base this a m u m1 :
  no_leak base m -> begin_lifetime this a m = Ok u m1 ->
  no_leak base m1 /\ vacant base this m1.
Proof.
  intros Hleak H. apply begin_lifetime_Ok in H as [Hthis ->].
  split; [|apply vacant_uninitialised].
  apply no_leak_this; [done|]. by apply vacant_absent.
Qed.

Lemma store_vtable_no_leak base this a m u m1 :
  no_leak base m -> vacant base this m -> store_vtable this a m = Ok u m1 ->
  no_leak base m1 /\ vacant base this m1.
Proof.
  intros Hleak Hvacant H. apply store_vtable_Ok in H as (c & Hc & ->).
  split; [by apply no_leak_this|by apply vacant_store_vtable].
Qed.

(** Destroying the object of a container and switching its table leaves it
    vacant, ready for a build. *)
Lemma destroy_retarget_no_leak base this a (rest : M unit) m m' :
  0 < base -> no_leak base m ->
  (let! vt := dispatch this in
   let! _ := destroy vt (storage_of this) in
   let! _ := store_vtable this a in rest) m = Ok tt m' ->
  exists m2, no_leak base m2 /\ vacant base this m2 /\ rest m2 = Ok tt m'.
Proof.
  intros Hbase Hleak H.
  apply bind_Ok in H as (vt & m0 & Hvt & H).
  pose proof (dispatch_table _ _ _ _ Hvt) as [D ->].
  apply dispatch_Ok in Hvt as [-> _].
  apply bind_Ok in H as ([] & m1 & Hdestroy & H).
  apply (destroy_no_leak base) in Hdestroy as [Hleak1 Hvacant1]; [|done..].
  apply bind_Ok in H as (u & m2 & Hstore & H).
  apply (store_vtable_no_leak base) in Hstore as [Hleak2 Hvacant2]; [|done..].
  eauto.
Qed.

Lemma dispatched_entry_no_leak base this (k : polymorphic_value_vtable -> M unit) m m' :
  (forall D, k (table_of D) m = Ok tt m' -> no_leak base m') ->
  (let! vt := dispatch this in k vt) m = Ok tt m' ->
  no_leak base m'.
Proof.
  intros Hk H. apply bind_Ok in H as (vt & m0 & Hvt & H).
  pose proof (dispatch_table _ _ _ _ Hvt) as [D ->].
  apply dispatch_Ok in Hvt as [-> _]. eauto.
Qed.

Lemma operator_assign_copy_no_leak base this src m m' :
  0 < base -> no_leak base m ->
  operator_assign_copy this src m = Ok tt m' -> no_leak base m'.
Proof.
  intros Hbase Hleak H. unfold operator_assign_copy in H.
  destruct (src =? this) eqn:Hne; [by invert_ok|]. apply Z.eqb_neq in Hne.
  apply bind_Ok in H as (c & m0 & Hc & H). apply load_container_Ok in Hc as [-> Hc].
  apply bind_Ok in H as (s & m0 & Hs & H). apply load_container_Ok in Hs as [-> Hs].
  destruct (m_vtable c =? m_vtable s).
  - eapply dispatched_entry_no_leak; [|exact H]. intros D HD.
    by apply (assign_entry_no_leak base assign_container_copy D src this m m');
      [intros _|..].
  - apply (destroy_retarget_no_leak base) in H
      as (m2 & Hleak2 & Hvacant2 & H); [|done..].
    eapply dispatched_entry_no_leak; [|exact H]. intros D HD.
    by apply (build_entry_no_leak base assign_container_copy D src this m2 m');
      [intros _|..].
Qed.

Lemma operator_assign_move_no_leak base this src m m' :
  0 < base -> no_leak base m ->
  operator_assign_move this src m = Ok tt m' -> no_leak base m'.
Proof.
  intros Hbase Hleak H. unfold operator_assign_move in H. apply noexcept_Ok in H.
  destruct (src =? this) eqn:Hne; [by invert_ok|]. apply Z.eqb_neq in Hne.
  apply bind_Ok in H as (c & m0 & Hc & H). apply load_container_Ok in Hc as [-> Hc].
  apply bind_Ok in H as (s & m0 & Hs & H). apply load_container_Ok in Hs as [-> Hs].
  destruct (m_vtable c =? m_vtable s).
  - eapply dispatched_entry_no_leak; [|exact H]. intros D HD.
    by apply (assign_entry_no_leak base assign_container_move D src this m m');
      [intros _|..].
  - apply (destroy_retarget_no_leak base) in H
      as (m2 & Hleak2 & Hvacant2 & H); [|done..].
    eapply dispatched_entry_no_leak; [|exact H]. intros D HD.
    by apply (build_entry_no_leak base assign_container_move D src this m2 m');
      [intros _|..].
Qed.

Lemma operator_assign_value_copy_no_leak base Incoming this src m m' :
  0 < base -> no_leak base m ->
  operator_assign_value_copy Incoming this src m = Ok tt m' -> no_leak base m'.
Proof.
  intros Hbase Hleak H. unfold operator_assign_value_copy in H.
  apply bind_Ok in H as (u & m0 & Hcheck & H). apply check_typeid_Ok in Hcheck as ->.
  apply bind_Ok in H as (c & m0 & Hc & H). apply load_container_Ok in Hc as [-> Hc].
  destruct (m_vtable c =? vtable_address Incoming).
  - eapply dispatched_entry_no_leak; [|exact H]. intros D HD.
    by apply (assign_entry_no_leak base assign_raw_copy D src this m m');
      [intros [=]|..].
  - apply (destroy_retarget_no_leak base) in H
      as (m2 & Hleak2 & Hvacant2 & H); [|done..].
    eapply dispatched_entry_no_leak; [|exact H]. intros D HD.
    by apply (build_entry_no_leak base assign_raw_copy D src this m2 m');
      [intros [=]|..].
Qed.

Lemma operator_assign_value_move_no_leak base Incoming this src m m' :
  0 < base -> no_leak base m ->
  operator_assign_value_move Incoming this src m = Ok tt m' -> no_leak base m'.
Proof.
  intros Hbase Hleak H. unfold operator_assign_value_move in H.
  apply bind_Ok in H as (u & m0 & Hcheck & H). apply check_typeid_Ok in Hcheck as ->.
  apply bind_Ok in H as (c & m0 & Hc & H). apply load_container_Ok in Hc as [-> Hc].
  destruct (m_vtable c =? vtable_address Incoming).
  - eapply dispatched_entry_no_leak; [|exact H]. intros D HD.
    by apply (assign_entry_no_leak base assign_raw_move D src this m m');
      [intros [=]|..].
  - apply (destroy_retarget_no_leak base) in H
      as (m2 & Hleak2 & Hvacant2 & H); [|done..].
    eapply dispatched_entry_no_leak; [|exact H]. intros D HD.
    by apply (build_entry_no_leak base assign_raw_move D src this m2 m');
      [intros [=]|..].
Qed.

Lemma statement_no_leak base st f m m' :
  0 < base -> no_leak base m ->
  compile st = Instantiated f -> f m = Ok tt m' ->
  no_leak base m'.
Proof.
  intros Hbase Hleak Hcompile H.
  destruct st as [D cat this d|D this args|this src|this src|this src|this src
                 |D cat this d|D this args|this]; simpl in *.
  - apply instantiate_Instantiated in Hcompile as ->.
    unfold polymorphic_value_impl_value in H.
    apply bind_Ok in H as (u & m0 & Hcheck & H). apply check_typeid_Ok in Hcheck as ->.
    apply bind_Ok in H as (u' & m1 & Hbegin & H).
    apply (begin_lifetime_no_leak base) in Hbegin as [Hleak1 Hvacant1]; [|done].
    apply on_unwind_Ok in H.
    eapply build_no_leak; [|done|done|done].
    apply initialises_forward. intros ? ? ?. apply deref_pure.
  - apply instantiate_Instantiated in Hcompile as ->.
    unfold polymorphic_value_impl_in_place in H.
    apply bind_Ok in H as (u' & m1 & Hbegin & H).
    apply (begin_lifetime_no_leak base) in Hbegin as [Hleak1 Hvacant1]; [|done].
    apply on_unwind_Ok in H.
    eapply build_no_leak; [apply initialises_construct|done|done|done].
  - injection Hcompile as <-. unfold polymorphic_value_impl_copy in H.
    apply bind_Ok in H as (s & m0 & Hs & H). apply load_container_Ok in Hs as [-> Hs].
    apply bind_Ok in H as (u' & m1 & Hbegin & H).
    assert (src <> this) as Hne.
    { apply begin_lifetime_Ok in Hbegin as [? _]. congruence. }
    apply (begin_lifetime_no_leak base) in Hbegin as [Hleak1 Hvacant1]; [|done].
    apply on_unwind_Ok in H.
    eapply dispatched_entry_no_leak; [|exact H]. intros D HD.
    by apply (build_entry_no_leak base assign_container_copy D src this m1 m');
      [intros _|..].
  - injection Hcompile as <-. unfold polymorphic_value_impl_move in H.
    apply noexcept_Ok in H.
    apply bind_Ok in H as (s & m0 & Hs & H). apply load_container_Ok in Hs as [-> Hs].
    apply bind_Ok in H as (u' & m1 & Hbegin & H).
    assert (src <> this) as Hne.
    { apply begin_lifetime_Ok in Hbegin as [? _]. congruence. }
    apply (begin_lifetime_no_leak base) in Hbegin as [Hleak1 Hvacant1]; [|done].
    eapply dispatched_entry_no_leak; [|exact H]. intros D HD.
    by apply (build_entry_no_leak base assign_container_move D src this m1 m');
      [intros _|..].
  - injection Hcompile as <-. by eapply operator_assign_copy_no_leak.
  - injection Hcompile as <-. by eapply operator_assign_move_no_leak.
  - destruct cat; apply instantiate_Instantiated in Hcompile as ->.
    + by eapply operator_assign_value_copy_no_leak.
    + by eapply operator_assign_value_move_no_leak.
  - apply instantiate_Instantiated in Hcompile as ->. unfold emplace in H.
    apply (destroy_retarget_no_leak base) in H
      as (m2 & Hleak2 & Hvacant2 & H); [|done..].
    eapply build_no_leak; [apply initialises_construct|done|done|done].
  - injection Hcompile as <-. unfold destructor in H.
    apply bind_Ok in H as (vt & m0 & Hvt & H).
    pose proof (dispatch_table _ _ _ _ Hvt) as [D ->].
    apply dispatch_Ok in Hvt as [-> _].
    apply bind_Ok in H as ([] & m1 & Hdestroy & H).
    apply (destroy_no_leak base) in Hdestroy as [Hleak1 Hvacant1]; [|done..].
    unfold end_lifetime in H. apply set_containers_Ok in H as ->.
    apply (no_leak_frame base (fun l => l = this) m1); [done| |]; simpl.
    + intros l Hl. apply lookup_delete_ne. intros <-. by apply Hl.
    + intros p Hp Hsome. right. split; [done|]. by apply Hvacant1.
Qed.

Lemma program_no_leak base sts : forall f m m',
  0 < base -> no_leak base m ->
  compile_all sts = Instantiated f -> f m = Ok tt m' ->
  no_leak base m'.
Proof.
  induction sts as [|st rest IH]; intros f m m' Hbase Hleak Hcompile H.
  - injection Hcompile as <-. by invert_ok.
  - simpl in Hcompile.
    destruct (compile st) as [f1|] eqn:Hf1; [|discriminate]. simpl in Hcompile.
    destruct (compile_all rest) as [f2|] eqn:Hf2; [|discriminate].
    injection Hcompile as <-.
    apply bind_Ok in H as (u & m1 & H1 & H2). destruct u.
    eapply IH; [done| |done|done].
    by eapply statement_no_leak.
Qed.

(** X28. The containers leak no memory.  Take a positive address [base]
    from which the blocks of the allocator lie, and a machine where every
    object from [base] on is owned by a live container (its address is the
    pointer in the cell of that container).  After any sequence of
    statements that compiles and runs to its end this still holds; so once
    every container has been destroyed, no object is left from [base] on:
    every block the containers allocated has been freed. *)
Theorem programs_leak_no_block base sts f m m' :
  0 < base -> no_leak base m ->
  compile_all sts = Instantiated f -> f m = Ok tt m' ->
  no_leak base m' /\
  (containers m' = ∅ -> forall p, base <= p -> objects m' !! p = None).
Proof.
  intros Hbase Hleak Hcompile H.
  pose proof (program_no_leak base sts f m m' Hbase Hleak Hcompile H) as Hleak'.
  split; [done|]. intros Hempty p Hp.
  destruct (objects m' !! p) as [o|] eqn:Ho; [|done].
  destruct (Hleak' p Hp) as (l & c & _ & Hc & _); [by eexists|].
  by rewrite Hempty, lookup_empty in Hc.
Qed.

(** ** Assignments between well-formed operands are defined *)










(** ** The source of a copy assignment *)

Lemma assign_entry_copy_source a Derived src this s m m' :
  a = assign_container_copy \/ a = assign_raw_copy ->
  (a = assign_container_copy ->
   src <> this /\
   forall cs c q, containers m !! src = Some cs -> containers m !! this = Some c ->
     m_storage cs = heap_buffer q -> m_storage c <> heap_buffer q) ->
  source_object a src m = Some s ->
  assign_entry a (table_of Derived) (source_of a src) (storage_of this) m = Ok tt m' ->
  source_object a src m' = Some s /\
  (a = assign_container_copy -> containers m' !! src = containers m !! src).
Proof.
  unfold table_of, source_object, held_object.
  intros [-> | ->] Halias; destruct (in_heap Derived); simpl; intros Hs H.
  - destruct (Halias eq_refl) as [Hne Hdistinct].
    unfold heap_storage.copy_assign in H. invert_entry. resolve_in Hs.
    resolve_goal. split; [|done].
    rewrite lookup_insert_ne; [done|]. intros <-.
    by eapply Hdistinct.
  - destruct (Halias eq_refl) as [Hne _].
    unfold local_storage.copy_assign in H. invert_entry. resolve_in Hs.
    rewrite lookup_insert_ne by done. resolve_goal. done.
  - unfold heap_storage.copy_assign_raw in H. read_raw H. invert_entry.
    split; [|done].
    match goal with
    | |- <[?p := _]> _ !! _ = _ => destruct (decide (src = p)) as [->|Hne]
    end.
    + rewrite lookup_insert_eq. simplify_eq. by destruct s.
    + by rewrite lookup_insert_ne.
  - unfold local_storage.copy_assign in H. read_raw H. invert_entry. done.
Qed.

Lemma build_entry_copy_source a Derived src this s m m' :
  a = assign_container_copy \/ a = assign_raw_copy ->
  (a = assign_container_copy -> src <> this) ->
  (forall q, is_Some (objects m !! q) -> q <> next_block m) ->
  (forall x, source_object a src m = Some x -> x = s) ->
  build_entry a (table_of Derived) (source_of a src) (storage_of this) m = Ok tt m' ->
  source_object a src m' = Some s /\
  (a = assign_container_copy -> containers m' !! src = containers m !! src).
Proof.
  unfold table_of, source_object, held_object.
  intros [-> | ->] Hne Hfresh; destruct (in_heap Derived); simpl; intros Hs H.
  - specialize (Hne eq_refl).
    unfold heap_storage.copy in H. invert_entry. resolve_in Hs.
    rewrite lookup_insert_ne by done. resolve_goal. split; [|done].
    rewrite lookup_insert_ne
      by (intros Heq; eapply Hfresh; [|first [exact Heq|symmetry; exact Heq]];
          by eexists).
    match goal with Hq : objects m !! _ = Some ?x |- _ => by rewrite Hq, (Hs x Hq) end.
  - specialize (Hne eq_refl).
    unfold local_storage.copy in H. invert_entry. resolve_in Hs.
    rewrite lookup_insert_ne by done. resolve_goal. split; [|done].
    f_equal. by apply Hs.
  - unfold heap_storage.copy_raw in H. read_raw H. invert_entry.
    split; [|done].
    rewrite lookup_insert_ne
      by (intros Heq; eapply Hfresh; [|first [exact Heq|symmetry; exact Heq]];
          by eexists).
    match goal with Hq : objects m !! _ = Some ?x |- _ => by rewrite Hq, (Hs x Hq) end.
  - unfold local_storage.copy in H. read_raw H. invert_entry.
    split; [|done].
    match goal with Hq : objects m !! _ = Some ?x |- _ => by rewrite Hq, (Hs x Hq) end.
Qed.

(** X30. Copy assignment does not touch its source.  In a well-formed
    machine, a copy assignment from a container or from a value that
    returns, in place or by rebuilding, leaves the source designating the
    object it designated, with its value, and leaves a source container
    itself as it was. *)
Theorem copy_assignment_leaves_the_source N a Incoming this src c s m m' :
  a = assign_container_copy \/ a = assign_raw_copy ->
  invariant N m -> Incoming ∈ linked ->
  containers m !! this = Some c ->
  incoming a Incoming this src m ->
  source_object a src m = Some s ->
  run_assignment a Incoming this src m = Ok tt m' ->
  source_object a src m' = Some s /\
  (a = assign_container_copy -> containers m' !! src = containers m !! src).
Proof.
  intros Ha Hinv Hinc Hc Hincoming Hs H.
  destruct (inv_containers _ _ Hinv this c Hc) as [Current Hwf].
  apply well_formed_linked in Hwf as [Hcur Hvt].
  rewrite (run_assignment_eq _ _ _ _ _ _ _ Hcur Hinc Hc Hvt Hincoming) in H.
  assert (a = assign_container_copy -> src <> this) as Hne.
  { intros ->. by destruct Hincoming. }
  assert (forall f : M unit, operator_noexcept a f = f) as Hplain.
  { by destruct Ha as [-> | ->]. }
  rewrite !Hplain in H. case_decide as Hsame.
  - subst Incoming.
    eapply assign_entry_copy_source; [done| |done|done].
    intros ->. split; [by apply Hne|].
    intros cs c0 q Hcs Hc0 Hq Hp. simplify_eq.
    assert (is_Some (objects m !! q)) as Hlive.
    { simpl in Hs. rewrite Hcs in Hs. unfold held_object in Hs.
      rewrite Hq in Hs. by eexists. }
    apply (Hne eq_refl).
    apply (inv_owned _ _ Hinv src this cs c q); [done..|].
    apply (inv_objects _ _ Hinv) in Hlive. unfold nullptr. lia.
  - apply bind_Ok in H as (u & m1 & Hdestroy & H). destruct u.
    apply bind_Ok in H as (u & m2 & Hstore & H). destruct u.
    destruct (destroy_frame _ _ _ _ _ Hc Hdestroy)
      as (Hothers & _ & Hshrink & _ & Hnext).
    apply store_vtable_Ok in Hstore as (c1 & Hc1 & ->).
    assert (forall x,
              source_object a src
                (with_containers
                   (<[this := Container (m_storage c1) (vtable_address Incoming)]>) m1)
                = Some x -> source_object a src m = Some x) as Hback.
    { intros x. destruct Ha as [-> | ->]; simpl.
      - specialize (Hne eq_refl).
        rewrite lookup_insert_ne, Hothers by done.
        destruct (containers m !! src) as [cs|]; [|done].
        unfold held_object. simpl. destruct (m_storage cs); [done..|].
        apply Hshrink.
      - apply Hshrink. }
    apply (build_entry_copy_source _ _ _ _ s) in H as [Hsource Hcontainer];
      [|done|done| |].
    + split; [done|]. intros ->. rewrite (Hcontainer eq_refl). simpl.
      specialize (Hne eq_refl).
      rewrite lookup_insert_ne by done. by apply Hothers.
    + simpl. intros q [x Hq]. rewrite Hnext. apply Hshrink in Hq.
      assert (is_Some (objects m !! q)) as Hlive by eauto.
      apply (inv_objects _ _ Hinv) in Hlive. lia.
    + intros x Hx. apply Hback in Hx. congruence.
Qed.

(** ** The two paths of an assignment *)







End polymorphic_value.


(** ** The program of main.cpp *)

Import main_cpp.

Lemma default_program_alignas Derived :
  image_static_vtable default_program Derived
    mod (target_alignof_voidp default_program * 2) = 0.
Proof. simpl. unfold static_vtable. repeat case_decide; reflexivity. Defined.

Lemma default_program_distinct_tables D1 D2 :
  D1 ∈ image_linked default_program -> D2 ∈ image_linked default_program ->
  vtable_address default_program D1 = vtable_address default_program D2 ->
  D1 = D2.
Proof.
  simpl. unfold linked. intros H1 H2.
  repeat (apply elem_of_cons in H1 as [->|H1]); [| | |by apply elem_of_nil in H1];
    repeat (apply elem_of_cons in H2 as [->|H2]);
    try (by apply elem_of_nil in H2); vm_compute; congruence.
Defined.

Lemma big_is_linked : DerivedBigSpecialFunctions ∈ image_linked default_program.
Proof. simpl. unfold linked. apply list_elem_of_further, list_elem_of_here. Defined.

Lemma big_container_invariant :
  invariant default_program (fun _ => False) big_container.
Proof.
  split; unfold big_container; simpl.
  - intros this c Hc. apply lookup_singleton_Some in Hc as [<- <-].
    exists DerivedBigSpecialFunctions. left. unfold holds. simpl.
    split; [apply big_is_linked|]. split; [reflexivity|].
    split; [reflexivity|]. split; [discriminate|].
    eexists. split; reflexivity.
  - intros this1 this2 c1 c2 p H1 H2.
    apply lookup_singleton_Some in H1 as [<- <-].
    apply lookup_singleton_Some in H2 as [<- <-]. reflexivity.
  - intros p [o Ho]. apply lookup_singleton_Some in Ho as [<- <-]. lia.
  - lia.
Defined.

(** *** C1 on the table of the big class *)

Lemma vtable_address_encodes_storage_kind_witness :
  get_vtable default_program DerivedBigSpecialFunctions = Instantiated 4232 /\
  ((if in_heap default_program DerivedBigSpecialFunctions
    then 4232 mod (target_alignof_voidp default_program * 2)
           = target_alignof_voidp default_program /\
         offsetof_odd_aligned_vtable_vtable default_program
           = target_alignof_voidp default_program
    else 4232 mod (target_alignof_voidp default_program * 2) = 0) /\
   storage_is_local default_program 4232
     = negb (in_heap default_program DerivedBigSpecialFunctions)).
Proof.
  split; [reflexivity|].
  apply (vtable_address_encodes_storage_kind default_program);
    [reflexivity|apply default_program_alignas|reflexivity].
Defined.

(** *** C2 on building a small object in place *)

Lemma storage_kind_decision_witness :
  exists c',
    containers (Machine {[1 := Container (local_buffer
                                 (Object DerivedSmallSpecialFunctions 7)) 4096]}
                        ∅ 1000 5 [ev_ctor DerivedSmallSpecialFunctions]) !! 1
      = Some c' /\
    (in_heap default_program DerivedSmallSpecialFunctions = false <->
     exists o, m_storage c' = local_buffer o) /\
    (in_heap default_program DerivedSmallSpecialFunctions = true <->
     exists p, m_storage c' = heap_buffer p).
Proof.
  apply (proj2 (storage_kind_decision default_program DerivedSmallSpecialFunctions)
           (construct DerivedSmallSpecialFunctions 7) 1
           (Machine {[1 := Container uninitialised 4096]} ∅ 1000 5 [])).
  vm_compute. reflexivity.
Defined.

(** *** C3: the source of a heap move *)

Lemma big_container_move :
  polymorphic_value_impl_move default_program 2 1 big_container
    = Ok tt big_container_moved.
Proof. vm_compute. reflexivity. Defined.

(** C3, as stated, fails: after [poly2{std::move(poly1)}] on a heap-held
    [poly1], the live container [poly1] holds a null pointer and no object. *)
Lemma moved_from_container_holds_no_object :
  ~ (forall st f m m',
       invariant default_program (fun _ => False) m ->
       (forall Derived, statement_class st = Some Derived ->
                        Derived ∈ image_linked default_program) ->
       compile default_program st = Instantiated f ->
       f m = Ok tt m' ->
       never_empty default_program m').
Proof.
  intros Hclaim.
  assert (never_empty default_program big_container_moved) as Hnever.
  { apply (Hclaim (construct_move 2 1)
                  (polymorphic_value_impl_move default_program 2 1) big_container);
      [apply big_container_invariant|discriminate|reflexivity
      |apply big_container_move]. }
  destruct (Hnever 1 (Container (heap_buffer 0) 4232) eq_refl)
    as (D & _ & _ & _ & Hnull & _).
  by apply Hnull.
Qed.

Lemma statements_preserve_invariant_witness :
  invariant default_program (fun _ => False) big_container /\
  invariant default_program
    (may_be_moved_from (construct_move 2 1) (fun _ => False)) big_container_moved /\
  (forall this c, containers big_container_moved !! this = Some c ->
     ~ may_be_moved_from (construct_move 2 1) (fun _ => False) this ->
     exists Derived, holds default_program big_container_moved c Derived).
Proof.
  split; [apply big_container_invariant|].
  apply (statements_preserve_invariant default_program
           default_program_distinct_tables (fun _ => False)
           (construct_move 2 1)
           (polymorphic_value_impl_move default_program 2 1)
           big_container big_container_moved);
    [apply big_container_invariant|discriminate|reflexivity
    |apply big_container_move].
Defined.

(** *** C5 on the container of the big class *)

Lemma heap_move_only_moves_pointers_witness :
  in_heap default_program DerivedBigSpecialFunctions = true /\
  exists m',
    polymorphic_value_impl_move default_program 2 1 big_container = Ok tt m' /\
    containers m' =
      <[1 := Container (heap_buffer nullptr)
               (vtable_address default_program DerivedBigSpecialFunctions)]>
        (<[2 := Container (heap_buffer 1000)
                  (vtable_address default_program DerivedBigSpecialFunctions)]>
           (containers big_container)) /\
    trace m' = trace big_container /\ objects m' = objects big_container /\
    next_block m' = next_block big_container /\
    free_store m' = free_store big_container.
Proof.
  split; [reflexivity|].
  apply (proj1 (heap_move_only_moves_pointers default_program
                  default_program_distinct_tables DerivedBigSpecialFunctions
                  2 1 1000 big_container big_is_linked eq_refl eq_refl)).
  reflexivity.
Defined.

(** *** C6 on a further-derived value passed as a small one *)

(** C6, as stated, fails: building the exception allocates its message, so
    with the free store used up the value that would slice is turned away
    with [std::bad_alloc], not with [bad_polymorphic_value]. *)
Lemma slicing_check_raises_bad_alloc :
  ~ (forall Derived this d o m,
       macro_RTTI_SUPPORTED default_program = true ->
       objects m !! d = Some o -> dyn o <> Derived ->
       exists m',
         operator_assign_value_copy default_program Derived this d m
           = Throw (bad_polymorphic_value "Value would slice") m').
Proof.
  intros Hclaim.
  destruct (Hclaim DerivedSmallSpecialFunctions 1 500 (Object FurtherDerived 9)
                   further_derived_value_no_free_store eq_refl eq_refl)
    as [m' Hm']; [discriminate|].
  assert (operator_assign_value_copy default_program
            DerivedSmallSpecialFunctions 1 500 further_derived_value_no_free_store
          = Throw bad_alloc further_derived_value_no_free_store) as Hrun.
  { vm_compute. reflexivity. }
  rewrite Hrun in Hm'. discriminate Hm'.
Qed.

Lemma slicing_is_rejected_witness :
  objects small_container_further_derived_value !! 500
    = Some (Object FurtherDerived 9) /\
  polymorphic_value_impl_value default_program DerivedSmallSpecialFunctions
      lvalue 2 500 small_container_further_derived_value
    = Throw (bad_polymorphic_value "Value would slice")
            (Machine (containers small_container_further_derived_value)
                     (objects small_container_further_derived_value)
                     1001 4 [ev_new]) /\
  operator_assign_value_copy default_program DerivedSmallSpecialFunctions 1 500
      small_container_further_derived_value
    = Throw (bad_polymorphic_value "Value would slice")
            (Machine (containers small_container_further_derived_value)
                     (objects small_container_further_derived_value)
                     1001 4 [ev_new]) /\
  operator_assign_value_move default_program DerivedSmallSpecialFunctions 1 500
      small_container_further_derived_value
    = Throw (bad_polymorphic_value "Value would slice")
            (Machine (containers small_container_further_derived_value)
                     (objects small_container_further_derived_value)
                     1001 4 [ev_new]).
Proof.
  split; [reflexivity|].
  apply (slicing_is_rejected default_program DerivedSmallSpecialFunctions
           lvalue 2 500 (Object FurtherDerived 9)
           small_container_further_derived_value);
    [reflexivity|reflexivity|discriminate].
Defined.

(** *** C9 on the big class without allocations *)

Lemma allocations_rejected_at_build_time_witness :
  param_AllowAllocations no_allocations_program = false /\
  in_heap no_allocations_program DerivedBigSpecialFunctions = true /\
  compile no_allocations_program
      (construct_in_place DerivedBigSpecialFunctions 1 7)
    = static_assert_failed "Allocations are not allowed".
Proof.
  split; [reflexivity|]. split; [reflexivity|].
  apply (allocations_rejected_at_build_time no_allocations_program
           default_program_distinct_tables
           DerivedBigSpecialFunctions eq_refl eq_refl).
Defined.

(** ** The tests of main.cpp *)

(** [BigObject]: one allocation at construction, one deallocation at
    destruction. *)
Example test_BigObject :
  execute default_program
    [construct_in_place DerivedBigSpecialFunctions 1 35; destruct 1] start
  = Ok tt (Machine ∅ ∅ 1001 7
             [ev_new; ev_ctor DerivedBigSpecialFunctions;
              ev_dtor DerivedBigSpecialFunctions; ev_delete]).
Proof. vm_compute. reflexivity. Qed.

(** [BigObjectMoveConstructor]: no move constructor runs and one object is
    destroyed for the two containers. *)
Example test_BigObjectMoveConstructor :
  execute default_program
    [construct_in_place DerivedBigSpecialFunctions 1 7; construct_move 2 1;
     destruct 2; destruct 1] start
  = Ok tt (Machine ∅ ∅ 1001 7
             [ev_new; ev_ctor DerivedBigSpecialFunctions;
              ev_dtor DerivedBigSpecialFunctions; ev_delete]).
Proof. vm_compute. reflexivity. Qed.

(** [SmallObjectMoveAssignment]: one move assignment, no allocation. *)
Example test_SmallObjectMoveAssignment :
  execute default_program
    [construct_in_place DerivedSmallSpecialFunctions 1 7;
     construct_in_place DerivedSmallSpecialFunctions 2 8;
     assign_move_from 1 2; destruct 2; destruct 1] start
  = Ok tt (Machine ∅ ∅ 1000 8
             [ev_ctor DerivedSmallSpecialFunctions;
              ev_ctor DerivedSmallSpecialFunctions;
              ev_move_assign DerivedSmallSpecialFunctions;
              ev_dtor DerivedSmallSpecialFunctions;
              ev_dtor DerivedSmallSpecialFunctions]).
Proof. vm_compute. reflexivity. Qed.

(** [CopyAssignmentFromBigToSmall]: the small object is destroyed, then a
    block is allocated and the big object copied into it. *)
Example test_CopyAssignmentFromBigToSmall :
  execute default_program
    [construct_in_place DerivedSmallSpecialFunctions 1 4;
     construct_in_place DerivedBigSpecialFunctions 2 35;
     assign_copy_from 1 2; destruct 2; destruct 1] start
  = Ok tt (Machine ∅ ∅ 1002 6
             [ev_ctor DerivedSmallSpecialFunctions;
              ev_new; ev_ctor DerivedBigSpecialFunctions;
              ev_dtor DerivedSmallSpecialFunctions;
              ev_new; ev_copy_ctor DerivedBigSpecialFunctions;
              ev_dtor DerivedBigSpecialFunctions; ev_delete;
              ev_dtor DerivedBigSpecialFunctions; ev_delete]).
Proof. vm_compute. reflexivity. Qed.

(** [MoveAssignmentFromBigToSmall]: the small object is destroyed and the
    pointer taken over; nothing is allocated and no move constructor runs. *)
Example test_MoveAssignmentFromBigToSmall :
  execute default_program
    [construct_in_place DerivedSmallSpecialFunctions 1 4;
     construct_in_place DerivedBigSpecialFunctions 2 35;
     assign_move_from 1 2; destruct 2; destruct 1] start
  = Ok tt (Machine ∅ ∅ 1001 7
             [ev_ctor DerivedSmallSpecialFunctions;
              ev_new; ev_ctor DerivedBigSpecialFunctions;
              ev_dtor DerivedSmallSpecialFunctions;
              ev_dtor DerivedBigSpecialFunctions; ev_delete]).
Proof. vm_compute. reflexivity. Qed.

(** ** Allocation failure in the assignment from an rvalue *)

(** C7, at its failing input.  A container holds a small object and the
    free store is used up.  Assigning an rvalue of the big class destroys the
    small object, switches the table and calls [heap_storage::move_raw], which
    is [noexcept]: the [std::bad_alloc] of its allocation ends in
    [std::terminate] and does not reach the caller.  Copy assignment of the
    same value and construction from it do let [std::bad_alloc] through. *)
Theorem bad_alloc_in_move_raw_terminates :
  in_heap default_program DerivedBigSpecialFunctions = true /\
  free_store small_container_big_value = 0%nat /\
  operator_assign_value_move default_program DerivedBigSpecialFunctions 1 500
      small_container_big_value
    = Terminate /\
  operator_assign_value_copy default_program DerivedBigSpecialFunctions 1 500
      small_container_big_value
    = Throw bad_alloc
        (Machine {[1 := Container uninitialised 4232]}
                 {[500 := Object DerivedBigSpecialFunctions 35]} 1000 0
                 [ev_dtor DerivedSmallSpecialFunctions]) /\
  polymorphic_value_impl_value default_program DerivedBigSpecialFunctions
      rvalue 2 500 small_container_big_value
    = Throw bad_alloc small_container_big_value.
Proof. repeat split; vm_compute; reflexivity. Qed.

(** ** A move assignment operator that raises *)

(** C10, at its failing input.  Two containers hold objects of a class that
    is stored inline, its move constructor being [noexcept], and whose move
    assignment operator raises.  Move assignment between them runs
    [local_storage::move_assign], which is [noexcept] and calls that operator:
    the exception ends in [std::terminate]. *)
Theorem throwing_move_assignment_terminates :
  in_heap default_program ThrowingMoveAssignment = false /\
  is_nothrow_move_constructible ThrowingMoveAssignment = true /\
  move_assignment ThrowingMoveAssignment = Throws /\
  operator_assign_move default_program 1 2 two_throwing_containers = Terminate.
Proof. repeat split; vm_compute; reflexivity. Qed.

(** ** Instances of the further properties *)

Import scenarios.

Lemma small_is_linked : DerivedSmallSpecialFunctions ∈ image_linked default_program.
Proof. simpl. unfold linked. apply list_elem_of_here. Defined.

Lemma big_container_holds :
  holds default_program big_container (Container (heap_buffer 1000) 4232)
        DerivedBigSpecialFunctions.
Proof.
  split; [apply big_is_linked|]. split; [reflexivity|]. simpl.
  split; [reflexivity|]. split; [discriminate|].
  eexists. split; reflexivity.
Defined.

Lemma big_container_was_moved_from :
  moved_from default_program (Container (heap_buffer 0) 4232)
             DerivedBigSpecialFunctions.
Proof.
  split; [apply big_is_linked|]. split; [reflexivity|].
  split; reflexivity.
Defined.

Lemma small_container_holds m :
  holds default_program m
        (Container (local_buffer (Object DerivedSmallSpecialFunctions 4)) 4096)
        DerivedSmallSpecialFunctions.
Proof.
  split; [apply small_is_linked|]. split; [reflexivity|]. simpl.
  split; reflexivity.
Defined.

Lemma start_invariant prog N : invariant prog N start.
Proof.
  split; unfold start; simpl.
  - intros this c Hc. by rewrite lookup_empty in Hc.
  - intros this1 this2 c1 c2 p Hc. by rewrite lookup_empty in Hc.
  - intros p [o Ho]. by rewrite lookup_empty in Ho.
  - lia.
Defined.

Lemma small_and_big_invariant :
  invariant default_program (fun _ => False) small_and_big_containers.
Proof.
  split; unfold small_and_big_containers; simpl.
  - intros this c Hc. apply lookup_insert_Some in Hc as [[<- <-]|[_ Hc]].
    + exists DerivedSmallSpecialFunctions. left. apply small_container_holds.
    + apply lookup_singleton_Some in Hc as [<- <-].
      exists DerivedBigSpecialFunctions. left.
      split; [apply big_is_linked|]. split; [reflexivity|]. simpl.
      split; [reflexivity|]. split; [discriminate|].
      eexists. split; reflexivity.
  - intros this1 this2 c1 c2 p H1 H2.
    apply lookup_insert_Some in H1 as [[<- <-]|[_ H1]]; [discriminate|].
    apply lookup_singleton_Some in H1 as [<- <-].
    apply lookup_insert_Some in H2 as [[<- <-]|[_ H2]]; [discriminate|].
    apply lookup_singleton_Some in H2 as [<- <-]. reflexivity.
  - intros p [o Ho]. apply lookup_singleton_Some in Ho as [<- <-]. lia.
  - lia.
Defined.

(** *** X1 and X2: dereferencing *)

Lemma second_base_container_holds :
  holds second_base_program second_base_container
        (Container (local_buffer (Object SecondBase 3)) 8192) SecondBase.
Proof.
  split; [apply list_elem_of_here|]. split; [reflexivity|]. simpl.
  split; reflexivity.
Defined.

Lemma dereference_reaches_the_held_object_witness :
  holds default_program big_container (Container (heap_buffer 1000) 4232)
        DerivedBigSpecialFunctions /\
  (exists o,
     held_object big_container (Container (heap_buffer 1000) 4232) = Some o /\
     dyn o = DerivedBigSpecialFunctions /\
     operator_star default_program 1 big_container = Ok o big_container) /\
  holds second_base_program second_base_container
        (Container (local_buffer (Object SecondBase 3)) 8192) SecondBase /\
  operator_star second_base_program 1 second_base_container = Undefined.
Proof.
  split; [apply big_container_holds|]. split.
  - destruct (dereference_reaches_the_held_object default_program eq_refl
                default_program_alignas DerivedBigSpecialFunctions 1
                (Container (heap_buffer 1000) 4232) big_container
                eq_refl eq_refl big_container_holds)
      as (o & Hheld & Hdyn & Hzero & _).
    exists o. split; [exact Hheld|]. split; [exact Hdyn|].
    apply Hzero. reflexivity.
  - split; [apply second_base_container_holds|].
    destruct (dereference_reaches_the_held_object second_base_program eq_refl
                default_program_alignas SecondBase 1
                (Container (local_buffer (Object SecondBase 3)) 8192)
                second_base_container
                eq_refl eq_refl second_base_container_holds)
      as (o & _ & _ & _ & Hmisplaced).
    apply Hmisplaced. discriminate.
Defined.

Lemma dereference_of_moved_from_is_undefined_witness :
  moved_from default_program (Container (heap_buffer 0) 4232)
             DerivedBigSpecialFunctions /\
  get default_program 1 big_container_moved
    = Ok (object_at nullptr) big_container_moved /\
  operator_star default_program 1 big_container_moved = Undefined.
Proof.
  split; [apply big_container_was_moved_from|].
  apply (dereference_of_moved_from_is_undefined default_program eq_refl
           default_program_alignas DerivedBigSpecialFunctions 1
           (Container (heap_buffer 0) 4232) big_container_moved);
    [reflexivity|reflexivity|apply big_container_was_moved_from|reflexivity].
Defined.

(** *** X3 and X4: destruction *)

Lemma destructor_destroys_the_held_object_witness :
  holds default_program big_container (Container (heap_buffer 1000) 4232)
        DerivedBigSpecialFunctions /\
  destructor default_program 1 big_container =
    Ok tt (Machine (delete 1 (containers big_container))
                   (delete 1000 (objects big_container))
                   (next_block big_container) (free_store big_container)
                   (trace big_container
                      ++ destroy_trace default_program DerivedBigSpecialFunctions)).
Proof.
  split; [apply big_container_holds|].
  apply (destructor_destroys_the_held_object default_program
           default_program_distinct_tables DerivedBigSpecialFunctions 1
           (Container (heap_buffer 1000) 4232) big_container eq_refl
           big_container_holds).
Defined.

Lemma destructor_of_moved_from_is_silent_witness :
  moved_from default_program (Container (heap_buffer 0) 4232)
             DerivedBigSpecialFunctions /\
  destructor default_program 1 big_container_moved
    = Ok tt (with_containers (delete 1) big_container_moved).
Proof.
  split; [apply big_container_was_moved_from|].
  apply (destructor_of_moved_from_is_silent default_program
           default_program_distinct_tables DerivedBigSpecialFunctions 1
           (Container (heap_buffer 0) 4232) big_container_moved eq_refl
           big_container_was_moved_from).
Defined.

(** *** X5: copy construction of the big container *)

Lemma copy_construction_is_deep_witness :
  holds default_program big_container (Container (heap_buffer 1000) 4232)
        DerivedBigSpecialFunctions /\
  exists m' c',
    polymorphic_value_impl_copy default_program 2 1 big_container = Ok tt m' /\
    containers m' = <[2 := c']> (containers big_container) /\
    m_vtable c' = 4232 /\
    held_object m' c' = Some (Object DerivedBigSpecialFunctions 7) /\
    held_object m' (Container (heap_buffer 1000) 4232)
      = Some (Object DerivedBigSpecialFunctions 7) /\
    (forall p q, m_storage c' = heap_buffer p ->
                 heap_buffer 1000 = heap_buffer q -> p <> q) /\
    trace m' = trace big_container
                 ++ build_trace default_program DerivedBigSpecialFunctions
                      (ev_copy_ctor DerivedBigSpecialFunctions).
Proof.
  split; [apply big_container_holds|].
  apply (copy_construction_is_deep default_program
           default_program_distinct_tables DerivedBigSpecialFunctions 2 1
           (Container (heap_buffer 1000) 4232)
           (Object DerivedBigSpecialFunctions 7) big_container);
    [reflexivity|apply big_container_holds|reflexivity|reflexivity
    |discriminate|discriminate|reflexivity].
Defined.

(** *** X6: reading back what was built in place *)

Lemma built_object_is_read_back_witness :
  get_vtable default_program DerivedBigSpecialFunctions
    = Instantiated (vtable_address default_program DerivedBigSpecialFunctions) /\
  polymorphic_value_impl_in_place default_program DerivedBigSpecialFunctions
      1 35 start
    = Ok tt (Machine {[1 := Container (heap_buffer 1000) 4232]}
                     {[1000 := Object DerivedBigSpecialFunctions 35]} 1001 7
                     [ev_new; ev_ctor DerivedBigSpecialFunctions]) /\
  operator_star default_program 1
      (Machine {[1 := Container (heap_buffer 1000) 4232]}
               {[1000 := Object DerivedBigSpecialFunctions 35]} 1001 7
               [ev_new; ev_ctor DerivedBigSpecialFunctions])
    = Ok (Object DerivedBigSpecialFunctions 35)
         (Machine {[1 := Container (heap_buffer 1000) 4232]}
                  {[1000 := Object DerivedBigSpecialFunctions 35]} 1001 7
                  [ev_new; ev_ctor DerivedBigSpecialFunctions]).
Proof.
  split; [reflexivity|].
  assert (polymorphic_value_impl_in_place default_program
            DerivedBigSpecialFunctions 1 35 start
          = Ok tt (Machine {[1 := Container (heap_buffer 1000) 4232]}
                     {[1000 := Object DerivedBigSpecialFunctions 35]} 1001 7
                     [ev_new; ev_ctor DerivedBigSpecialFunctions])) as Hrun.
  { vm_compute. reflexivity. }
  split; [exact Hrun|].
  apply (proj1 (built_object_is_read_back default_program eq_refl
                  default_program_alignas DerivedBigSpecialFunctions 1 start _
                  eq_refl eq_refl) 35 Hrun).
Defined.

(** *** X7: the value after a copy assignment that rebuilds *)

Lemma assignment_gives_the_value_of_the_source_witness :
  invariant default_program (fun _ => False) small_and_big_containers /\
  incoming default_program assign_container_copy DerivedBigSpecialFunctions 1 2
    small_and_big_containers /\
  source_object assign_container_copy 2 small_and_big_containers
    = Some (Object DerivedBigSpecialFunctions 35) /\
  run_assignment default_program assign_container_copy
      DerivedBigSpecialFunctions 1 2 small_and_big_containers
    = Ok tt small_and_big_after_copy /\
  exists o',
    operator_star default_program 1 small_and_big_after_copy
      = Ok o' small_and_big_after_copy /\
    dyn o' = DerivedBigSpecialFunctions /\
    value o' = value (Object DerivedBigSpecialFunctions 35).
Proof.
  assert (incoming default_program assign_container_copy
            DerivedBigSpecialFunctions 1 2 small_and_big_containers) as Hincoming.
  { split; [discriminate|]. eexists. split; reflexivity. }
  assert (run_assignment default_program assign_container_copy
            DerivedBigSpecialFunctions 1 2 small_and_big_containers
          = Ok tt small_and_big_after_copy) as Hrun.
  { vm_compute. reflexivity. }
  split; [apply small_and_big_invariant|]. split; [exact Hincoming|].
  split; [reflexivity|]. split; [exact Hrun|].
  apply (assignment_gives_the_value_of_the_source default_program eq_refl
           default_program_alignas default_program_distinct_tables
           (fun _ => False) assign_container_copy DerivedBigSpecialFunctions 1 2
           (Container (local_buffer (Object DerivedSmallSpecialFunctions 4)) 4096)
           (Object DerivedBigSpecialFunctions 35)
           small_and_big_containers small_and_big_after_copy
           small_and_big_invariant big_is_linked eq_refl eq_refl eq_refl
           Hincoming eq_refl Hrun).
Defined.

(** *** X8: copy assignment to the container that was moved from *)

Lemma same_class_assignment_to_moved_from_is_undefined_witness :
  moved_from default_program (Container (heap_buffer 0) 4232)
             DerivedBigSpecialFunctions /\
  incoming default_program assign_container_copy DerivedBigSpecialFunctions 1 2
    big_container_moved /\
  run_assignment default_program assign_container_copy
      DerivedBigSpecialFunctions 1 2 big_container_moved
    = Undefined.
Proof.
  assert (incoming default_program assign_container_copy
            DerivedBigSpecialFunctions 1 2 big_container_moved) as Hincoming.
  { split; [discriminate|]. eexists. split; reflexivity. }
  split; [apply big_container_was_moved_from|]. split; [exact Hincoming|].
  apply (same_class_assignment_to_moved_from_is_undefined default_program
           default_program_distinct_tables assign_container_copy
           DerivedBigSpecialFunctions 1 2 (Container (heap_buffer 0) 4232)
           big_container_moved);
    [discriminate|reflexivity|apply big_container_was_moved_from|reflexivity
    |exact Hincoming].
Defined.

(** *** X9 and X10: emplacing a small object *)

Lemma emplace_destroys_and_rebuilds_witness :
  holds default_program big_container (Container (heap_buffer 1000) 4232)
        DerivedBigSpecialFunctions /\
  exists m',
    emplace default_program DerivedSmallSpecialFunctions 1 9 big_container
      = Ok tt m' /\
    trace m' = trace big_container
                 ++ destroy_trace default_program DerivedBigSpecialFunctions
                 ++ build_trace default_program DerivedSmallSpecialFunctions
                      (ev_ctor DerivedSmallSpecialFunctions) /\
    operator_star default_program 1 m'
      = Ok (Object DerivedSmallSpecialFunctions 9) m' /\
    forall l, l <> 1 -> containers m' !! l = containers big_container !! l.
Proof.
  split; [apply big_container_holds|].
  apply (emplace_destroys_and_rebuilds default_program eq_refl
           default_program_alignas default_program_distinct_tables
           DerivedBigSpecialFunctions DerivedSmallSpecialFunctions 1
           (Container (heap_buffer 1000) 4232) 9 big_container);
    [reflexivity|reflexivity|reflexivity|apply big_container_holds|discriminate
    |discriminate].
Defined.

Lemma emplace_revives_moved_from_witness :
  moved_from default_program (Container (heap_buffer 0) 4232)
             DerivedBigSpecialFunctions /\
  exists m',
    emplace default_program DerivedBigSpecialFunctions 1 9 big_container_moved
      = Ok tt m' /\
    trace m' = trace big_container_moved
                 ++ build_trace default_program DerivedBigSpecialFunctions
                      (ev_ctor DerivedBigSpecialFunctions) /\
    operator_star default_program 1 m'
      = Ok (Object DerivedBigSpecialFunctions 9) m' /\
    forall l, l <> 1 -> containers m' !! l = containers big_container_moved !! l.
Proof.
  split; [apply big_container_was_moved_from|].
  apply (emplace_revives_moved_from default_program eq_refl
           default_program_alignas default_program_distinct_tables
           DerivedBigSpecialFunctions DerivedBigSpecialFunctions 1
           (Container (heap_buffer 0) 4232) 9 big_container_moved);
    [reflexivity|reflexivity|reflexivity|apply big_container_was_moved_from
    |discriminate|discriminate].
Defined.

(** *** X11: the copy assignment of a big value that fails to allocate *)

Lemma failed_rebuild_leaves_no_object_witness :
  holds default_program small_container_big_value
        (Container (local_buffer (Object DerivedSmallSpecialFunctions 4)) 4096)
        DerivedSmallSpecialFunctions /\
  incoming default_program assign_raw_copy DerivedBigSpecialFunctions 1 500
    small_container_big_value /\
  run_assignment default_program assign_raw_copy DerivedBigSpecialFunctions
      1 500 small_container_big_value
    = Throw bad_alloc small_container_destroyed /\
  (exists c', containers small_container_destroyed !! 1 = Some c' /\
     m_vtable c' = vtable_address default_program DerivedBigSpecialFunctions /\
     held_object small_container_destroyed c' = None) /\
  destructor default_program 1 small_container_destroyed = Undefined.
Proof.
  assert (incoming default_program assign_raw_copy DerivedBigSpecialFunctions
            1 500 small_container_big_value) as Hincoming.
  { vm_compute. reflexivity. }
  assert (run_assignment default_program assign_raw_copy
            DerivedBigSpecialFunctions 1 500 small_container_big_value
          = Throw bad_alloc small_container_destroyed) as Hrun.
  { vm_compute. reflexivity. }
  split; [apply small_container_holds|]. split; [exact Hincoming|].
  split; [exact Hrun|].
  apply (failed_rebuild_leaves_no_object default_program
           default_program_distinct_tables assign_raw_copy
           DerivedSmallSpecialFunctions DerivedBigSpecialFunctions 1 500
           (Container (local_buffer (Object DerivedSmallSpecialFunctions 4)) 4096)
           bad_alloc small_container_big_value small_container_destroyed);
    [apply big_is_linked|reflexivity|apply small_container_holds|discriminate
    |exact Hincoming|exact Hrun].
Defined.

(** *** X12: a constructor that raises after the allocation *)

Lemma constructors_raise_cleanly_witness :
  objects start !! next_block start = None /\
  polymorphic_value_impl_in_place default_program ThrowingConstructor 1 7 start
    = Throw (user_exception ThrowingConstructor)
            (Machine ∅ ∅ 1001 7 [ev_new; ev_delete]) /\
  containers (Machine ∅ ∅ 1001 7 [ev_new; ev_delete]) = containers start /\
  objects (Machine ∅ ∅ 1001 7 [ev_new; ev_delete]) = objects start.
Proof.
  assert (polymorphic_value_impl_in_place default_program ThrowingConstructor
            1 7 start
          = Throw (user_exception ThrowingConstructor)
                  (Machine ∅ ∅ 1001 7 [ev_new; ev_delete])) as Hrun.
  { vm_compute. reflexivity. }
  split; [reflexivity|]. split; [exact Hrun|].
  apply (proj1 (proj2 (constructors_raise_cleanly default_program
                         default_program_distinct_tables 1
                         (user_exception ThrowingConstructor) start
                         (Machine ∅ ∅ 1001 7 [ev_new; ev_delete]) eq_refl))
           ThrowingConstructor 7 Hrun).
Defined.

(** *** X13: a heap-stored class on the m68k *)

Lemma vtable_placement_depends_on_the_target_witness :
  0 < target_alignof_vtable m68k_program /\
  in_heap m68k_program DerivedBig_m68k = true /\
  target_alignof_voidp m68k_program < target_sizeof_voidp m68k_program /\
  get_vtable m68k_program DerivedBig_m68k
    = static_assert_failed "Bug: misaligned vtable".
Proof.
  split; [reflexivity|]. split; [reflexivity|]. split; [reflexivity|].
  apply (proj2 (proj2 (vtable_placement_depends_on_the_target m68k_program
                         DerivedBig_m68k eq_refl)) eq_refl eq_refl).
Defined.

(** *** X14: [DerivedSmall] in a container asked to have no inline buffer *)

Lemma alias_keeps_pointer_sized_classes_inline_witness :
  is_nothrow_move_constructible DerivedSmall = true /\
  sizeof DerivedSmall <= target_sizeof_voidp default_program /\
  alignof DerivedSmall <= target_alignof_voidp default_program /\
  store_in_heap DerivedSmall
    (polymorphic_value_SboSize 0 (target_sizeof_voidp default_program))
    (polymorphic_value_SboAlignment 0 (target_alignof_voidp default_program))
  = false.
Proof.
  split; [reflexivity|]. split; [discriminate|]. split; [discriminate|].
  apply (proj1 (alias_keeps_pointer_sized_classes_inline default_program
                  DerivedSmall 0 0));
    [reflexivity|discriminate|discriminate].
Defined.

(** *** X15 to X17: programs *)

Lemma programs_preserve_the_invariant_witness :
  invariant default_program (fun _ => False) start /\
  Forall (linked_statement default_program)
    [construct_in_place DerivedBigSpecialFunctions 1 7; construct_move 2 1] /\
  compile_all default_program
      [construct_in_place DerivedBigSpecialFunctions 1 7; construct_move 2 1]
    = Instantiated
        (execute default_program
           [construct_in_place DerivedBigSpecialFunctions 1 7;
            construct_move 2 1]) /\
  execute default_program
      [construct_in_place DerivedBigSpecialFunctions 1 7; construct_move 2 1]
      start
    = Ok tt big_constructed_and_moved /\
  invariant default_program
    (may_be_moved_from_after
       [construct_in_place DerivedBigSpecialFunctions 1 7; construct_move 2 1]
       (fun _ => False))
    big_constructed_and_moved /\
  (forall this c,
     containers big_constructed_and_moved !! this = Some c ->
     ~ may_be_moved_from_after
         [construct_in_place DerivedBigSpecialFunctions 1 7; construct_move 2 1]
         (fun _ => False) this ->
     exists Derived, holds default_program big_constructed_and_moved c Derived).
Proof.
  assert (Forall (linked_statement default_program)
            [construct_in_place DerivedBigSpecialFunctions 1 7;
             construct_move 2 1]) as Hlinked.
  { constructor; [intros D [= <-]; apply big_is_linked|].
    constructor; [intros D [=]|constructor]. }
  assert (execute default_program
            [construct_in_place DerivedBigSpecialFunctions 1 7;
             construct_move 2 1] start
          = Ok tt big_constructed_and_moved) as Hrun.
  { vm_compute. reflexivity. }
  split; [apply start_invariant|]. split; [exact Hlinked|].
  split; [reflexivity|]. split; [exact Hrun|].
  apply (programs_preserve_the_invariant default_program
           default_program_distinct_tables
           [construct_in_place DerivedBigSpecialFunctions 1 7; construct_move 2 1]
           (fun _ => False) _ start big_constructed_and_moved
           (start_invariant _ _) Hlinked eq_refl Hrun).
Defined.

Lemma programs_without_moves_are_never_empty_witness :
  Forall (fun st => is_move st = false)
    [construct_in_place DerivedBigSpecialFunctions 1 7; construct_copy 2 1] /\
  invariant default_program (fun _ => False) start /\
  Forall (linked_statement default_program)
    [construct_in_place DerivedBigSpecialFunctions 1 7; construct_copy 2 1] /\
  execute default_program
      [construct_in_place DerivedBigSpecialFunctions 1 7; construct_copy 2 1]
      start
    = Ok tt big_constructed_and_copied /\
  never_empty default_program big_constructed_and_copied.
Proof.
  assert (Forall (fun st => is_move st = false)
            [construct_in_place DerivedBigSpecialFunctions 1 7;
             construct_copy 2 1]) as Hmoves.
  { constructor; [reflexivity|]. constructor; [reflexivity|constructor]. }
  assert (Forall (linked_statement default_program)
            [construct_in_place DerivedBigSpecialFunctions 1 7;
             construct_copy 2 1]) as Hlinked.
  { constructor; [intros D [= <-]; apply big_is_linked|].
    constructor; [intros D [=]|constructor]. }
  assert (execute default_program
            [construct_in_place DerivedBigSpecialFunctions 1 7;
             construct_copy 2 1] start
          = Ok tt big_constructed_and_copied) as Hrun.
  { vm_compute. reflexivity. }
  split; [exact Hmoves|]. split; [apply start_invariant|].
  split; [exact Hlinked|]. split; [exact Hrun|].
  apply (programs_without_moves_are_never_empty default_program
           default_program_distinct_tables
           [construct_in_place DerivedBigSpecialFunctions 1 7; construct_copy 2 1]
           _ start big_constructed_and_copied Hmoves
           (start_invariant _ _) Hlinked eq_refl Hrun).
Defined.

Lemma inline_program_distinct_tables D1 D2 :
  D1 ∈ image_linked inline_program -> D2 ∈ image_linked inline_program ->
  vtable_address inline_program D1 = vtable_address inline_program D2 ->
  D1 = D2.
Proof.
  simpl. intros H1 H2.
  repeat (apply elem_of_cons in H1 as [->|H1]); [| |by apply elem_of_nil in H1];
    repeat (apply elem_of_cons in H2 as [->|H2]);
    try (by apply elem_of_nil in H2); vm_compute; congruence.
Defined.

Lemma inline_program_all_inline Derived :
  Derived ∈ image_linked inline_program -> in_heap inline_program Derived = false.
Proof.
  simpl. intros H.
  repeat (apply elem_of_cons in H as [->|H]); [reflexivity..|].
  by apply elem_of_nil in H.
Defined.

Lemma inline_programs_are_never_empty_witness :
  (forall Derived, Derived ∈ image_linked inline_program ->
                   in_heap inline_program Derived = false) /\
  invariant inline_program (fun _ => False) start /\
  Forall (linked_statement inline_program)
    [construct_in_place DerivedSmallSpecialFunctions 1 7; construct_move 2 1] /\
  execute inline_program
      [construct_in_place DerivedSmallSpecialFunctions 1 7; construct_move 2 1]
      start
    = Ok tt small_constructed_and_moved /\
  never_empty inline_program small_constructed_and_moved.
Proof.
  assert (Forall (linked_statement inline_program)
            [construct_in_place DerivedSmallSpecialFunctions 1 7;
             construct_move 2 1]) as Hlinked.
  { constructor; [intros D [= <-]; apply list_elem_of_here|].
    constructor; [intros D [=]|constructor]. }
  assert (execute inline_program
            [construct_in_place DerivedSmallSpecialFunctions 1 7;
             construct_move 2 1] start
          = Ok tt small_constructed_and_moved) as Hrun.
  { vm_compute. reflexivity. }
  split; [apply inline_program_all_inline|]. split; [apply start_invariant|].
  split; [exact Hlinked|]. split; [exact Hrun|].
  apply (inline_programs_are_never_empty inline_program
           inline_program_distinct_tables
           [construct_in_place DerivedSmallSpecialFunctions 1 7; construct_move 2 1]
           (fun _ => False) _ start small_constructed_and_moved
           inline_program_all_inline (start_invariant _ _) Hlinked eq_refl Hrun).
Defined.

(** *** X18: the big object constructed and destroyed *)

Lemma construct_then_destroy_restores_witness :
  exists m' m'',
    polymorphic_value_impl_in_place default_program DerivedBigSpecialFunctions
        1 35 start = Ok tt m' /\
    destructor default_program 1 m' = Ok tt m'' /\
    containers m'' = containers start /\ objects m'' = objects start /\
    trace m'' = trace start
                  ++ build_trace default_program DerivedBigSpecialFunctions
                       (ev_ctor DerivedBigSpecialFunctions)
                  ++ destroy_trace default_program DerivedBigSpecialFunctions.
Proof.
  apply (construct_then_destroy_restores default_program
           default_program_distinct_tables DerivedBigSpecialFunctions 1 35 start);
    [apply big_is_linked|reflexivity|reflexivity|discriminate|discriminate
    |discriminate].
Defined.

(** *** X19: move assignment of the big container to the small one *)

Lemma move_assignment_takes_over_the_block_witness :
  holds default_program small_and_big_containers
        (Container (local_buffer (Object DerivedSmallSpecialFunctions 4)) 4096)
        DerivedSmallSpecialFunctions /\
  exists m',
    operator_assign_move default_program 1 2 small_and_big_containers = Ok tt m' /\
    containers m' !! 1
      = Some (Container (heap_buffer 1000)
                (vtable_address default_program DerivedBigSpecialFunctions)) /\
    containers m' !! 2
      = Some (Container (heap_buffer nullptr)
                (vtable_address default_program DerivedBigSpecialFunctions)) /\
    (forall l, l <> 1 -> l <> 2 ->
       containers m' !! l = containers small_and_big_containers !! l) /\
    trace m' = trace small_and_big_containers
                 ++ destroy_trace default_program DerivedSmallSpecialFunctions /\
    next_block m' = next_block small_and_big_containers /\
    free_store m' = free_store small_and_big_containers /\
    objects m' = objects small_and_big_containers.
Proof.
  split; [apply small_container_holds|].
  apply (move_assignment_takes_over_the_block default_program
           default_program_distinct_tables DerivedSmallSpecialFunctions
           DerivedBigSpecialFunctions 1 2
           (Container (local_buffer (Object DerivedSmallSpecialFunctions 4)) 4096)
           1000 small_and_big_containers);
    [apply big_is_linked|reflexivity|discriminate|discriminate|reflexivity
    |apply small_container_holds|reflexivity].
Defined.

(** *** X20: a further-derived value without run-time type identity *)

Lemma without_rtti_slicing_goes_undetected_witness :
  macro_RTTI_SUPPORTED no_rtti_program = false /\
  objects small_container_further_derived_value !! 500
    = Some (Object FurtherDerived 9) /\
  exists m',
    polymorphic_value_impl_value no_rtti_program DerivedSmallSpecialFunctions
        lvalue 2 500 small_container_further_derived_value = Ok tt m' /\
    operator_star no_rtti_program 2 m'
      = Ok (Object DerivedSmallSpecialFunctions 9) m'.
Proof.
  split; [reflexivity|]. split; [reflexivity|].
  apply (without_rtti_slicing_goes_undetected no_rtti_program eq_refl
           default_program_alignas DerivedSmallSpecialFunctions lvalue 2 500
           (Object FurtherDerived 9) small_container_further_derived_value);
    [reflexivity|reflexivity|reflexivity|reflexivity|reflexivity|discriminate
    |discriminate].
Defined.

(** *** X21: construction from a big rvalue *)


(** *** X22: move construction from a small container *)

Lemma inline_move_keeps_the_source_witness :
  in_heap default_program DerivedSmallSpecialFunctions = false /\
  polymorphic_value_impl_move default_program 3 2 two_small_containers =
    Ok tt (Machine (<[3 := Container (local_buffer
                                        (Object DerivedSmallSpecialFunctions 2))
                                     (vtable_address default_program
                                        DerivedSmallSpecialFunctions)]>
                      (containers two_small_containers))
                   (objects two_small_containers)
                   (next_block two_small_containers)
                   (free_store two_small_containers)
                   (trace two_small_containers
                      ++ [ev_move_ctor DerivedSmallSpecialFunctions])).
Proof.
  split; [reflexivity|].
  apply (proj1 (inline_move_keeps_the_source default_program
                  default_program_distinct_tables DerivedSmallSpecialFunctions
                  3 2 (Object DerivedSmallSpecialFunctions 2)
                  two_small_containers small_is_linked eq_refl eq_refl)).
  reflexivity.
Defined.

(** *** X24 and X25: the free store used up *)

Lemma constructors_propagate_bad_alloc_witness :
  in_heap default_program DerivedBigSpecialFunctions = true /\
  free_store small_container_big_value = 0%nat /\
  polymorphic_value_impl_in_place default_program DerivedBigSpecialFunctions
      2 7 small_container_big_value
    = Throw bad_alloc small_container_big_value.
Proof.
  split; [reflexivity|]. split; [reflexivity|].
  apply (proj1 (constructors_propagate_bad_alloc default_program
                  default_program_distinct_tables DerivedBigSpecialFunctions
                  2 small_container_big_value eq_refl eq_refl eq_refl)).
Defined.

Lemma rebuilding_copies_propagate_bad_alloc_witness :
  holds default_program small_container_big_value
        (Container (local_buffer (Object DerivedSmallSpecialFunctions 4)) 4096)
        DerivedSmallSpecialFunctions /\
  incoming default_program assign_raw_copy DerivedBigSpecialFunctions 1 500
    small_container_big_value /\
  exists m',
    run_assignment default_program assign_raw_copy DerivedBigSpecialFunctions
      1 500 small_container_big_value = Throw bad_alloc m'.
Proof.
  assert (incoming default_program assign_raw_copy DerivedBigSpecialFunctions
            1 500 small_container_big_value) as Hincoming.
  { vm_compute. reflexivity. }
  split; [apply small_container_holds|]. split; [exact Hincoming|].
  apply (proj1 (rebuilding_copies_propagate_bad_alloc default_program
                  default_program_distinct_tables DerivedSmallSpecialFunctions
                  DerivedBigSpecialFunctions 1
                  (Container (local_buffer
                                (Object DerivedSmallSpecialFunctions 4)) 4096)
                  small_container_big_value eq_refl eq_refl eq_refl
                  (small_container_holds _))
           assign_raw_copy 500);
    [by right|apply big_is_linked|discriminate|exact Hincoming|discriminate].
Defined.

(** *** X27: move assignment between the small containers of the tests *)

Lemma move_assignment_honours_noexcept_witness :
  (forall Derived,
     Derived ∈ image_linked tested_program ->
     in_heap tested_program Derived = false ->
     move_assignment Derived <> Throws) /\
  quiet (operator_assign_move tested_program 1 2 two_small_containers).
Proof.
  assert (forall Derived,
            Derived ∈ image_linked tested_program ->
            in_heap tested_program Derived = false ->
            move_assignment Derived <> Throws) as Hassign.
  { simpl. intros Derived H _.
    repeat (apply elem_of_cons in H as [->|H]); [discriminate..|].
    by apply elem_of_nil in H. }
  split; [exact Hassign|].
  apply (move_assignment_honours_noexcept tested_program 1 2
           two_small_containers Hassign).
Defined.

(** *** X28: two big containers built and destroyed *)

Lemma programs_leak_no_block_witness :
  0 < 1000 /\
  no_leak 1000 start /\
  compile_all default_program
      [construct_in_place DerivedBigSpecialFunctions 1 7; construct_copy 2 1;
       destruct 1; destruct 2]
    = Instantiated
        (execute default_program
           [construct_in_place DerivedBigSpecialFunctions 1 7;
            construct_copy 2 1; destruct 1; destruct 2]) /\
  execute default_program
      [construct_in_place DerivedBigSpecialFunctions 1 7; construct_copy 2 1;
       destruct 1; destruct 2] start
    = Ok tt (Machine ∅ ∅ 1002 6
               [ev_new; ev_ctor DerivedBigSpecialFunctions;
                ev_new; ev_copy_ctor DerivedBigSpecialFunctions;
                ev_dtor DerivedBigSpecialFunctions; ev_delete;
                ev_dtor DerivedBigSpecialFunctions; ev_delete]) /\
  no_leak 1000
    (Machine ∅ ∅ 1002 6
       [ev_new; ev_ctor DerivedBigSpecialFunctions;
        ev_new; ev_copy_ctor DerivedBigSpecialFunctions;
        ev_dtor DerivedBigSpecialFunctions; ev_delete;
        ev_dtor DerivedBigSpecialFunctions; ev_delete]) /\
  (containers
     (Machine ∅ ∅ 1002 6
        [ev_new; ev_ctor DerivedBigSpecialFunctions;
         ev_new; ev_copy_ctor DerivedBigSpecialFunctions;
         ev_dtor DerivedBigSpecialFunctions; ev_delete;
         ev_dtor DerivedBigSpecialFunctions; ev_delete]) = ∅ ->
   forall p, 1000 <= p ->
     objects
       (Machine ∅ ∅ 1002 6
          [ev_new; ev_ctor DerivedBigSpecialFunctions;
           ev_new; ev_copy_ctor DerivedBigSpecialFunctions;
           ev_dtor DerivedBigSpecialFunctions; ev_delete;
           ev_dtor DerivedBigSpecialFunctions; ev_delete]) !! p = None).
Proof.
  assert (no_leak 1000 start) as Hstart.
  { intros p _ [o Ho]. unfold start in Ho. simpl in Ho.
    by rewrite lookup_empty in Ho. }
  assert (execute default_program
            [construct_in_place DerivedBigSpecialFunctions 1 7;
             construct_copy 2 1; destruct 1; destruct 2] start
          = Ok tt (Machine ∅ ∅ 1002 6
                     [ev_new; ev_ctor DerivedBigSpecialFunctions;
                      ev_new; ev_copy_ctor DerivedBigSpecialFunctions;
                      ev_dtor DerivedBigSpecialFunctions; ev_delete;
                      ev_dtor DerivedBigSpecialFunctions; ev_delete])) as Hrun.
  { vm_compute. reflexivity. }
  split; [lia|]. split; [exact Hstart|]. split; [reflexivity|].
  split; [exact Hrun|].
  apply (programs_leak_no_block default_program default_program_distinct_tables
           1000
           [construct_in_place DerivedBigSpecialFunctions 1 7;
            construct_copy 2 1; destruct 1; destruct 2]
           _ start _ ltac:(lia) Hstart eq_refl Hrun).
Defined.

(** *** X29: the small container assigned the big one *)


(** *** X30: the big container after it was copied from *)

Lemma copy_assignment_leaves_the_source_witness :
  invariant default_program (fun _ => False) small_and_big_containers /\
  incoming default_program assign_container_copy DerivedBigSpecialFunctions 1 2
    small_and_big_containers /\
  source_object assign_container_copy 2 small_and_big_containers
    = Some (Object DerivedBigSpecialFunctions 35) /\
  run_assignment default_program assign_container_copy
      DerivedBigSpecialFunctions 1 2 small_and_big_containers
    = Ok tt small_and_big_after_copy /\
  source_object assign_container_copy 2 small_and_big_after_copy
    = Some (Object DerivedBigSpecialFunctions 35) /\
  containers small_and_big_after_copy !! 2
    = containers small_and_big_containers !! 2.
Proof.
  assert (incoming default_program assign_container_copy
            DerivedBigSpecialFunctions 1 2 small_and_big_containers) as Hincoming.
  { split; [discriminate|]. eexists. split; reflexivity. }
  assert (run_assignment default_program assign_container_copy
            DerivedBigSpecialFunctions 1 2 small_and_big_containers
          = Ok tt small_and_big_after_copy) as Hrun.
  { vm_compute. reflexivity. }
  split; [apply small_and_big_invariant|]. split; [exact Hincoming|].
  split; [reflexivity|]. split; [exact Hrun|].
  destruct (copy_assignment_leaves_the_source default_program
              default_program_distinct_tables (fun _ => False)
              assign_container_copy DerivedBigSpecialFunctions 1 2
              (Container (local_buffer (Object DerivedSmallSpecialFunctions 4))
                         4096)
              (Object DerivedBigSpecialFunctions 35)
              small_and_big_containers small_and_big_after_copy
              (or_introl eq_refl) small_and_big_invariant big_is_linked eq_refl
              Hincoming eq_refl Hrun) as [Hsource Hcontainer].
  split; [exact Hsource|]. exact (Hcontainer eq_refl).
Defined.

(** *** C4: a copy assignment in place and one that rebuilds *)



